(** * BUCKS: the CNN feed scraper and the news bucketing pass

    A shallow embedding of
      - [cnn_news_scraper_v2.py]   (article_id, parse_datetime, init_db,
                                    store_entry, fetch_feed, poll_loop)
      - [news_impact_analyzer_v3.py] (fetch_recent_articles, build_user_msg,
                                    the bucketing loop of main)

    Python [str] values are byte strings ([string]); [str.lower] is the ASCII
    lower-casing.  A [datetime] is the number of microseconds since
    0001-01-01T00:00:00 together with its [tzinfo]; the calendar algorithms
    are those of CPython's [datetime] module.  The coroutines of the scraper
    are trees of external calls (clock, feedparser, aiosqlite) that an
    interpreter runs against an explicit world; the tasks of a cycle take
    turns at their awaits, in the order a schedule gives.  [hashlib.sha256]
    and [dateutil.parser.parse] are parameters. *)

From Stdlib Require Import ZArith String List Ascii Lia Bool Arith.
Import ListNotations.

Local Open Scope string_scope.
Local Open Scope Z_scope.

(* ------------------------------------------------------------------ *)
(** ** Python exceptions and fallible pure computations *)

Inductive exn : Type :=
| ValueError        (* datetime(...) with a field out of range *)
| OverflowError     (* datetime arithmetic leaving year 1..9999 *)
| TypeError         (* comparing a naive with an aware datetime *)
| OperationalError  (* sqlite3: I/O failure, missing table *)
| IntegrityError    (* sqlite3: PRIMARY KEY / NOT NULL violated *)
| ConnectionError   (* an exception escaping feedparser.parse *)
| AttributeError.   (* entry.link on an entry without that key *)

Definition result (A : Type) : Type := (exn + A)%type.

Definition ok {A} (a : A) : result A := inr a.
Definition raise {A} (e : exn) : result A := inl e.

(* ------------------------------------------------------------------ *)
(** ** Strings *)

Module Str.

(** Text is held as the bytes of its UTF-8 encoding: concatenation,
    comparison and substring search on the bytes are those on the text. *)

(** Text in which every character is an ASCII character. *)
Fixpoint is_ascii (s : string) : bool :=
  match s with
  | EmptyString => true
  | String c s' => (nat_of_ascii c <? 128)%nat && is_ascii s'
  end.

(** [c.lower()] for one ASCII character. *)
Definition lower_char (c : ascii) : ascii :=
  let n := nat_of_ascii c in
  if ((65 <=? n) && (n <=? 90))%nat then ascii_of_nat (n + 32) else c.

(** [s.lower()] for ASCII text: the letters A to Z become a to z.  What
    [str.lower] does to other text follows the Unicode tables of the
    interpreter; the analyzer below takes [str.lower] as a parameter. *)
Fixpoint lower (s : string) : string :=
  match s with
  | EmptyString => EmptyString
  | String c s' => String (lower_char c) (lower s')
  end.

(** [needle in hay] *)
Fixpoint contains (needle hay : string) : bool :=
  String.prefix needle hay ||
  match hay with
  | EmptyString => false
  | String _ hay' => contains needle hay'
  end.

(** [sep.join(parts)] *)
Definition join (sep : string) (parts : list string) : string :=
  String.concat sep parts.

(** One decimal digit. *)
Definition digit (d : Z) : ascii := ascii_of_nat (48 + Z.to_nat d).

(** ["%0<width>d" % n] for [0 <= n < 10^width]. *)
Fixpoint zfill (width : nat) (n : Z) (acc : string) : string :=
  match width with
  | O => acc
  | S w => zfill w (n / 10) (String (digit (n mod 10)) acc)
  end.

Definition pad (width : nat) (n : Z) : string := zfill width n "".

(** SQLite's BINARY collation on TEXT: bytewise, shorter prefix first. *)
Definition text_ge (a b : string) : bool := String.leb b a.

End Str.

(* ------------------------------------------------------------------ *)
(** ** datetime, timedelta, timezone *)

Module Datetime.

(** The only tzinfo the programs construct is [timezone.utc]. *)
Inductive timezone : Type := utc.

Record datetime : Type := mk_datetime {
  micros : Z;                  (* microseconds since 0001-01-01T00:00:00 *)
  tzinfo : option timezone     (* None: naive *)
}.

(** A [timedelta], in microseconds. *)
Definition timedelta : Type := Z.

Definition US_PER_SECOND : Z := 1000000.
Definition US_PER_DAY : Z := 86400 * US_PER_SECOND.
Definition MAXORDINAL : Z := 3652059.   (* date.max.toordinal() *)

Definition timedelta_hours (h : Z) : timedelta := h * 3600 * US_PER_SECOND.
Definition timedelta_seconds (s : Z) : timedelta := s * US_PER_SECOND.

Definition is_leap (y : Z) : bool :=
  (y mod 4 =? 0) && (negb (y mod 100 =? 0) || (y mod 400 =? 0)).

Definition days_before_year (y : Z) : Z :=
  let p := y - 1 in p * 365 + p / 4 - p / 100 + p / 400.

Definition days_in_month (y m : Z) : Z :=
  if m =? 2 then (if is_leap y then 29 else 28)
  else if (m =? 4) || (m =? 6) || (m =? 9) || (m =? 11) then 30
  else 31.

(** [_DAYS_BEFORE_MONTH[m]], for a non-leap year. *)
Definition DAYS_BEFORE_MONTH (m : Z) : Z :=
  match m with
  | 1 => 0 | 2 => 31 | 3 => 59 | 4 => 90 | 5 => 120 | 6 => 151
  | 7 => 181 | 8 => 212 | 9 => 243 | 10 => 273 | 11 => 304 | 12 => 334
  | _ => 0
  end.

Definition days_before_month (y m : Z) : Z :=
  DAYS_BEFORE_MONTH m + (if (2 <? m) && is_leap y then 1 else 0).

Definition ymd2ord (y m d : Z) : Z :=
  days_before_year y + days_before_month y m + d.

(** CPython's [_ord2ymd]: ordinal (1 = 0001-01-01) to (year, month, day). *)
Definition ord2ymd (ordinal : Z) : Z * Z * Z :=
  let n := ordinal - 1 in
  let n400 := n / 146097 in let n := n mod 146097 in
  let n100 := n / 36524 in let n := n mod 36524 in
  let n4 := n / 1461 in let n := n mod 1461 in
  let n1 := n / 365 in let n := n mod 365 in
  let year := n400 * 400 + 1 + n100 * 100 + n4 * 4 + n1 in
  if (n1 =? 4) || (n100 =? 4) then (year - 1, 12, 31)
  else
    let leapyear := (n1 =? 3) && (negb (n4 =? 24) || (n100 =? 3)) in
    let month := Z.shiftr (n + 50) 5 in
    let preceding :=
      DAYS_BEFORE_MONTH month + (if (2 <? month) && leapyear then 1 else 0) in
    if n <? preceding then
      let month := month - 1 in
      let preceding :=
        preceding - (days_in_month 1 month
                     + (if (month =? 2) && leapyear then 1 else 0)) in
      (year, month, n - preceding + 1)
    else (year, month, n - preceding + 1).

(** The six leading fields of a [time.struct_time], [ts[:6]]. *)
Definition civil : Type := (Z * Z * Z * Z * Z * Z)%type.

Definition valid_civil (c : civil) : bool :=
  let '(y, m, d, hh, mm, ss) := c in
  (1 <=? y) && (y <=? 9999) && (1 <=? m) && (m <=? 12) &&
  (1 <=? d) && (d <=? days_in_month y m) &&
  (0 <=? hh) && (hh <=? 23) && (0 <=? mm) && (mm <=? 59) &&
  (0 <=? ss) && (ss <=? 59).

Definition civil_micros (c : civil) : Z :=
  let '(y, m, d, hh, mm, ss) := c in
  (ymd2ord y m d - 1) * US_PER_DAY + (hh * 3600 + mm * 60 + ss) * US_PER_SECOND.

(** [datetime(y, m, d, hh, mm, ss, tzinfo=tz)] *)
Definition datetime_new (c : civil) (tz : option timezone) : result datetime :=
  if valid_civil c then ok (mk_datetime (civil_micros c) tz)
  else raise ValueError.

Definition in_range (us : Z) : bool :=
  (0 <=? us) && (us <? MAXORDINAL * US_PER_DAY).

(** [d - delta] *)
Definition sub (d : datetime) (delta : timedelta) : result datetime :=
  let us := micros d - delta in
  if in_range us then ok (mk_datetime us (tzinfo d)) else raise OverflowError.

(** [a - b] for two datetimes of the same awareness, as a timedelta. *)
Definition diff (a b : datetime) : result timedelta :=
  match tzinfo a, tzinfo b with
  | Some utc, Some utc | None, None => ok (micros a - micros b)
  | _, _ => raise TypeError
  end.

(** [a < b] *)
Definition lt (a b : datetime) : result bool :=
  match tzinfo a, tzinfo b with
  | Some utc, Some utc | None, None => ok (micros a <? micros b)
  | _, _ => raise TypeError
  end.

Definition date_part (d : datetime) : Z * Z * Z :=
  ord2ymd (micros d / US_PER_DAY + 1).

Definition second_of_day (d : datetime) : Z :=
  (micros d mod US_PER_DAY) / US_PER_SECOND.

Definition microsecond (d : datetime) : Z := micros d mod US_PER_SECOND.

Definition fmt_date (d : datetime) : string :=
  let '(y, m, dd) := date_part d in
  Str.pad 4 y ++ "-" ++ Str.pad 2 m ++ "-" ++ Str.pad 2 dd.

Definition fmt_hm (d : datetime) : string :=
  let s := second_of_day d in
  Str.pad 2 (s / 3600) ++ ":" ++ Str.pad 2 (s mod 3600 / 60).

(** [d.isoformat(sep)]: microseconds only when non-zero, offset only when
    aware. *)
Definition isoformat (sep : string) (d : datetime) : string :=
  fmt_date d ++ sep ++ fmt_hm d ++ ":" ++ Str.pad 2 (second_of_day d mod 60)
  ++ (if microsecond d =? 0 then "" else "." ++ Str.pad 6 (microsecond d))
  ++ (match tzinfo d with Some utc => "+00:00" | None => "" end).

(** [d.strftime("%Y-%m-%d %H:%M")], for years of four digits; how [%Y]
    writes an earlier year is left to the C library. *)
Definition strftime_ymd_hm (d : datetime) : string :=
  fmt_date d ++ " " ++ fmt_hm d.

End Datetime.
Import Datetime.

(* ------------------------------------------------------------------ *)
(** ** Feed items and the articles table *)

(** [time.struct_time], as feedparser hands it out in [published_parsed]. *)
Record struct_time : Type := mk_struct_time {
  tm_year : Z; tm_mon : Z; tm_mday : Z;
  tm_hour : Z; tm_min : Z; tm_sec : Z;
  tm_wday : Z; tm_yday : Z; tm_isdst : Z
}.

(** [ts[:6]] *)
Definition first_six (ts : struct_time) : civil :=
  (tm_year ts, tm_mon ts, tm_mday ts, tm_hour ts, tm_min ts, tm_sec ts).

(** A feedparser entry that has the key [link].  Every other key may be
    missing, which [entry.get] reports as [None]. *)
Record Entry : Type := mk_entry {
  link : string;
  title : option string;
  summary : option string;
  published_parsed : option struct_time;
  updated_parsed : option struct_time
}.

(** What [parsed.entries] holds: entries with the key [link], and entries
    without it, on which [entry.link] raises AttributeError. *)
Inductive RawEntry : Type :=
| with_link (e : Entry)
| without_link (title summary : option string)
               (published_parsed updated_parsed : option struct_time).

Coercion with_link : Entry >-> RawEntry.

(** [entry.get(key, default)] *)
Definition get_default (field : option string) (default : string) : string :=
  match field with Some s => s | None => default end.

(** What [feedparser.parse] returns.  A fetch error that feedparser catches
    is reported in [bozo], with no entries. *)
Record FeedParserDict : Type := mk_feed {
  bozo : bool;
  entries : list RawEntry
}.

(** One row of [articles]; [None] is SQL NULL. *)
Record row : Type := mk_row {
  r_id : string;
  r_title : option string;
  r_link : string;
  r_published : string;
  r_summary : option string;
  r_feed : string
}.

(** The connection: its view of the table [articles] in rowid order ([None]
    until the table exists), and the I/O weather: every statement, fetch or
    commit consumes one flag, [true] meaning that it fails. *)
Record connection : Type := mk_connection {
  articles : option (list row);
  io_faults : list bool
}.

(** The result set of [SELECT 1 FROM articles WHERE id = ?]. *)
Definition cursor : Type := list Z.

Inductive event : Type :=
| Requested (url : string)      (* feedparser.parse was called on url *)
| CycleFinished (new_articles : nat)
| Slept (us : Z).

(** The world the scraper runs in.  [clock] lists what successive calls of
    [datetime.now] read; [ticks] counts the calls made so far. *)
Record world : Type := mk_world {
  conn : connection;
  clock : nat -> Z;
  ticks : nat;
  journal : list event
}.

Definition with_conn (w : world) (c : connection) : world :=
  mk_world c (clock w) (ticks w) (journal w).

Definition logged (w : world) (e : event) : world :=
  mk_world (conn w) (clock w) (ticks w) (journal w ++ [e])%list.

(** What [feedparser.parse] does with each url in one cycle: it returns a
    result, or an exception leaves it. *)
Definition web : Type := string -> result FeedParserDict.

(* ------------------------------------------------------------------ *)
(** ** The store *)

Module Db.

(** One round trip to SQLite: consumes a weather flag. *)
Definition io (c : connection) : result connection :=
  match io_faults c with
  | true :: _ => raise OperationalError
  | false :: rest => ok (mk_connection (articles c) rest)
  | [] => ok c
  end.

(** The weather after a round trip, failed or not. *)
Definition after_io (c : connection) : connection :=
  mk_connection (articles c) (tl (io_faults c)).

Definition has_id (aid : string) (rows : list row) : bool :=
  existsb (fun r => String.eqb (r_id r) aid) rows.

(** [CREATE TABLE IF NOT EXISTS articles (...)] *)
Definition create_table (c : connection) : connection :=
  match articles c with
  | None => mk_connection (Some []) (io_faults c)
  | Some _ => c
  end.

(** [SELECT 1 FROM articles WHERE id = ?] *)
Definition select_id (aid : string) (c : connection) : result cursor :=
  match articles c with
  | None => raise OperationalError
  | Some rows =>
      ok (map (fun _ => 1) (filter (fun r => String.eqb (r_id r) aid) rows))
  end.

(** [INSERT INTO articles (...) VALUES (...)]: id is the primary key,
    title is NOT NULL. *)
Definition insert (r : row) (c : connection) : result connection :=
  match articles c with
  | None => raise OperationalError
  | Some rows =>
      if has_id (r_id r) rows then raise IntegrityError
      else match r_title r with
           | None => raise IntegrityError
           | Some _ => ok (mk_connection (Some (rows ++ [r])%list) (io_faults c))
           end
  end.

(** [cur.fetchone()] *)
Definition fetchone (cur : cursor) : option Z := hd_error cur.

(** Rows of the table whose id is [aid]. *)
Definition rows_with_id (aid : string) (c : connection) : list row :=
  match articles c with
  | None => []
  | Some rows => filter (fun r => String.eqb (r_id r) aid) rows
  end.

End Db.

(* ------------------------------------------------------------------ *)
(** ** Coroutines: trees of external calls *)

Inductive call : Type :=
| Now                         (* datetime.now(tz=timezone.utc) *)
| Parse (url : string)        (* feedparser.parse(url) *)
| ExecCreate                  (* await db.execute("CREATE TABLE IF NOT EXISTS ...") *)
| ExecSelectId (aid : string) (* await db.execute("SELECT 1 ... WHERE id = ?") *)
| Fetchone (cur : cursor)     (* await cur.fetchone() *)
| ExecInsert (r : row)        (* await db.execute("INSERT INTO articles ...") *)
| Commit.                     (* await db.commit() *)

Definition reply (c : call) : Type :=
  match c with
  | Now => datetime
  | Parse _ => FeedParserDict
  | ExecCreate => unit
  | ExecSelectId _ => cursor
  | Fetchone _ => option Z
  | ExecInsert _ => unit
  | Commit => unit
  end.

(** The awaits on aiosqlite are where a task yields to the event loop. *)
Definition suspends (c : call) : bool :=
  match c with
  | Now | Parse _ => false
  | _ => true
  end.

Inductive coro (A : Type) : Type :=
| Ret (a : A)
| Throw (e : exn)
| Vis (c : call) (k : reply c -> coro A).
Arguments Ret {A} a.
Arguments Throw {A} e.
Arguments Vis {A} c k.

Fixpoint bind {A B} (m : coro A) (f : A -> coro B) : coro B :=
  match m with
  | Ret a => f a
  | Throw e => Throw e
  | Vis c k => Vis c (fun x => bind (k x) f)
  end.

Definition await (c : call) : coro (reply c) := Vis c Ret.

(** A pure computation that may raise. *)
Definition lift {A} (r : result A) : coro A :=
  match r with inl e => Throw e | inr a => Ret a end.

Declare Scope coro_scope.
Delimit Scope coro_scope with coro.
Notation "x <- m ;; k" := (bind m (fun x => k))
  (at level 61, m at next level, right associativity) : coro_scope.
Notation "m ;; k" := (bind m (fun _ => k))
  (at level 61, right associativity) : coro_scope.
Local Open Scope coro_scope.

(** [[await f(x) for x in xs]] *)
Fixpoint each {A B} (f : A -> coro B) (xs : list A) : coro (list B) :=
  match xs with
  | [] => Ret []
  | x :: xs' => y <- f x ;; ys <- each f xs' ;; Ret (y :: ys)
  end.

(** ** The interpreter *)

Definition perform (net : web) (c : call) (w : world) : result (reply c) * world :=
  match c return result (reply c) * world with
  | Now =>
      (ok (mk_datetime (clock w (ticks w)) (Some utc)),
       mk_world (conn w) (clock w) (S (ticks w)) (journal w))
  | Parse url => (net url, logged w (Requested url))
  | ExecCreate =>
      match Db.io (conn w) with
      | inl e => (raise e, with_conn w (Db.after_io (conn w)))
      | inr c' => (ok tt, with_conn w (Db.create_table c'))
      end
  | ExecSelectId aid =>
      match Db.io (conn w) with
      | inl e => (raise e, with_conn w (Db.after_io (conn w)))
      | inr c' => (Db.select_id aid c', with_conn w c')
      end
  | Fetchone cur =>
      match Db.io (conn w) with
      | inl e => (raise e, with_conn w (Db.after_io (conn w)))
      | inr c' => (ok (Db.fetchone cur), with_conn w c')
      end
  | ExecInsert r =>
      match Db.io (conn w) with
      | inl e => (raise e, with_conn w (Db.after_io (conn w)))
      | inr c' =>
          match Db.insert r c' with
          | inl e => (raise e, with_conn w c')
          | inr c'' => (ok tt, with_conn w c'')
          end
      end
  | Commit =>
      match Db.io (conn w) with
      | inl e => (raise e, with_conn w (Db.after_io (conn w)))
      | inr c' => (ok tt, with_conn w c')
      end
  end.

(** Running one coroutine alone, to its end. *)
Fixpoint run {A} (net : web) (t : coro A) (w : world) : result A * world :=
  match t with
  | Ret a => (ok a, w)
  | Throw e => (raise e, w)
  | Vis c k =>
      match perform net c w with
      | (inl e, w') => (raise e, w')
      | (inr x, w') => run net (k x) w'
      end
  end.

(** ** The event loop: tasks that interleave at their awaits *)

Inductive progress (A : Type) : Type :=
| Finished (a : A)
| Suspended (t : coro A)
| Crashed (e : exn).
Arguments Finished {A} a.
Arguments Suspended {A} t.
Arguments Crashed {A} e.

(** One turn of a task: it runs up to and including its next await. *)
Fixpoint resume {A} (net : web) (t : coro A) (w : world) : progress A * world :=
  match t with
  | Ret a => (Finished a, w)
  | Throw e => (Crashed e, w)
  | Vis c k =>
      match perform net c w with
      | (inl e, w') => (Crashed e, w')
      | (inr x, w') =>
          if suspends c then (Suspended (k x), w') else resume net (k x) w'
      end
  end.

(** [tasks[i] = t] *)
Fixpoint set_nth {A} (i : nat) (t : A) (tasks : list A) : list A :=
  match tasks, i with
  | [], _ => []
  | _ :: rest, O => t :: rest
  | x :: rest, S i' => x :: set_nth i' t rest
  end.

(** The tasks left when the schedule is used up run one after the other. *)
Fixpoint drain {A} (net : web) (tasks : list (coro A)) (w : world)
  : result (list A) * world :=
  match tasks with
  | [] => (ok [], w)
  | t :: rest =>
      match run net t w with
      | (inl e, w') => (raise e, w')
      | (inr a, w') =>
          match drain net rest w' with
          | (inl e, w'') => (raise e, w'')
          | (inr others, w'') => (ok (a :: others), w'')
          end
      end
  end.

(** [await asyncio.gather] over the tasks.  [sched] names, turn by turn, the task
    the event loop resumes (a turn for a task that is finished, or that does
    not exist, is skipped); the results come back in the order of the tasks.
    The first exception of any task is what gather raises.  The world it
    leaves is the one of that moment: the steps that the other tasks may
    still take before they are cancelled, when [poll_loop] is left, are not
    followed. *)
Fixpoint gather {A} (net : web) (sched : list nat) (tasks : list (coro A))
  (w : world) : result (list A) * world :=
  match sched with
  | [] => drain net tasks w
  | i :: sched' =>
      match nth_error tasks i with
      | None => gather net sched' tasks w
      | Some t =>
          match resume net t w with
          | (Crashed e, w') => (raise e, w')
          | (Finished a, w') => gather net sched' (set_nth i (Ret a) tasks) w'
          | (Suspended t', w') => gather net sched' (set_nth i t' tasks) w'
          end
      end
  end.

(** Top-level code of the main task: a fallible state transformer. *)
Definition prog (A : Type) : Type := world -> result A * world.

Definition pbind {A B} (m : prog A) (f : A -> prog B) : prog B :=
  fun w => match m w with
           | (inl e, w') => (raise e, w')
           | (inr a, w') => f a w'
           end.

Definition pret {A} (a : A) : prog A := fun w => (ok a, w).

Definition plift {A} (r : result A) : prog A := fun w => (r, w).

Declare Scope prog_scope.
Delimit Scope prog_scope with prog.
Notation "x <~ m ;; k" := (pbind m (fun x => k))
  (at level 61, m at next level, right associativity) : prog_scope.

(** [logger.info("Cycle finished | new_articles=%d", n)] *)
Definition log_info (n : nat) : prog unit :=
  fun w => (ok tt, logged w (CycleFinished n)).

(** [await asyncio.sleep(us / 1e6)] *)
Definition sleep (us : Z) : prog unit :=
  fun w => (ok tt, logged w (Slept us)).

(* ------------------------------------------------------------------ *)
(** ** cnn_news_scraper_v2.py *)

Definition POLL_INTERVAL : Z := 60.
Definition MAX_AGE_HOURS : Z := 24.

Definition FEEDS : list string :=
  [ "http://rss.cnn.com/rss/cnn_topstories.rss";
    "http://rss.cnn.com/rss/cnn_world.rss";
    "http://rss.cnn.com/rss/cnn_us.rss";
    "http://rss.cnn.com/rss/cnn_allpolitics.rss";
    "http://rss.cnn.com/rss/cnn_tech.rss";
    "http://rss.cnn.com/rss/cnn_health.rss";
    "http://rss.cnn.com/rss/cnn_showbiz.rss" ].

(** [sum(flags)] for a list of booleans. *)
Definition sum_bools (flags : list bool) : nat :=
  List.length (filter (fun b => b) flags).

Definition sum_nats (ns : list nat) : nat := fold_right Nat.add O ns.

Section Scraper.

(** [hashlib.sha256(data).hexdigest()] *)
Variable sha256_hexdigest : string -> string.

Definition article_id (link : string) : string := sha256_hexdigest link.

Definition parse_datetime (entry : Entry) : coro datetime :=
  match published_parsed entry with
  | Some ts => lift (datetime_new (first_six ts) (Some utc))
  | None =>
      match updated_parsed entry with
      | Some ts => lift (datetime_new (first_six ts) (Some utc))
      | None => await Now
      end
  end.

Definition init_db : coro unit :=
  await ExecCreate ;; await Commit.

Definition store_entry (feed_url : string) (entry : RawEntry) : coro bool :=
  match entry with
  | without_link _ _ _ _ => Throw AttributeError   (* entry.link *)
  | with_link entry =>
      let aid := article_id (link entry) in
      cur <- await (ExecSelectId aid) ;;
      found <- await (Fetchone cur) ;;
      match found with
      | Some _ => Ret false                      (* duplicate *)
      | None =>
          published_dt <- parse_datetime entry ;;
          now <- await Now ;;
          cutoff <- lift (sub now (timedelta_hours MAX_AGE_HOURS)) ;;
          too_old <- lift (lt published_dt cutoff) ;;
          if too_old then Ret false
          else
            await (ExecInsert
                     (mk_row aid
                             (Some (get_default (title entry) ""))
                             (link entry)
                             (isoformat "T" published_dt)
                             (Some (get_default (summary entry) ""))
                             feed_url)) ;;
            await Commit ;;
            Ret true
      end
  end.

Definition fetch_feed (feed_url : string) : coro nat :=
  parsed <- await (Parse feed_url) ;;
  added <- each (store_entry feed_url) (entries parsed) ;;
  Ret (sum_bools added).

Local Open Scope prog_scope.

(** One turn of the [while True] body. *)
Definition cycle (net : web) (sched : list nat) : prog unit :=
  start <~ run net (await Now) ;;
  added <~ gather net sched (map fetch_feed FEEDS) ;;
  _ <~ log_info (sum_nats added) ;;
  stop <~ run net (await Now) ;;
  elapsed <~ plift (diff stop start) ;;
  sleep (Z.max 0 (POLL_INTERVAL * US_PER_SECOND - elapsed)).

(** [cycles] turns of the loop, the first one being turn number [k]. *)
Fixpoint poll_cycles (cycles k : nat) (nets : nat -> web)
  (scheds : nat -> list nat) : prog unit :=
  match cycles with
  | O => pret tt
  | S n => _ <~ cycle (nets k) (scheds k) ;; poll_cycles n (S k) nets scheds
  end.

(** [poll_loop], cut after [cycles] turns of its endless loop. *)
Definition poll_loop (cycles : nat) (nets : nat -> web)
  (scheds : nat -> list nat) : prog unit :=
  _ <~ run (nets O) init_db ;; poll_cycles cycles O nets scheds.

End Scraper.

(* ------------------------------------------------------------------ *)
(** ** news_impact_analyzer_v3.py *)

Definition LOOKBACK_HOURS : Z := 24.
Definition MAX_ARTICLES_PER_TICKER : nat := 8.

(** The dict [TICKERS], in insertion order. *)
Definition TICKERS : list (string * list string) :=
  [ ("IBM", ["IBM"; "International Business Machines"]);
    ("MSFT", ["Microsoft"; "MS Corp"; "MSFT"]);
    ("GOOGL", ["Google"; "Alphabet"; "GOOG"]);
    ("NVDA", ["NVIDIA"; "Nvidia"]);
    ("IONQ", ["IonQ"]);
    ("RGTI", ["Rigetti"; "Rigetti Computing"]);
    ("QBTS", ["D‑Wave"; "DWave"; "D‑Wave Quantum"]);
    ("BAESY", ["BAE"; "BAE Systems"]);
    ("RHM.DE", ["Rheinmetall"]);
    ("LDO.MI", ["Leonardo"]);
    ("HO.PA", ["Thales"]);
    ("SAAB-B.ST", ["Saab"]);
    ("AM.PA", ["Dassault"; "Dassault Aviation"]);
    ("AIR.PA", ["Airbus"]);
    ("AMD", ["AMD"; "Advanced Micro Devices"]);
    ("META", ["Meta"; "Facebook"]);
    ("AMZN", ["Amazon"; "Amazon.com"]);
    ("PLTR", ["Palantir"]);
    ("AVGO", ["Broadcom"]);
    ("SNOW", ["Snowflake"]);
    ("SMCI", ["Super Micro"; "Supermicro"]);
    ("INTC", ["Intel"]);
    ("BABA", ["Alibaba"]);
    ("BIDU", ["Baidu"]);
    ("TCEHY", ["Tencent"]);
    ("IFLYTEK", ["iFlytek"; "IFLYTEK"]);
    ("0020.HK", ["SenseTime"; "Sense Time"]);
    ("ASML", ["ASML"]);
    ("SAP", ["SAP"]);
    ("ARM", ["Arm"; "Arm Holdings"]);
    ("STM", ["STMicro"; "STMicroelectronics"]);
    ("DARK", ["Darktrace"]);
    ("AAPL", ["Apple"]);
    ("TSLA", ["Tesla"]) ].

(** The dicts that [fetch_recent_articles] builds. *)
Record article : Type := mk_article {
  a_id : string;
  a_title : string;
  a_summary : string;
  a_published : datetime
}.

(** [value or ""] on a TEXT column read back from SQLite. *)
Definition or_empty (value : option string) : string :=
  match value with
  | Some s => s
  | None => ""
  end.

Definition nl : string := String (ascii_of_nat 10) "".

Section Bucketing.

(** [str.lower]; on ASCII text it is [Str.lower]. *)
Variable str_lower : string -> string.

(** [f"{art['title']} {art['summary']}".lower()] *)
Definition match_text (art : article) : string :=
  str_lower (a_title art ++ " " ++ a_summary art).

(** [any(alias.lower() in text for alias in aliases)] *)
Definition mentions (aliases : list string) (text : string) : bool :=
  existsb (fun alias => Str.contains (str_lower alias) text) aliases.

(** [buckets[ticker].append(art)] *)
Definition append_to (ticker : string) (art : article)
  (buckets : list (string * list article)) : list (string * list article) :=
  map (fun b => if String.eqb (fst b) ticker
                then (fst b, (snd b ++ [art])%list) else b) buckets.

(** [buckets[ticker]] *)
Fixpoint bucket (ticker : string) (buckets : list (string * list article))
  : option (list article) :=
  match buckets with
  | [] => None
  | (t, lst) :: rest => if String.eqb t ticker then Some lst else bucket ticker rest
  end.

(** The inner loop of main: [for ticker, aliases in TICKERS.items()]. *)
Definition place (tickers : list (string * list string)) (art : article)
  (buckets : list (string * list article)) : list (string * list article) :=
  fold_left (fun acc ta =>
               if mentions (snd ta) (match_text art)
               then append_to (fst ta) art acc else acc)
            tickers buckets.

(** The bucketing loop of main, over the topic table [tickers]. *)
Definition buckets_of (tickers : list (string * list string))
  (arts : list article) : list (string * list article) :=
  fold_left (fun acc art => place tickers art acc) arts
            (map (fun ta => (fst ta, @nil article)) tickers).

End Bucketing.

(** One line of the news block. *)
Definition news_line (art : article) : string :=
  "[" ++ strftime_ymd_hm (a_published art) ++ "] "
  ++ a_title art ++ " — " ++ a_summary art.

(** [build_user_msg], with the cap [MAX_ARTICLES_PER_TICKER] as a parameter. *)
Definition build_user_msg_capped (cap : nat) (ticker : string)
  (arts : list article) : string :=
  match arts with
  | [] => "Ticker: " ++ ticker ++ nl ++ nl ++ "News:" ++ nl ++ "(no relevant articles)"
  | _ =>
      "Ticker: " ++ ticker ++ nl ++ nl ++ "News:" ++ nl
      ++ Str.join nl (map news_line (firstn cap arts))
  end.

Definition build_user_msg (ticker : string) (arts : list article) : string :=
  build_user_msg_capped MAX_ARTICLES_PER_TICKER ticker arts.

Section Analyzer.

(** [str.lower] *)
Variable str_lower : string -> string.

(** [dateutil.parser.parse] *)
Variable dt_parse : string -> result datetime.

(** The list comprehension over [cur.fetchall()]: the first row whose
    timestamp does not parse raises. *)
Fixpoint to_articles (rows : list row) : result (list article) :=
  match rows with
  | [] => ok []
  | r :: rest =>
      match dt_parse (r_published r) with
      | inl e => raise e
      | inr published =>
          match to_articles rest with
          | inl e => raise e
          | inr arts =>
              ok (mk_article (r_id r) (or_empty (r_title r))
                             (or_empty (r_summary r)) published :: arts)
          end
      end
  end.

(** The rows that [WHERE published >= ?] keeps, in rowid order.  The column
    holds text, as every row that [store_entry] writes does, and SQLite
    compares text with text bytewise.  A value that reads as a number is
    not covered: the column's affinity would store it as a number, which
    SQLite orders before every text. *)
Definition rows_since (rows : list row) (since : datetime) : list row :=
  filter (fun r => Str.text_ge (r_published r) (isoformat " " since)) rows.

Definition fetch_recent_articles (c : connection) (since : datetime)
  : result (list article) :=
  match Db.io c with
  | inl e => raise e
  | inr c' =>
      match articles c' with
      | None => raise OperationalError
      | Some rows => to_articles (rows_since rows since)
      end
  end.

(** [main] up to the user message handed to the model. *)
Definition main (c : connection) (now : datetime) : result string :=
  match sub now (timedelta_hours LOOKBACK_HOURS) with
  | inl e => raise e
  | inr since =>
      match fetch_recent_articles c since with
      | inl e => raise e
      | inr arts =>
          let buckets := buckets_of str_lower TICKERS arts in
          let user_blocks :=
            map (fun b => build_user_msg (fst b) (snd b)) buckets in
          ok (Str.join (nl ++ nl ++ "###" ++ nl ++ nl) user_blocks)
      end
  end.

End Analyzer.

(* ------------------------------------------------------------------ *)
(** ** Vocabulary for the properties *)

(** The world after one more reading of the clock. *)
Definition tick (w : world) : world :=
  mk_world (conn w) (clock w) (S (ticks w)) (journal w).

(** What the next [datetime.now(tz=timezone.utc)] returns. *)
Definition now_of (w : world) : datetime :=
  mk_datetime (clock w (ticks w)) (Some utc).

(** No storage failure is under way. *)
Definition calm (w : world) : Prop := io_faults (conn w) = [].

(** The table exists and holds [rows]. *)
Definition holds (w : world) (rows : list row) : Prop :=
  articles (conn w) = Some rows.

(** The world with one more row at the end of the table. *)
Definition append_row (w : world) (r : row) : world :=
  with_conn w (mk_connection
                 (option_map (fun rows => (rows ++ [r])%list) (articles (conn w)))
                 (io_faults (conn w))).

(** The row that [store_entry] writes for an entry resolved to [published_dt]. *)
Definition stored_row (h : string -> string) (feed_url : string) (e : Entry)
  (published_dt : datetime) : row :=
  mk_row (article_id h (link e))
         (Some (get_default (title e) ""))
         (link e)
         (isoformat "T" published_dt)
         (Some (get_default (summary e) ""))
         feed_url.

(** The age limit, taken off the clock reading [now]. *)
Definition cutoff_of (now : datetime) : Z :=
  micros now - timedelta_hours MAX_AGE_HOURS.

(** Ingesting [e] and then [e'] from world [w]: the first call returns True,
    the second False, and one row carries the fingerprint of [e]. *)
Definition ingested_once (h : string -> string) (net : web)
  (feed : string) (e : Entry) (feed' : string) (e' : Entry) (w : world) : Prop :=
  let (r1, w1) := run net (store_entry h feed e) w in
  let (r2, w2) := run net (store_entry h feed' e') w1 in
  r1 = ok true /\ r2 = ok false
  /\ List.length (Db.rows_with_id (article_id h (link e)) (conn w2)) = 1%nat.

(** A capital letter, A to Z. *)
Definition capital (c : ascii) : bool :=
  ((65 <=? nat_of_ascii c) && (nat_of_ascii c <=? 90))%nat.

(** The same character up to the case of a letter: the two are equal, or
    one is a capital letter and the other its small letter, 32 places on. *)
Definition same_letter (c d : ascii) : Prop :=
  c = d
  \/ (capital c = true /\ nat_of_ascii d = (nat_of_ascii c + 32)%nat)
  \/ (capital d = true /\ nat_of_ascii c = (nat_of_ascii d + 32)%nat).

(** The same text up to the case of its letters. *)
Fixpoint same_up_to_case (s t : string) : Prop :=
  match s, t with
  | EmptyString, EmptyString => True
  | String c s', String d t' => same_letter c d /\ same_up_to_case s' t'
  | _, _ => False
  end.


(** [alias] occurs in [text] as a substring, up to the case of letters. *)
Definition occurs_ci (alias text : string) : Prop :=
  exists pre mid post,
    text = pre ++ mid ++ post /\ same_up_to_case mid alias.

(** What is known of [str.lower]: on ASCII text it turns the capital
    letters into small ones and leaves the rest. *)
Definition lowers_ascii (str_lower : string -> string) : Prop :=
  forall s, Str.is_ascii s = true -> str_lower s = Str.lower s.


(** Between [w] and [w'] no storage call failed: every flag of the I/O
    weather that was used up is [false]. *)
Definition fair_weather (w w' : world) : Prop :=
  exists k, io_faults (conn w) = (repeat false k ++ io_faults (conn w'))%list.

(** How often [url] was requested, by the journal. *)
Fixpoint requests (url : string) (j : list event) : nat :=
  match j with
  | [] => O
  | Requested u :: rest =>
      ((if String.eqb u url then 1 else 0) + requests url rest)%nat
  | _ :: rest => requests url rest
  end.

(** A coroutine that never calls feedparser. *)
Fixpoint offline {A} (t : coro A) : Prop :=
  match t with
  | Ret _ | Throw _ => True
  | Vis c k =>
      match c with Parse _ => False | _ => True end /\ forall x, offline (k x)
  end.

(** Two worlds that differ at most in their journals. *)
Definition same_store (w1 w2 : world) : Prop :=
  conn w1 = conn w2 /\ clock w1 = clock w2 /\ ticks w1 = ticks w2.

(** The schedule [sched] with task [i] taken out of the task list. *)
Fixpoint skip_turns (i : nat) (sched : list nat) : list nat :=
  match sched with
  | [] => []
  | j :: rest =>
      if (j <? i)%nat then j :: skip_turns i rest
      else if (j =? i)%nat then skip_turns i rest
      else (j - 1)%nat :: skip_turns i rest
  end.

(** The results of a gather with the result [a] put in at position [i]. *)
Definition with_result_at {A} (i : nat) (a : A) (r : result (list A))
  : result (list A) :=
  match r with
  | inl e => inl e
  | inr rs => inr (firstn i rs ++ a :: skipn i rs)%list
  end.

(** A fetch that failed the way feedparser reports it: the bozo bit set and
    no entries. *)
Definition soft_failure (net : web) (url : string) : Prop :=
  net url = ok (mk_feed true []).

(** The timestamp that [parse_datetime] reads, the published one or else the
    updated one, is a calendar time that [datetime] accepts; an entry with
    neither is dated by the clock. *)
Definition datable (e : Entry) : Prop :=
  match published_parsed e, updated_parsed e with
  | Some ts, _ | None, Some ts => valid_civil (first_six ts) = true
  | None, None => True
  end.

(** A task that ends at its first turn with no new article, and leaves the
    store, the clock and the other tasks alone. *)
Definition idle (net : web) (t : coro nat) : Prop :=
  forall w, exists w',
    resume net t w = (Finished O, w')
    /\ run net t w = (ok O, w')
    /\ same_store w w'.

(** A task of a cycle is either not started, and then it is [fetch_feed] of
    its source, or it is past its call of feedparser. *)
Inductive task_state (h : string -> string) : option string -> coro nat -> Prop :=
| not_started (url : string) : task_state h (Some url) (fetch_feed h url)
| started (t : coro nat) : offline t -> task_state h None t.

(** How many of the tasks have still to request [url]. *)
Fixpoint pending (url : string) (states : list (option string)) : nat :=
  match states with
  | [] => O
  | Some u :: rest => ((if String.eqb u url then 1 else 0) + pending url rest)%nat
  | None :: rest => pending url rest
  end.

(** How many cycles the journal reports as finished. *)
Fixpoint cycles_finished (j : list event) : nat :=
  match j with
  | [] => O
  | CycleFinished _ :: rest => S (cycles_finished rest)
  | _ :: rest => cycles_finished rest
  end.

(** A task that raises, at its first turn already. *)
Definition doomed (net : web) (t : coro nat) : Prop :=
  forall w, exists e w',
    resume net t w = (Crashed e, w') /\ run net t w = (raise e, w').

(** The keys of a dict are pairwise different. *)
Fixpoint distinct (keys : list string) : bool :=
  match keys with
  | [] => true
  | k :: rest => negb (existsb (String.eqb k) rest) && distinct rest
  end.

(** The primary key: no two rows of the table have the same id. *)
Definition keyed (w : world) : Prop :=
  match articles (conn w) with
  | None => True
  | Some rows => NoDup (map r_id rows)
  end.

(** How many rows the table has; none while it does not exist. *)
Definition row_count (w : world) : nat :=
  match articles (conn w) with
  | None => O
  | Some rows => List.length rows
  end.

(** The INSERTs on every path of [t] are counted in its result: a result
    [a] has [count a] equal to [k] plus the number of INSERTs made on the way
    to it. *)
Fixpoint tallies {A} (count : A -> nat) (k : nat) (t : coro A) : Prop :=
  match t with
  | Ret a => count a = k
  | Throw _ => True
  | Vis c kont =>
      forall x, tallies count (match c with ExecInsert _ => S k | _ => k end)
                        (kont x)
  end.

(** The sum of the [new_articles] counts that the journal reports. *)
Fixpoint articles_logged (j : list event) : nat :=
  match j with
  | [] => O
  | CycleFinished n :: rest => (n + articles_logged rest)%nat
  | _ :: rest => articles_logged rest
  end.

(** A bool counted by [sum]: True is 1, False is 0. *)
Definition as_int (b : bool) : nat := if b then 1 else 0.

(** The rows of the table; none while it does not exist. *)
Definition table_rows (w : world) : list row :=
  match articles (conn w) with
  | None => []
  | Some rows => rows
  end.
(** The block of a topic with an empty bucket. *)
Definition no_news (ticker : string) : string :=
  "Ticker: " ++ ticker ++ nl ++ nl ++ "News:" ++ nl ++ "(no relevant articles)".

(** The separator between the blocks of the user message. *)
Definition block_sep : string := nl ++ nl ++ "###" ++ nl ++ nl.

(** The articles that mention one of [aliases], in the order of [arts]. *)
Definition matching (str_lower : string -> string) (aliases : list string)
  (arts : list article) : list article :=
  filter (fun art => mentions str_lower aliases (match_text str_lower art))
         arts.
(** What the library calls answer: the clock reads aware datetimes. *)
Definition answers (c : call) : reply c -> Prop :=
  match c with
  | Now => fun now => tzinfo now = Some utc
  | _ => fun _ => True
  end.

(** Every INSERT that [t] can come to, given such answers, is of a row with
    the property [P]. *)
Fixpoint inserts {A} (P : row -> Prop) (t : coro A) : Prop :=
  match t with
  | Ret _ | Throw _ => True
  | Vis c k =>
      match c with ExecInsert r => P r | _ => True end
      /\ forall x, answers c x -> inserts P (k x)
  end.

(** A row as [store_entry] builds them: the id is the fingerprint of the
    link, title and summary are not NULL, the feed is one of FEEDS, and the
    timestamp is the ISO text, with a T, of an aware datetime. *)
Definition scraped (h : string -> string) (r : row) : Prop :=
  r_id r = article_id h (r_link r)
  /\ r_title r <> None
  /\ r_summary r <> None
  /\ In (r_feed r) FEEDS
  /\ exists d, tzinfo d = Some utc /\ r_published r = isoformat "T" d.

(** Every row of the table has the property [P]. *)
Definition every_row (P : row -> Prop) (w : world) : Prop :=
  match articles (conn w) with
  | None => True
  | Some rows => Forall P rows
  end.

(** A clock reading from which the age limit can be taken: aware, and not
    in the first MAX_AGE_HOURS of year 1. *)
Definition timely (now : datetime) : Prop :=
  tzinfo now = Some utc
  /\ in_range (micros now - timedelta_hours MAX_AGE_HOURS) = true.

(** A world in which no call of the scraper fails by itself: no storage
    failure under way, the table exists, every clock reading is timely. *)
Definition healthy (w : world) : Prop :=
  calm w
  /\ articles (conn w) <> None
  /\ forall n, in_range (clock w n - timedelta_hours MAX_AGE_HOURS) = true.

(** Whether the table has a row with the id [aid]. *)
Definition stored (aid : string) (w : world) : bool :=
  Db.has_id aid (table_rows w).

(** The ids of [kept] are in the table. *)
Definition present (kept : list string) (w : world) : Prop :=
  forall aid, In aid kept -> stored aid w = true.

(** None of the ids of [known] is in the table. *)
Definition absent (known : list string) (w : world) : Prop :=
  forall aid, In aid known -> stored aid w = false.

(** What a task needs for its next call to succeed in a healthy world,
    [known] being the ids it found absent and has not inserted since. *)
Definition demand (net : web) (c : call) (known : list string) : Prop :=
  match c with
  | Parse url => exists parsed, net url = ok parsed
  | ExecInsert r => In (r_id r) known /\ r_title r <> None
  | _ => True
  end.

(** What the answer to a call tells the task, in a healthy world whose table
    has the ids of [kept]. *)
Definition learns (net : web) (kept : list string) (c : call)
  : reply c -> Prop :=
  match c with
  | Now => fun now => timely now
  | Parse url => fun parsed => net url = ok parsed
  | ExecSelectId aid => fun cur => cur = [] -> ~ In aid kept
  | Fetchone cur => fun found => found = Db.fetchone cur
  | _ => fun _ => True
  end.

(** The ids that the task knows absent after the call. *)
Definition after (c : call) : reply c -> list string -> list string :=
  match c with
  | ExecSelectId aid =>
      fun cur known => match cur with [] => aid :: known | _ => known end
  | ExecInsert r =>
      fun _ known => filter (fun aid => negb (String.eqb aid (r_id r))) known
  | _ => fun _ known => known
  end.

(** The ids that a task looks up and finds absent are among its [own]. *)
Definition claims (own : string -> Prop) (c : call) : reply c -> Prop :=
  match c with
  | ExecSelectId aid => fun cur => cur = [] -> own aid
  | _ => fun _ => True
  end.

(** A task that cannot fail in healthy worlds where the ids it knows absent
    are absent: it raises nothing by itself, parses only feeds that can be
    fetched, and inserts only ids of its own that it has found absent. *)
Fixpoint sound {A} (net : web) (kept : list string) (own : string -> Prop)
  (known : list string) (t : coro A) : Prop :=
  match t with
  | Ret _ => True
  | Throw _ => False
  | Vis c k =>
      demand net c known
      /\ forall x, learns net kept c x ->
                   claims own c x
                   /\ sound net kept own (after c x known) (k x)
  end.

(** [url] carries an item with the fingerprint [aid]. *)
Definition carries (h : string -> string) (net : web) (url aid : string)
  : Prop :=
  exists parsed e,
    net url = ok parsed /\ In (with_link e) (entries parsed)
    /\ aid = article_id h (link e).

(** An entry that [store_entry] can take: it has a link, and the timestamp
    read from it is a calendar time. *)
Definition usable (entry : RawEntry) : Prop :=
  match entry with
  | with_link e => datable e
  | without_link _ _ _ _ => False
  end.

(** The feed can be fetched and every one of its entries is usable. *)
Definition readable (net : web) (url : string) : Prop :=
  exists parsed, net url = ok parsed /\ Forall usable (entries parsed).

(** The fingerprints that the task of [url] may insert: those its feed
    carries, the ones of [kept] apart. *)
Definition own_of (h : string -> string) (net : web) (kept : list string)
  (url : string) (aid : string) : Prop :=
  carries h net url aid /\ ~ In aid kept.

(** An item that two of the [urls] carry is in the table already. *)
Definition unshared (h : string -> string) (net : web) (urls : list string)
  (kept : list string) : Prop :=
  forall url1 url2 aid,
    In url1 urls -> In url2 urls -> url1 <> url2 ->
    carries h net url1 aid -> carries h net url2 aid -> In aid kept.

(** Outside [own] the table has the same ids in [w'] as in [w]. *)
Definition frame (own : string -> Prop) (w w' : world) : Prop :=
  forall aid, ~ own aid -> stored aid w' = stored aid w.

(** A task of the gather that is on course in [w]: it is sound for the ids
    of its feed [fst spec], and the ids [snd spec] that it knows absent are
    ids of that feed and absent in [w]. *)
Definition on_course (h : string -> string) (net : web) (kept : list string)
  (w : world) (spec : string * list string) (t : coro nat) : Prop :=
  sound net kept (own_of h net kept (fst spec)) (snd spec) t
  /\ Forall (own_of h net kept (fst spec)) (snd spec)
  /\ absent (snd spec) w.

(* ------------------------------------------------------------------ *)
(** ** Sample data *)

(** A stand-in for SHA-256 in the examples. *)
Definition sample_digest (s : string) : string := "sha:" ++ s.

(** A clock stopped at 2025-01-02T00:00:00Z. *)
Definition sample_now : Z := civil_micros (2025, 1, 2, 0, 0, 0).

Definition sample_world : world :=
  mk_world (mk_connection (Some []) []) (fun _ => sample_now) O [].

Definition quiet_net : web := fun _ => ok (mk_feed false []).

Definition at_time (y m d hh mm ss : Z) : struct_time :=
  mk_struct_time y m d hh mm ss 0 1 0.

(** Published exactly 24 hours before [sample_now]. *)
Definition boundary_item : Entry :=
  mk_entry "https://x/a" (Some "Acme reports earnings") None
           (Some (at_time 2025 1 1 0 0 0)) None.

(** Published one second earlier than that. *)
Definition stale_item : Entry :=
  mk_entry "https://x/old" (Some "Old news") (Some "long ago")
           (Some (at_time 2024 12 31 23 59 59)) None.

(** Only an updated timestamp. *)
Definition updated_item : Entry :=
  mk_entry "https://x/u" None (Some "revised") None
           (Some (at_time 2025 1 1 18 30 0)).

(** A published timestamp, and an updated one that is no calendar time
    (30 February). *)
Definition revised_item : Entry :=
  mk_entry "https://x/r" (Some "Revised") None
           (Some (at_time 2025 1 1 12 0 0))
           (Some (at_time 2025 2 30 0 0 0)).

(** No timestamp, no title, no summary. *)
Definition bare_item : Entry :=
  mk_entry "https://x/bare" None None None None.

Definition sample_instant : datetime := mk_datetime sample_now (Some utc).

(** The topic table of the example: one topic, one alias. *)
Definition ABC : list (string * list string) := [("ABC", ["Acme"])].

Definition acme_article : article :=
  mk_article "1" "Acme reports earnings" "" sample_instant.

(** The same title in capitals. *)
Definition shouted_article : article :=
  mk_article "8" "ACME REPORTS EARNINGS" "" sample_instant.

Definition unrelated_article : article :=
  mk_article "2" "No relation" "" sample_instant.

(** "Microsoft" is there only if title and summary are glued together. *)
Definition split_article : article :=
  mk_article "3" "Micro" "soft earnings" sample_instant.


Definition metallic_article : article :=
  mk_article "5" "Metallic paint sales rise" "" sample_instant.

Definition two_topic_article : article :=
  mk_article "6" "Google and Apple settle" "" sample_instant.

(** A parser for the examples: every stored timestamp reads as [sample_instant]. *)
Definition sample_parse : string -> result datetime := fun _ => ok sample_instant.

Definition acme_row (i : string) : row :=
  mk_row i (Some "ACME again") ("https://x/" ++ i)
         "2025-01-01T10:00:00+00:00" None "feed".

(** A store with five Acme rows around an unrelated one. *)
Definition acme_store : connection :=
  mk_connection
    (Some [ acme_row "1"; acme_row "2";
            mk_row "x" None "https://x/x" "2025-01-01T11:00:00+00:00"
                   (Some "No relation") "feed";
            acme_row "3"; acme_row "4"; acme_row "5" ])
    [].

(** What [fetch_recent_articles] reads from [acme_store]. *)
Definition acme_read : list article :=
  [ mk_article "1" "ACME again" "" sample_instant;
    mk_article "2" "ACME again" "" sample_instant;
    mk_article "x" "" "No relation" sample_instant;
    mk_article "3" "ACME again" "" sample_instant;
    mk_article "4" "ACME again" "" sample_instant;
    mk_article "5" "ACME again" "" sample_instant ].

(** 2025-01-01T00:00:00Z and 2025-01-01T20:00:00Z. *)
Definition midnight_cutoff : datetime :=
  mk_datetime (civil_micros (2025, 1, 1, 0, 0, 0)) (Some utc).

Definition evening_cutoff : datetime :=
  mk_datetime (civil_micros (2025, 1, 1, 20, 0, 0)) (Some utc).

Definition world_feed : string := "http://rss.cnn.com/rss/cnn_world.rss".
Definition us_feed : string := "http://rss.cnn.com/rss/cnn_us.rss".

Definition us_item : Entry :=
  mk_entry "https://x/us" (Some "Acme in the US") (Some "more")
           (Some (at_time 2025 1 1 12 0 0)) None.

(** The world feed has three fresh items, the US feed one. *)
Definition busy_net : web :=
  fun url =>
    if String.eqb url world_feed
    then ok (mk_feed false [with_link boundary_item; with_link updated_item;
                        with_link bare_item])
    else if String.eqb url us_feed then ok (mk_feed false [with_link us_item])
    else ok (mk_feed false []).

(** The world feed cannot be fetched: the exception leaves feedparser. *)
Definition broken_net : web :=
  fun url =>
    if String.eqb url world_feed then raise ConnectionError
    else if String.eqb url us_feed then ok (mk_feed false [with_link us_item])
    else ok (mk_feed false []).

(** The world feed fails the way feedparser reports it. *)
Definition bozo_net : web :=
  fun url =>
    if String.eqb url world_feed then ok (mk_feed true [])
    else if String.eqb url us_feed then ok (mk_feed false [with_link us_item])
    else ok (mk_feed false []).

(** Every task gets its first turn in the order of FEEDS; after that they
    run one after the other. *)
Definition first_turns : list nat := [0; 1; 2; 3; 4; 5; 6]%nat.

(** The world feed carries an entry that has no link. *)
Definition linkless_net : web :=
  fun url =>
    if String.eqb url world_feed
    then ok (mk_feed false [without_link (Some "No link") None None None])
    else ok (mk_feed false []).

(** A new database file, and the tenth storage call fails. *)
Definition stormy_world : world :=
  mk_world (mk_connection None (repeat false 9 ++ [true])%list)
           (fun _ => sample_now) O [].

Definition new_world : world :=
  mk_world (mk_connection None []) (fun _ => sample_now) O [].

(** Both feeds carry the same item. *)
Definition echo_net : web :=
  fun url =>
    if String.eqb url world_feed then ok (mk_feed false [with_link us_item])
    else if String.eqb url us_feed then ok (mk_feed false [with_link us_item])
    else ok (mk_feed false []).

(** Tasks 1 and 2 take turns. *)
Definition alternating : list nat := [0; 1; 2; 1; 2; 1; 2; 1; 2]%nat.

(** A store that already holds the rows of [acme_store]. *)
Definition acme_world : world :=
  mk_world acme_store (fun _ => sample_now) O [].

(** A parser for the examples that rejects the text ["yesterday"]. *)
Definition strict_parse : string -> result datetime :=
  fun s => if String.eqb s "yesterday" then raise ValueError
           else ok sample_instant.

(** A store whose first row has a timestamp that [strict_parse] rejects. *)
Definition mixed_store : connection :=
  mk_connection
    (Some [ mk_row "old" (Some "Old") "https://x/old" "yesterday" None "feed";
            acme_row "1" ])
    [].

(** What [main] hands to the model when it reads [acme_store]. *)
Definition acme_message : string :=
  match main Str.lower sample_parse acme_store sample_instant with
  | inr msg => msg
  | inl _ => ""
  end.

Definition bae_article : article :=
  mk_article "7" "BAE Systems wins contract" "" sample_instant.

(** An item stamped with a leap second, which [datetime] does not accept;
    its updated timestamp is an ordinary one. *)
Definition leap_item : Entry :=
  mk_entry "https://x/leap" (Some "Leap second") None
           (Some (at_time 2025 1 1 23 59 60))
           (Some (at_time 2025 1 1 23 59 59)).

(** The table exists and is empty. *)
Definition empty_store : connection := mk_connection (Some []) [].

(* ------------------------------------------------------------------ *)
(** * Properties *)

(** ** Dates *)

Example isoformat_leap_day :
  option_map (isoformat "T")
    (match datetime_new (2024, 2, 29, 23, 59, 58) (Some utc) with
     | inr d => Some d | inl _ => None end)
  = Some "2024-02-29T23:59:58+00:00".
Proof. reflexivity. Qed.

Example isoformat_microseconds :
  isoformat " " (mk_datetime (civil_micros (2025, 12, 31, 0, 0, 0) + 1234) (Some utc))
  = "2025-12-31 00:00:00.001234+00:00".
Proof. reflexivity. Qed.

Example datetime_new_rejects :
  datetime_new (2025, 2, 29, 0, 0, 0) (Some utc) = raise ValueError
  /\ datetime_new (2025, 1, 1, 0, 0, 60) (Some utc) = raise ValueError.
Proof. split; reflexivity. Qed.

Example epoch_underflow :
  sub (mk_datetime 0 (Some utc)) (timedelta_hours 24) = raise OverflowError.
Proof. reflexivity. Qed.

(** ** Strings *)

Lemma append_nil_r (s : string) : s ++ "" = s.
Proof. induction s as [| c s IH]; simpl; [reflexivity | now rewrite IH]. Qed.

Lemma append_assoc (a b c : string) : (a ++ b) ++ c = a ++ b ++ c.
Proof. induction a as [| x a IH]; simpl; [reflexivity | now rewrite IH]. Qed.

Lemma lower_app (a b : string) :
  Str.lower (a ++ b) = Str.lower a ++ Str.lower b.
Proof. induction a as [| c a IH]; simpl; [reflexivity | now rewrite IH]. Qed.

(** A split of the lower-cased text is the image of a split of the text. *)
Lemma lower_split (t a b : string) :
  Str.lower t = a ++ b ->
  exists ta tb, t = ta ++ tb /\ Str.lower ta = a /\ Str.lower tb = b.
Proof.
  revert t; induction a as [| c a IH]; intros t H.
  - exists "", t. auto.
  - destruct t as [| d t]; simpl in H; [discriminate |].
    injection H as Hc Ht. destruct (IH t Ht) as (ta & tb & -> & Ha & Hb).
    exists (String d ta), tb. simpl. now rewrite Hc, Ha, Hb.
Qed.

Lemma prefix_iff (p s : string) :
  String.prefix p s = true <-> exists q, s = p ++ q.
Proof.
  revert s; induction p as [| c p IH]; intros s.
  - split; [intros _; now exists s | intros _; now destruct s].
  - destruct s as [| d s]; simpl.
    + split; [discriminate | intros [q Hq]; discriminate].
    + destruct (ascii_dec c d) as [-> | Hne].
      * rewrite IH. split; intros [q Hq]; exists q; [now rewrite Hq | now injection Hq].
      * split; [discriminate | intros [q Hq]; injection Hq as Hcd _; congruence].
Qed.

Lemma contains_iff (needle hay : string) :
  Str.contains needle hay = true <-> exists p q, hay = p ++ needle ++ q.
Proof.
  induction hay as [| c hay IH].
  - change (Str.contains needle "") with (String.prefix needle "" || false).
    rewrite orb_true_iff, prefix_iff. split.
    + intros [[q Hq] | H]; [now exists "", q | discriminate].
    + intros (p & q & H). left. destruct p; [now exists q |]. discriminate.
  - change (Str.contains needle (String c hay))
      with (String.prefix needle (String c hay) || Str.contains needle hay).
    rewrite orb_true_iff, prefix_iff, IH. split.
    + intros [[q Hq] | (p & q & Hq)]; [now exists "", q |].
      exists (String c p), q. simpl. now rewrite Hq.
    + intros (p & q & H). destruct p as [| d p]; [left; now exists q |].
      right. injection H as _ H. now exists p, q.
Qed.

Lemma lower_char_code (c : ascii) :
  nat_of_ascii (Str.lower_char c)
  = if capital c then (nat_of_ascii c + 32)%nat else nat_of_ascii c.
Proof.
  unfold Str.lower_char, capital. cbv zeta.
  destruct ((65 <=? nat_of_ascii c)%nat && (nat_of_ascii c <=? 90)%nat) eqn:H;
    [| reflexivity].
  apply andb_true_iff in H. destruct H as [_ H]. apply Nat.leb_le in H.
  apply nat_ascii_embedding. lia.
Qed.

Lemma capital_range (c : ascii) :
  capital c = true <-> (65 <= nat_of_ascii c <= 90)%nat.
Proof.
  unfold capital. rewrite andb_true_iff, !Nat.leb_le. tauto.
Qed.

Lemma ascii_code_inj (c d : ascii) : nat_of_ascii c = nat_of_ascii d -> c = d.
Proof.
  intros H. rewrite <- (ascii_nat_embedding c), <- (ascii_nat_embedding d).
  now rewrite H.
Qed.

(** Two characters have the same lower case exactly when they are the same
    letter in whatever case. *)
Lemma lower_char_eq_iff (c d : ascii) :
  Str.lower_char c = Str.lower_char d <-> same_letter c d.
Proof.
  unfold same_letter. split.
  - intros H. apply (f_equal nat_of_ascii) in H.
    rewrite !lower_char_code in H.
    destruct (capital c) eqn:Hc; destruct (capital d) eqn:Hd.
    + left. apply ascii_code_inj. lia.
    + right. left. split; [reflexivity | lia].
    + right. right. split; [reflexivity | lia].
    + left. now apply ascii_code_inj.
  - intros [-> | [[Hc Hd] | [Hd Hc]]]; [reflexivity | |];
      apply ascii_code_inj; rewrite !lower_char_code.
    + rewrite Hc. apply capital_range in Hc.
      destruct (capital d) eqn:Hd'; [apply capital_range in Hd'; lia | lia].
    + rewrite Hd. apply capital_range in Hd.
      destruct (capital c) eqn:Hc'; [apply capital_range in Hc'; lia | lia].
Qed.

(** [Str.lower] identifies exactly the texts that differ in the case of
    letters. *)
Lemma lower_eq_iff (s t : string) :
  Str.lower s = Str.lower t <-> same_up_to_case s t.
Proof.
  revert t; induction s as [| c s IH]; intros [| d t]; simpl;
    try (split; [discriminate | contradiction]); [tauto |].
  rewrite <- IH, <- lower_char_eq_iff. split.
  - intros [= H1 H2]. now split.
  - intros [-> ->]. reflexivity.
Qed.





Lemma is_ascii_app (a b : string) :
  Str.is_ascii (a ++ b) = Str.is_ascii a && Str.is_ascii b.
Proof.
  induction a as [| c a IH]; simpl; [reflexivity |].
  now rewrite IH, andb_assoc.
Qed.

(** The test [alias.lower() in text.lower()], on ASCII text, is substring
    occurrence up to the case of letters. *)
Lemma contains_lower_iff (alias text : string) :
  Str.contains (Str.lower alias) (Str.lower text) = true <-> occurs_ci alias text.
Proof.
  rewrite contains_iff. unfold occurs_ci. split.
  - intros (p & q & H).
    destruct (lower_split _ _ _ H) as (tp & rest & -> & Hp & Hrest).
    destruct (lower_split _ _ _ Hrest) as (mid & post & -> & Hmid & Hpost).
    exists tp, mid, post. split; [reflexivity | now apply lower_eq_iff].
  - intros (pre & mid & post & -> & Hmid). apply lower_eq_iff in Hmid.
    exists (Str.lower pre), (Str.lower post).
    now rewrite !lower_app, Hmid.
Qed.





(** ** Running coroutines *)

Lemma run_bind {A B} (net : web) (m : coro A) (f : A -> coro B) (w : world) :
  run net (bind m f) w =
  match run net m w with
  | (inl e, w') => (inl e, w')
  | (inr a, w') => run net (f a) w'
  end.
Proof.
  revert w; induction m as [a | e | c k IH]; intro w; simpl; try reflexivity.
  destruct (perform net c w) as [[e | x] w']; [reflexivity | apply IH].
Qed.

Lemma run_lift {A} (net : web) (r : result A) (w : world) :
  run net (lift r) w = (r, w).
Proof. destruct r; reflexivity. Qed.

Lemma run_await (net : web) (c : call) (w : world) :
  run net (await c) w = perform net c w.
Proof.
  unfold await; simpl. destruct (perform net c w) as [[e | x] w']; reflexivity.
Qed.

Lemma with_conn_self (w : world) : with_conn w (conn w) = w.
Proof. destruct w; reflexivity. Qed.

Lemma io_calm (c : connection) : io_faults c = [] -> Db.io c = ok c.
Proof. unfold Db.io; intros ->; reflexivity. Qed.

Lemma fetchone_select (aid : string) (rows : list row) :
  Db.fetchone (map (fun _ => 1) (filter (fun r => String.eqb (r_id r) aid) rows))
  = if Db.has_id aid rows then Some 1 else None.
Proof.
  unfold Db.has_id, Db.fetchone.
  induction rows as [| r rows IH]; simpl; [reflexivity |].
  destruct (String.eqb (r_id r) aid); simpl; [reflexivity | exact IH].
Qed.

Lemma has_id_filter (aid : string) (rows : list row) :
  Db.has_id aid rows = false ->
  filter (fun r => String.eqb (r_id r) aid) rows = [].
Proof.
  unfold Db.has_id. induction rows as [| r rows IH]; simpl; [reflexivity |].
  destruct (String.eqb (r_id r) aid); simpl; [discriminate | exact IH].
Qed.

Section ScraperFacts.

Variable h : string -> string.
Variable net : web.

(** *** parse_datetime *)

Lemma parse_datetime_run (e : Entry) (w : world) :
  run net (parse_datetime e) w =
  match published_parsed e, updated_parsed e with
  | Some ts, _ => (datetime_new (first_six ts) (Some utc), w)
  | None, Some ts => (datetime_new (first_six ts) (Some utc), w)
  | None, None => (ok (now_of w), tick w)
  end.
Proof.
  unfold parse_datetime.
  destruct (published_parsed e) as [ts |]; [apply run_lift |].
  destruct (updated_parsed e) as [ts |]; [apply run_lift |].
  reflexivity.
Qed.

Lemma datetime_new_tz (c : civil) (tz : option timezone) (d : datetime) :
  datetime_new c tz = ok d -> tzinfo d = tz /\ micros d = civil_micros c.
Proof.
  unfold datetime_new. destruct (valid_civil c); [| discriminate].
  intros [= <-]. split; reflexivity.
Qed.

Lemma parse_datetime_aware (e : Entry) (w w' : world) (d : datetime) :
  run net (parse_datetime e) w = (ok d, w') ->
  tzinfo d = Some utc /\ conn w' = conn w /\ clock w' = clock w.
Proof.
  rewrite parse_datetime_run.
  destruct (published_parsed e) as [ts |].
  - intros [= H <-]. apply datetime_new_tz in H. tauto.
  - destruct (updated_parsed e) as [ts |].
    + intros [= H <-]. apply datetime_new_tz in H. tauto.
    + intros [= <- <-]. repeat split.
Qed.

(** C3, as amended.  Timestamp fallback order.  parse_datetime reads the
    published timestamp when the entry has one, otherwise the updated
    timestamp when it has one, otherwise the clock (the only case that reads
    the clock).  When the timestamp read is a calendar time, it is the
    result, as an aware datetime in UTC; so is the clock reading.  When it is
    not, parse_datetime raises ValueError: it does not go on to the next
    timestamp. *)
Theorem parse_datetime_fallback_order (e : Entry) (w : world) :
  (datable e ->
   exists d w',
     run net (parse_datetime e) w = (ok d, w')
     /\ tzinfo d = Some utc
     /\ match published_parsed e, updated_parsed e with
        | Some ts, _ => micros d = civil_micros (first_six ts) /\ w' = w
        | None, Some ts => micros d = civil_micros (first_six ts) /\ w' = w
        | None, None => d = now_of w /\ w' = tick w
        end)
  /\ (~ datable e -> run net (parse_datetime e) w = (raise ValueError, w)).
Proof.
  rewrite parse_datetime_run. unfold datable, datetime_new.
  destruct (published_parsed e) as [ts |] eqn:Hp;
    [| destruct (updated_parsed e) as [ts |] eqn:Hu].
  - destruct (valid_civil (first_six ts)); split.
    + intros _. eexists; eexists; split; [reflexivity |]. simpl; auto.
    + intros H. now contradiction H.
    + discriminate.
    + reflexivity.
  - destruct (valid_civil (first_six ts)); split.
    + intros _. eexists; eexists; split; [reflexivity |]. simpl; auto.
    + intros H. now contradiction H.
    + discriminate.
    + reflexivity.
  - split.
    + intros _. eexists; eexists; split; [reflexivity |]. simpl; auto.
    + intros H. now contradiction H.
Qed.

(** *** store_entry *)

Lemma perform_select_calm (aid : string) (w : world) (rows : list row) :
  holds w rows -> calm w ->
  perform net (ExecSelectId aid) w
  = (ok (map (fun _ => 1) (filter (fun r => String.eqb (r_id r) aid) rows)), w).
Proof.
  destruct w as [[tbl faults] ck tk jr]; unfold holds, calm; simpl.
  intros -> ->; reflexivity.
Qed.

Lemma perform_fetchone_calm (cur : cursor) (w : world) :
  calm w -> perform net (Fetchone cur) w = (ok (Db.fetchone cur), w).
Proof.
  destruct w as [[tbl faults] ck tk jr]; unfold calm; simpl.
  intros ->; reflexivity.
Qed.

Lemma perform_commit_calm (w : world) :
  calm w -> perform net Commit w = (ok tt, w).
Proof.
  destruct w as [[tbl faults] ck tk jr]; unfold calm; simpl.
  intros ->; reflexivity.
Qed.

Lemma perform_insert_calm (r : row) (w : world) (rows : list row) :
  holds w rows -> calm w ->
  Db.has_id (r_id r) rows = false -> r_title r <> None ->
  perform net (ExecInsert r) w = (ok tt, append_row w r).
Proof.
  destruct w as [[tbl faults] ck tk jr]; unfold holds, calm; simpl.
  intros -> -> Hnew Htitle. unfold Db.insert; simpl. rewrite Hnew.
  destruct (r_title r); [reflexivity | contradiction].
Qed.

Lemma store_entry_run (feed : string) (e : Entry) (w : world) (rows : list row) :
  holds w rows -> calm w ->
  run net (store_entry h feed e) w =
  if Db.has_id (article_id h (link e)) rows then (ok false, w)
  else
    match run net (parse_datetime e) w with
    | (inl x, w1) => (inl x, w1)
    | (inr pub, w1) =>
        match sub (now_of w1) (timedelta_hours MAX_AGE_HOURS) with
        | inl x => (inl x, tick w1)
        | inr cutoff =>
            if micros pub <? micros cutoff then (ok false, tick w1)
            else (ok true, append_row (tick w1) (stored_row h feed e pub))
        end
    end.
Proof.
  intros Hrows Hcalm. unfold store_entry. cbv zeta.
  rewrite run_bind, (run_await net (ExecSelectId _)),
          (perform_select_calm _ _ _ Hrows Hcalm); unfold ok; cbv beta iota.
  rewrite run_bind, (run_await net (Fetchone _)),
          (perform_fetchone_calm _ _ Hcalm), fetchone_select;
    unfold ok; cbv beta iota.
  destruct (Db.has_id (article_id h (link e)) rows) eqn:Hdup; [reflexivity |].
  rewrite run_bind.
  destruct (run net (parse_datetime e) w) as [[x | pub] w1] eqn:Hparse;
    [reflexivity |].
  destruct (parse_datetime_aware _ _ _ _ Hparse) as (Htz & Hconn & _).
  rewrite run_bind. change (run net (await Now) w1) with (ok (now_of w1), tick w1).
  unfold ok; cbv beta iota. rewrite run_bind, run_lift.
  destruct (sub (now_of w1) (timedelta_hours MAX_AGE_HOURS)) as [x | cutoff] eqn:Hsub;
    [reflexivity |].
  assert (Hcut : tzinfo cutoff = Some utc).
  { unfold sub in Hsub. destruct (in_range _); [| discriminate].
    injection Hsub as <-. reflexivity. }
  rewrite run_bind, run_lift. unfold lt. rewrite Htz, Hcut.
  unfold ok; cbv beta iota.
  destruct (micros pub <? micros cutoff); [reflexivity |].
  assert (Hrows1 : holds (tick w1) rows) by (unfold holds; simpl; now rewrite Hconn).
  assert (Hcalm1 : calm (tick w1)) by (unfold calm; simpl; now rewrite Hconn).
  rewrite run_bind, (run_await net (ExecInsert _)).
  fold (stored_row h feed e pub).
  rewrite (perform_insert_calm (stored_row h feed e pub) _ _ Hrows1 Hcalm1 Hdup)
    by discriminate.
  unfold ok; cbv beta iota.
  rewrite run_bind, (run_await net Commit), perform_commit_calm; [reflexivity |].
  unfold calm, append_row; simpl. exact Hcalm1.
Qed.

Lemma holds_append (w : world) (rows : list row) (r : row) :
  holds w rows -> holds (append_row w r) (rows ++ [r]).
Proof. unfold holds, append_row; simpl. now intros ->. Qed.

Lemma calm_append (w : world) (r : row) : calm w -> calm (append_row w r).
Proof. unfold calm, append_row; simpl. auto. Qed.

Lemma has_id_app (aid : string) (rows rows' : list row) :
  Db.has_id aid (rows ++ rows') = Db.has_id aid rows || Db.has_id aid rows'.
Proof. unfold Db.has_id. apply existsb_app. Qed.

(** What store_entry does with an item that is not stored yet, in a calm
    world where the age limit is a representable datetime. *)
Lemma store_entry_new (feed : string) (e : Entry) (w w1 : world)
  (rows : list row) (pub : datetime) :
  holds w rows -> calm w ->
  Db.has_id (article_id h (link e)) rows = false ->
  run net (parse_datetime e) w = (ok pub, w1) ->
  in_range (cutoff_of (now_of w1)) = true ->
  run net (store_entry h feed e) w =
  if micros pub <? cutoff_of (now_of w1) then (ok false, tick w1)
  else (ok true, append_row (tick w1) (stored_row h feed e pub)).
Proof.
  intros Hrows Hcalm Hnew Hparse Hrange.
  rewrite (store_entry_run feed e w rows Hrows Hcalm), Hnew.
  unfold ok in Hparse. rewrite Hparse. unfold sub.
  fold (cutoff_of (now_of w1)). rewrite Hrange. reflexivity.
Qed.

(** C2. Freshness boundary: a non-duplicate item is accepted exactly when its
    resolved timestamp is at or after now - MAX_AGE_HOURS (24 hours), now being
    the clock reading of the test.  A timestamp equal to the limit is
    accepted, one second before the limit is rejected, and any timestamp at or
    after now is accepted, however far in the future. *)
Theorem freshness_boundary_inclusive (feed : string) (e : Entry) (w w1 : world)
  (rows : list row) (pub : datetime) :
  holds w rows -> calm w ->
  Db.has_id (article_id h (link e)) rows = false ->
  run net (parse_datetime e) w = (ok pub, w1) ->
  in_range (cutoff_of (now_of w1)) = true ->
  let accepted := fst (run net (store_entry h feed e) w) = ok true in
  let rejected := fst (run net (store_entry h feed e) w) = ok false in
  (accepted <-> micros (now_of w1) - timedelta_hours 24 <= micros pub)
  /\ (rejected <-> micros pub < micros (now_of w1) - timedelta_hours 24)
  /\ (micros pub = micros (now_of w1) - timedelta_hours 24 -> accepted)
  /\ (micros pub = micros (now_of w1) - timedelta_hours 24 - timedelta_seconds 1
      -> rejected)
  /\ (micros (now_of w1) <= micros pub -> accepted).
Proof.
  intros Hrows Hcalm Hnew Hparse Hrange accepted rejected.
  subst accepted rejected.
  rewrite (store_entry_new feed e w w1 rows pub Hrows Hcalm Hnew Hparse Hrange).
  unfold cutoff_of, MAX_AGE_HOURS.
  assert (H24 : 0 < timedelta_hours 24) by reflexivity.
  assert (H1 : 0 < timedelta_seconds 1) by reflexivity.
  destruct (Z.ltb_spec (micros pub) (micros (now_of w1) - timedelta_hours 24));
    cbn [fst]; unfold ok; repeat split; intros;
    try discriminate; try reflexivity; try lia; exfalso; lia.
Qed.

(** C1, as amended.  An item that is not stored yet and passes the freshness
    test is written by its first store_entry, which returns True; a second
    store_entry of an item with the same link, from whatever feed, returns
    False and leaves the store alone; one row carries the fingerprint.  So
    does every later store_entry of that link, as long as the row is there. *)
Theorem ingest_again_is_noop (feed feed' : string) (e e' : Entry) (w w1 : world)
  (rows : list row) (pub : datetime) :
  holds w rows -> calm w ->
  Db.has_id (article_id h (link e)) rows = false ->
  run net (parse_datetime e) w = (ok pub, w1) ->
  in_range (cutoff_of (now_of w1)) = true ->
  cutoff_of (now_of w1) <= micros pub ->
  link e' = link e ->
  ingested_once h net feed e feed' e' w
  /\ (exists w2, run net (store_entry h feed e) w = (ok true, w2)
               /\ run net (store_entry h feed' e') w2 = (ok false, w2)
               /\ holds w2 (rows ++ [stored_row h feed e pub]))
  /\ (forall later rows',
         holds later rows' -> calm later ->
         In (stored_row h feed e pub) rows' ->
         run net (store_entry h feed' e') later = (ok false, later)).
Proof.
  intros Hrows Hcalm Hnew Hparse Hrange Hfresh Hlink.
  pose proof (store_entry_new feed e w w1 rows pub Hrows Hcalm Hnew Hparse Hrange)
    as Hfirst.
  destruct (Z.ltb_spec (micros pub) (cutoff_of (now_of w1))) as [Hlt | _];
    [lia |].
  set (r := stored_row h feed e pub) in *.
  set (w2 := append_row (tick w1) r) in *.
  destruct (parse_datetime_aware e w w1 pub Hparse) as (_ & Hconn & _).
  assert (Hrows2 : holds w2 (rows ++ [r])).
  { apply holds_append. unfold holds; simpl. now rewrite Hconn. }
  assert (Hcalm2 : calm w2).
  { apply calm_append. unfold calm; simpl. now rewrite Hconn. }
  assert (Hdup : Db.has_id (article_id h (link e')) (rows ++ [r]) = true).
  { rewrite Hlink, has_id_app. apply orb_true_iff; right.
    unfold Db.has_id; simpl. now rewrite String.eqb_refl. }
  assert (Hsecond : run net (store_entry h feed' e') w2 = (ok false, w2)).
  { rewrite (store_entry_run feed' e' w2 _ Hrows2 Hcalm2), Hdup. reflexivity. }
  split.
  - unfold ingested_once. rewrite Hfirst, Hsecond.
    repeat split. unfold Db.rows_with_id. rewrite Hrows2.
    rewrite filter_app, (has_id_filter _ _ Hnew). simpl.
    now rewrite String.eqb_refl.
  - split; [exists w2; auto |].
    intros later rows' Hrows' Hcalm' Hin.
    rewrite (store_entry_run feed' e' later rows' Hrows' Hcalm').
    replace (Db.has_id (article_id h (link e')) rows') with true; [reflexivity |].
    symmetry. unfold Db.has_id. apply existsb_exists.
    exists r. split; [exact Hin |]. rewrite Hlink. apply String.eqb_refl.
Qed.

(** The row of an accepted item: missing text is written as the empty
    string, never as NULL. *)
Lemma store_entry_writes (feed : string) (e : Entry) (w w' : world)
  (rows : list row) :
  holds w rows -> calm w ->
  run net (store_entry h feed e) w = (ok true, w') ->
  exists pub, holds w' (rows ++ [stored_row h feed e pub]).
Proof.
  intros Hrows Hcalm. rewrite (store_entry_run feed e w rows Hrows Hcalm).
  destruct (Db.has_id _ rows); [discriminate |].
  destruct (run net (parse_datetime e) w) as [[x | pub] w1] eqn:Hparse;
    [discriminate |].
  destruct (sub _ _) as [x | cutoff]; [discriminate |].
  destruct (micros pub <? micros cutoff); [discriminate |].
  intros [= <-]. exists pub. apply holds_append.
  destruct (parse_datetime_aware e w w1 pub Hparse) as (_ & Hconn & _).
  unfold holds; simpl. now rewrite Hconn.
Qed.

End ScraperFacts.

(** Witness of C3: the published timestamp is the result, whatever the
    updated one holds. *)
Lemma parse_datetime_fallback_order_witness :
  exists d w',
    run quiet_net (parse_datetime revised_item) sample_world = (ok d, w')
    /\ tzinfo d = Some utc
    /\ micros d = civil_micros (2025, 1, 1, 12, 0, 0) /\ w' = sample_world.
Proof.
  apply (proj1 (parse_datetime_fallback_order quiet_net revised_item
                  sample_world)).
  reflexivity.
Defined.

(** Counterexample to C3 as stated: the published timestamp of the item has
    second 60, which [datetime] rejects.  parse_datetime raises ValueError;
    the updated timestamp, a calendar time, is not used. *)
Lemma invalid_published_time_is_not_resolved :
  run quiet_net (parse_datetime leap_item) sample_world
  = (raise ValueError, sample_world)
  /\ updated_parsed leap_item = Some (at_time 2025 1 1 23 59 59)
  /\ valid_civil (first_six (at_time 2025 1 1 23 59 59)) = true.
Proof. repeat split. Qed.

(** Witness of C2: the item published exactly 24 hours ago is accepted. *)
Lemma freshness_boundary_inclusive_witness :
  fst (run quiet_net (store_entry sample_digest "feed" boundary_item) sample_world)
  = ok true.
Proof.
  refine (proj1 (proj2 (proj2
           (freshness_boundary_inclusive sample_digest quiet_net "feed"
              boundary_item sample_world sample_world []
              (mk_datetime (civil_micros (2025, 1, 1, 0, 0, 0)) (Some utc))
              _ _ _ _ _))) _);
    reflexivity.
Defined.

(** Counterexample to C1 as stated: an item older than the age limit is
    turned away by the freshness guard, so its first store_entry returns
    False and no row is written. *)
Lemma stale_item_never_stored :
  ~ ingested_once sample_digest quiet_net "feed" stale_item "feed" stale_item
      sample_world.
Proof. vm_compute. intros [H _]. discriminate H. Qed.

(** Witness of C1 as amended. *)
Lemma ingest_again_is_noop_witness :
  ingested_once sample_digest quiet_net "feed" boundary_item "other feed"
    boundary_item sample_world.
Proof.
  apply (ingest_again_is_noop sample_digest quiet_net "feed" "other feed"
           boundary_item boundary_item sample_world sample_world []
           (mk_datetime (civil_micros (2025, 1, 1, 0, 0, 0)) (Some utc)));
    first [reflexivity | vm_compute; discriminate].
Defined.

(* ------------------------------------------------------------------ *)
(** ** The bucketing pass *)

Lemma bucket_append_to (k t : string) (art : article)
  (bs : list (string * list article)) :
  bucket t (append_to k art bs) =
  if String.eqb t k
  then option_map (fun lst => (lst ++ [art])%list) (bucket t bs)
  else bucket t bs.
Proof.
  induction bs as [| [t' lst] bs IH]; simpl.
  - now destruct (String.eqb t k).
  - destruct (String.eqb_spec t' k) as [-> | Hk]; simpl.
    + destruct (String.eqb_spec k t) as [-> | Ht].
      * now rewrite String.eqb_refl.
      * rewrite IH. destruct (String.eqb_spec t k); congruence.
    + destruct (String.eqb_spec t' t) as [-> | Ht].
      * destruct (String.eqb_spec t k); congruence.
      * exact IH.
Qed.

Lemma distinct_NoDup (keys : list string) : distinct keys = true -> NoDup keys.
Proof.
  induction keys as [| k rest IH]; simpl; [constructor |].
  rewrite andb_true_iff, negb_true_iff. intros [Hk Hrest].
  constructor; [| auto]. intros Hin.
  assert (H : existsb (String.eqb k) rest = true).
  { apply existsb_exists. exists k. split; [exact Hin | apply String.eqb_refl]. }
  congruence.
Qed.

Lemma TICKERS_keys : NoDup (map fst TICKERS).
Proof. apply distinct_NoDup. reflexivity. Qed.

Section BucketFacts.

Variable str_lower : string -> string.

(** The topics other than [t] leave bucket [t] alone. *)
Lemma bucket_place_other (tickers : list (string * list string)) (t : string)
  (art : article) (bs : list (string * list article)) :
  ~ In t (map fst tickers) -> bucket t (place str_lower tickers art bs) = bucket t bs.
Proof.
  unfold place. revert bs; induction tickers as [| [k al] rest IH]; intros bs Hnot.
  - reflexivity.
  - simpl in *. rewrite IH by tauto.
    destruct (mentions str_lower al (match_text str_lower art)); [| reflexivity].
    rewrite bucket_append_to.
    destruct (String.eqb_spec t k) as [-> | _]; [tauto | reflexivity].
Qed.

(** One article against every topic: bucket [t] grows by the article exactly
    when one of the aliases of [t] matches. *)
Lemma bucket_place (tickers : list (string * list string)) (t : string)
  (aliases : list string) (art : article) (bs : list (string * list article)) :
  NoDup (map fst tickers) -> In (t, aliases) tickers ->
  bucket t (place str_lower tickers art bs) =
  if mentions str_lower aliases (match_text str_lower art)
  then option_map (fun lst => (lst ++ [art])%list) (bucket t bs)
  else bucket t bs.
Proof.
  unfold place. revert bs; induction tickers as [| [k al] rest IH];
    intros bs Hnd Hin; [contradiction |].
  simpl in Hnd. inversion Hnd as [| ? ? Hk Hrest]; subst.
  destruct Hin as [[= -> ->] | Hin]; simpl.
  - fold (place str_lower rest art
            (if mentions str_lower aliases (match_text str_lower art) then append_to t art bs else bs)).
    rewrite bucket_place_other by exact Hk.
    destruct (mentions str_lower aliases (match_text str_lower art)); [| reflexivity].
    now rewrite bucket_append_to, String.eqb_refl.
  - rewrite (IH _ Hrest Hin).
    assert (Hne : t <> k).
    { intros ->. apply Hk. now apply (in_map fst) in Hin. }
    assert (Hsame : bucket t (if mentions str_lower al (match_text str_lower art)
                              then append_to k art bs else bs) = bucket t bs).
    { destruct (mentions str_lower al (match_text str_lower art)); [| reflexivity].
      rewrite bucket_append_to. destruct (String.eqb_spec t k); congruence. }
    now rewrite Hsame.
Qed.

Lemma bucket_initial (tickers : list (string * list string)) (t : string)
  (aliases : list string) :
  In (t, aliases) tickers ->
  bucket t (map (fun ta => (fst ta, @nil article)) tickers) = Some [].
Proof.
  induction tickers as [| [k al] rest IH]; [contradiction |].
  intros [[= -> ->] | Hin]; simpl.
  - now rewrite String.eqb_refl.
  - destruct (String.eqb k t); [reflexivity | auto].
Qed.

Lemma bucket_fold (tickers : list (string * list string)) (t : string)
  (aliases : list string) (arts : list article)
  (bs : list (string * list article)) (lst : list article) :
  NoDup (map fst tickers) -> In (t, aliases) tickers ->
  bucket t bs = Some lst ->
  bucket t (fold_left (fun acc art => place str_lower tickers art acc) arts bs)
  = Some (lst ++ filter (fun art => mentions str_lower aliases (match_text str_lower art)) arts)%list.
Proof.
  intros Hnd Hin. revert bs lst; induction arts as [| art arts IH];
    intros bs lst Hb; simpl.
  - now rewrite app_nil_r.
  - destruct (mentions str_lower aliases (match_text str_lower art)) eqn:Hm.
    + rewrite (IH _ (lst ++ [art])%list).
      * now rewrite <- app_assoc.
      * now rewrite (bucket_place _ _ _ _ _ Hnd Hin), Hm, Hb.
    + apply IH. now rewrite (bucket_place _ _ _ _ _ Hnd Hin), Hm.
Qed.

(** The bucket of a topic is the list of the articles its aliases match, in
    the order of the input. *)
Lemma bucket_is_filter (tickers : list (string * list string)) (t : string)
  (aliases : list string) (arts : list article) :
  NoDup (map fst tickers) -> In (t, aliases) tickers ->
  bucket t (buckets_of str_lower tickers arts)
  = Some (filter (fun art => mentions str_lower aliases (match_text str_lower art)) arts).
Proof.
  intros Hnd Hin. unfold buckets_of.
  now rewrite (bucket_fold _ _ _ _ _ [] Hnd Hin (bucket_initial _ _ _ Hin)).
Qed.

(** On ASCII aliases and ASCII text, [str.lower] is [Str.lower]. *)
Lemma mentions_ascii (aliases : list string) (text : string) :
  lowers_ascii str_lower ->
  forallb Str.is_ascii aliases = true -> Str.is_ascii text = true ->
  mentions str_lower aliases (str_lower text)
  = mentions Str.lower aliases (Str.lower text).
Proof.
  intros Hlaw Hal Htext. unfold mentions. rewrite (Hlaw text Htext).
  induction aliases as [| alias aliases IH]; simpl in *; [reflexivity |].
  apply andb_true_iff in Hal. destruct Hal as [Ha Hal].
  now rewrite (Hlaw alias Ha), IH.
Qed.

(** The test of the bucketing loop, on ASCII aliases and ASCII text: some
    alias occurs in the text up to the case of letters. *)
Lemma mentions_iff (aliases : list string) (text : string) :
  lowers_ascii str_lower ->
  forallb Str.is_ascii aliases = true -> Str.is_ascii text = true ->
  (mentions str_lower aliases (str_lower text) = true <->
   exists alias, In alias aliases /\ occurs_ci alias text).
Proof.
  intros Hlaw Hal Htext. rewrite (mentions_ascii _ _ Hlaw Hal Htext).
  unfold mentions. rewrite existsb_exists.
  split; intros (alias & Hin & H); exists alias; split; auto;
    now apply contains_lower_iff.
Qed.

Lemma joined_is_ascii (t s : string) :
  Str.is_ascii t = true -> Str.is_ascii s = true ->
  Str.is_ascii (t ++ " " ++ s) = true.
Proof. intros Ht Hs. rewrite !is_ascii_app, Ht, Hs. reflexivity. Qed.

(** C7, as amended.  The bucket of a topic lists, in the order of the input,
    the articles for which the lower-cased text of some alias is found in
    the lower-cased title and summary joined by one space.  For ASCII
    aliases and ASCII articles this says: some alias occurs, up to the case
    of letters, as a substring of the title and the summary joined by one
    space.  Buckets do not exclude one another: an article can be in none,
    in one, or in several, and an alias inside a longer word counts. *)
Theorem bucketing_containment :
  lowers_ascii str_lower ->
  (forall tickers arts t aliases,
      NoDup (map fst tickers) -> In (t, aliases) tickers ->
      exists lst,
        bucket t (buckets_of str_lower tickers arts) = Some lst
        /\ lst = filter (fun art =>
                           existsb (fun alias =>
                                      Str.contains
                                        (str_lower alias)
                                        (str_lower (a_title art ++ " "
                                                    ++ a_summary art)))
                                   aliases)
                        arts
        /\ (forallb Str.is_ascii aliases = true ->
            forall art,
              Str.is_ascii (a_title art) = true ->
              Str.is_ascii (a_summary art) = true ->
              (In art lst <->
               In art arts
               /\ exists alias,
                   In alias aliases
                   /\ occurs_ci alias (a_title art ++ " " ++ a_summary art))))
  /\ bucket "ABC" (buckets_of str_lower ABC [unrelated_article]) = Some []
  /\ (forall t aliases,
         In (t, aliases) TICKERS -> forallb Str.is_ascii aliases = true ->
         bucket t (buckets_of str_lower TICKERS [unrelated_article]) = Some [])
  /\ (forall t aliases,
         In (t, aliases) TICKERS -> forallb Str.is_ascii aliases = true ->
         bucket t (buckets_of str_lower TICKERS [metallic_article])
         = Some (if String.eqb t "META" then [metallic_article] else []))
  /\ (forall t aliases,
         In (t, aliases) TICKERS -> forallb Str.is_ascii aliases = true ->
         bucket t (buckets_of str_lower TICKERS [two_topic_article])
         = Some (if String.eqb t "GOOGL" || String.eqb t "AAPL"
                 then [two_topic_article] else [])).
Proof.
  intros Hlaw.
  assert (Hone : forall tickers t aliases art,
             NoDup (map fst tickers) -> In (t, aliases) tickers ->
             forallb Str.is_ascii aliases = true ->
             Str.is_ascii (a_title art ++ " " ++ a_summary art) = true ->
             bucket t (buckets_of str_lower tickers [art])
             = Some (if mentions Str.lower aliases
                          (Str.lower (a_title art ++ " " ++ a_summary art))
                     then [art] else [])).
  { intros tickers t aliases art Hnd Hin Hal Htext.
    rewrite (bucket_is_filter _ _ _ _ Hnd Hin). cbn [filter].
    unfold match_text. now rewrite (mentions_ascii _ _ Hlaw Hal Htext). }
  assert (Hall : forall art (expected : string -> bool),
             Str.is_ascii (a_title art ++ " " ++ a_summary art) = true ->
             forallb (fun ta =>
                        implb (forallb Str.is_ascii (snd ta))
                              (Bool.eqb
                                 (mentions Str.lower (snd ta)
                                    (Str.lower (a_title art ++ " "
                                                ++ a_summary art)))
                                 (expected (fst ta))))
                     TICKERS = true ->
             forall t aliases,
               In (t, aliases) TICKERS -> forallb Str.is_ascii aliases = true ->
               bucket t (buckets_of str_lower TICKERS [art])
               = Some (if expected t then [art] else [])).
  { intros art expected Htext Hcheck t aliases Hin Hal.
    rewrite (Hone TICKERS t aliases art TICKERS_keys Hin Hal Htext).
    rewrite forallb_forall in Hcheck. specialize (Hcheck _ Hin).
    cbn [fst snd] in Hcheck. rewrite Hal in Hcheck. cbn [implb] in Hcheck.
    now rewrite (Bool.eqb_prop _ _ Hcheck). }
  split; [| split; [| split; [| split]]].
  - intros tickers arts t aliases Hnd Hin.
    eexists. split; [apply (bucket_is_filter _ _ _ _ Hnd Hin) |].
    split; [reflexivity |].
    intros Hal art Ht Hs. rewrite filter_In.
    change (existsb _ aliases)
      with (mentions str_lower aliases
                     (str_lower (a_title art ++ " " ++ a_summary art))).
    now rewrite (mentions_iff _ _ Hlaw Hal (joined_is_ascii _ _ Ht Hs)).
  - rewrite (Hone ABC "ABC" ["Acme"]); try reflexivity;
      [apply distinct_NoDup; reflexivity | now left].
  - apply (Hall unrelated_article (fun _ => false)); vm_compute; reflexivity.
  - apply (Hall metallic_article (fun t => String.eqb t "META"));
      vm_compute; reflexivity.
  - apply (Hall two_topic_article
                (fun t => String.eqb t "GOOGL" || String.eqb t "AAPL"));
      vm_compute; reflexivity.
Qed.


End BucketFacts.

(** On the ASCII text of the examples [Str.lower] is what [str.lower] does. *)
Lemma Str_lower_ascii : lowers_ascii Str.lower.
Proof. intros s _. reflexivity. Qed.

(** Witness of C7: the title is in capitals, the alias is not. *)
Lemma bucketing_containment_witness :
  bucket "ABC" (buckets_of Str.lower ABC [shouted_article; unrelated_article])
  = Some [shouted_article]
  /\ (In shouted_article [shouted_article] <->
      In shouted_article [shouted_article; unrelated_article]
      /\ exists alias,
          In alias ["Acme"]
          /\ occurs_ci alias (a_title shouted_article ++ " "
                              ++ a_summary shouted_article)).
Proof.
  destruct (proj1 (bucketing_containment Str.lower Str_lower_ascii)
              ABC [shouted_article; unrelated_article] "ABC" ["Acme"])
    as (lst & Hb & Hl & Hiff).
  - apply distinct_NoDup. reflexivity.
  - left. reflexivity.
  - assert (Hlst : lst = [shouted_article]) by (rewrite Hl; reflexivity).
    subst lst. split; [exact Hb |].
    apply (Hiff eq_refl shouted_article); reflexivity.
Defined.

(** Counterexample to C7 as stated: "Microsoft" is a substring of the
    concatenation of the title "Micro" and the summary "soft earnings", yet
    the article is not in the bucket of MSFT. *)
Lemma glued_alias_is_not_bucketed :
  (exists alias, In alias ["Microsoft"; "MS Corp"; "MSFT"]
                 /\ occurs_ci alias (a_title split_article ++ a_summary split_article))
  /\ In ("MSFT", ["Microsoft"; "MS Corp"; "MSFT"]) TICKERS
  /\ bucket "MSFT" (buckets_of Str.lower TICKERS [split_article]) = Some [].
Proof.
  split; [| split].
  - exists "Microsoft". split; [now left |].
    apply contains_lower_iff. reflexivity.
  - right. left. reflexivity.
  - reflexivity.
Qed.


(* ------------------------------------------------------------------ *)
(** ** Reading the store *)

Lemma io_articles (c c' : connection) :
  Db.io c = ok c' -> articles c' = articles c.
Proof.
  unfold Db.io. destruct (io_faults c) as [| [] rest]; try discriminate;
    now intros [= <-].
Qed.

Section AnalyzerFacts.

Variable str_lower : string -> string.
Variable dt_parse : string -> result datetime.

(** The articles come back in the order of the rows, text columns with NULL
    replaced by the empty string. *)
Lemma to_articles_fields (rows : list row) (arts : list article) :
  to_articles dt_parse rows = ok arts ->
  map a_id arts = map r_id rows
  /\ map a_title arts = map (fun r => or_empty (r_title r)) rows
  /\ map a_summary arts = map (fun r => or_empty (r_summary r)) rows.
Proof.
  revert arts; induction rows as [| r rows IH]; intros arts; simpl.
  - intros [= <-]. auto.
  - destruct (dt_parse (r_published r)) as [x | published]; [discriminate |].
    destruct (to_articles dt_parse rows) as [x | rest]; [discriminate |].
    intros [= <-]. destruct (IH rest eq_refl) as (Hid & Ht & Hs).
    simpl. now rewrite Hid, Ht, Hs.
Qed.

Lemma fetch_recent_articles_rows (c : connection) (since : datetime)
  (arts : list article) :
  fetch_recent_articles dt_parse c since = ok arts ->
  exists rows,
    articles c = Some rows
    /\ to_articles dt_parse (rows_since rows since) = ok arts.
Proof.
  unfold fetch_recent_articles.
  destruct (Db.io c) as [x | c'] eqn:Hio; [discriminate |].
  rewrite (io_articles c c' Hio).
  destruct (articles c) as [rows |]; [| discriminate].
  intros H. now exists rows.
Qed.

(** C8. Per-topic truncation: what build_user_msg passes on for a topic is
    the first MAX_ARTICLES_PER_TICKER (8) articles of its bucket, and the
    bucket lists the matching articles in the order in which the store
    returned them (rowid order): a prefix of the read order, never re-sorted.
    The cap is a parameter here, [build_user_msg] being the instance 8. *)
Theorem per_topic_truncation (cap : nat) (c : connection) (since : datetime)
  (tickers : list (string * list string)) (arts : list article)
  (t : string) (aliases : list string) :
  NoDup (map fst tickers) -> In (t, aliases) tickers ->
  fetch_recent_articles dt_parse c since = ok arts ->
  exists rows lst,
    articles c = Some rows
    /\ map a_id arts = map r_id (rows_since rows since)
    /\ bucket t (buckets_of str_lower tickers arts) = Some lst
    /\ lst = filter (fun art => mentions str_lower aliases (match_text str_lower art)) arts
    /\ (lst <> [] ->
        build_user_msg_capped cap t lst
        = "Ticker: " ++ t ++ nl ++ nl ++ "News:" ++ nl
          ++ Str.join nl (map news_line (firstn cap lst)))
    /\ List.length (firstn cap lst) = Nat.min cap (List.length lst)
    /\ lst = (firstn cap lst ++ skipn cap lst)%list
    /\ build_user_msg t lst = build_user_msg_capped 8 t lst.
Proof.
  intros Hnd Hin Hfetch.
  destruct (fetch_recent_articles_rows c since arts Hfetch) as (rows & Hrows & Hto).
  destruct (to_articles_fields _ _ Hto) as (Hid & _ & _).
  exists rows. eexists.
  split; [exact Hrows |]. split; [exact Hid |].
  split; [apply (bucket_is_filter _ _ _ _ _ Hnd Hin) |].
  split; [reflexivity |].
  split; [| split; [apply length_firstn | split;
                    [symmetry; apply firstn_skipn | reflexivity]]].
  intros Hne. unfold build_user_msg_capped.
  destruct (filter _ arts); [contradiction | reflexivity].
Qed.

(** C9. Missing text fields: an accepted item without a title or a summary
    is written with the empty string in that column (never NULL), and a NULL
    title or summary read back from the store becomes the empty string in the
    article handed to the bucketing and to the message. *)
Theorem missing_text_is_empty_string :
  (forall h net feed (e : Entry) w w' rows,
      holds w rows -> calm w ->
      run net (store_entry h feed e) w = (ok true, w') ->
      exists r,
        holds w' (rows ++ [r])
        /\ r_title r = Some (match title e with Some s => s | None => "" end)
        /\ r_summary r = Some (match summary e with Some s => s | None => "" end))
  /\ (forall c since arts,
         fetch_recent_articles dt_parse c since = ok arts ->
         exists rows,
           articles c = Some rows
           /\ map a_title arts
              = map (fun r => match r_title r with Some s => s | None => "" end)
                    (rows_since rows since)
           /\ map a_summary arts
              = map (fun r => match r_summary r with Some s => s | None => "" end)
                    (rows_since rows since)).
Proof.
  split.
  - intros h net feed e w w' rows Hrows Hcalm Hrun.
    destruct (store_entry_writes h net feed e w w' rows Hrows Hcalm Hrun)
      as [pub Hw'].
    exists (stored_row h feed e pub). split; [exact Hw' |]. split; reflexivity.
  - intros c since arts Hfetch.
    destruct (fetch_recent_articles_rows c since arts Hfetch) as (rows & Hrows & Hto).
    destruct (to_articles_fields _ _ Hto) as (_ & Ht & Hs).
    exists rows. split; [exact Hrows |]. split; [exact Ht | exact Hs].
Qed.

End AnalyzerFacts.

(** Witness of C8: a cap of 2 on five matching articles keeps the first two
    in read order. *)
Lemma per_topic_truncation_witness :
  exists lst,
    fetch_recent_articles sample_parse acme_store midnight_cutoff = ok acme_read
    /\ bucket "ABC" (buckets_of Str.lower ABC acme_read) = Some lst
    /\ map a_id lst = ["1"; "2"; "3"; "4"; "5"]
    /\ map a_id (firstn 2 lst) = ["1"; "2"]
    /\ build_user_msg_capped 2 "ABC" lst
       = "Ticker: ABC" ++ nl ++ nl ++ "News:" ++ nl
         ++ "[2025-01-02 00:00] ACME again — " ++ nl
         ++ "[2025-01-02 00:00] ACME again — ".
Proof.
  assert (Hkeys : NoDup (map fst ABC)) by (apply distinct_NoDup; reflexivity).
  assert (Hin : In ("ABC", ["Acme"]) ABC) by (left; reflexivity).
  assert (Hread : fetch_recent_articles sample_parse acme_store midnight_cutoff
                  = ok acme_read) by (vm_compute; reflexivity).
  destruct (per_topic_truncation Str.lower sample_parse 2 acme_store midnight_cutoff ABC
              acme_read "ABC" ["Acme"] Hkeys Hin Hread)
    as (rows & lst & _ & _ & Hb & Hl & Hmsg & _).
  exists lst. split; [exact Hread |]. split; [exact Hb |].
  rewrite Hmsg by (rewrite Hl; discriminate).
  rewrite Hl. vm_compute. repeat split.
Defined.

(** Witness of C9: an item with no title and no summary is written with
    empty strings, and the NULL title of row "x" is read as the empty
    string. *)
Lemma missing_text_is_empty_string_witness :
  (exists r,
      holds (snd (run quiet_net (store_entry sample_digest "feed" bare_item)
                      sample_world)) ([] ++ [r])
      /\ r_title r = Some "" /\ r_summary r = Some "")
  /\ (exists rows,
         articles acme_store = Some rows
         /\ map a_title acme_read
            = map (fun r => match r_title r with Some s => s | None => "" end)
                  (rows_since rows midnight_cutoff)
         /\ map a_summary acme_read
            = map (fun r => match r_summary r with Some s => s | None => "" end)
                  (rows_since rows midnight_cutoff)).
Proof.
  split.
  - apply (proj1 (missing_text_is_empty_string sample_parse)
             sample_digest quiet_net "feed" bare_item sample_world _ []);
      reflexivity.
  - apply (proj2 (missing_text_is_empty_string sample_parse)
             acme_store midnight_cutoff acme_read).
    vm_compute. reflexivity.
Defined.

(** Two texts with a common start are ordered by what follows it. *)
Lemma leb_common_prefix (p x y : string) :
  String.leb (p ++ String " " x) (p ++ String "T" y) = true.
Proof.
  unfold String.leb. induction p as [| c p IH]; simpl; [reflexivity |].
  assert (Hc : Ascii.compare c c = Eq) by apply N.compare_refl.
  now rewrite Hc.
Qed.

(** C4 on the code: the scraper writes timestamps with a "T" between date and
    time, the reader compares them with a cutoff written with a space.  So
    every row of the cutoff's day passes the comparison, whatever its time:
    a row published at 18:30 is returned for a cutoff of 20:00 of the same
    day, although it is older than the cutoff. *)
Theorem since_filter_admits_older_row :
  (forall published since,
      fmt_date published = fmt_date since ->
      Str.text_ge (isoformat "T" published) (isoformat " " since) = true)
  /\ let w := snd (run quiet_net (store_entry sample_digest "feed" updated_item)
                       sample_world) in
     exists r,
       articles (conn w) = Some [r]
       /\ r_published r = "2025-01-01T18:30:00+00:00"
       /\ isoformat " " evening_cutoff = "2025-01-01 20:00:00+00:00"
       /\ civil_micros (2025, 1, 1, 18, 30, 0) < micros evening_cutoff
       /\ rows_since [r] evening_cutoff = [r]
       /\ fetch_recent_articles sample_parse (conn w) evening_cutoff
          = ok [mk_article (sample_digest "https://x/u") "" "revised"
                           sample_instant].
Proof.
  split.
  - intros published since Hday. unfold Str.text_ge, isoformat.
    rewrite Hday. apply leb_common_prefix.
  - cbv zeta. eexists. repeat split.
Qed.

(* ------------------------------------------------------------------ *)
(** ** What a completed run says about the world *)

(** Anything that every successful call maintains, and logging too, is
    maintained by every coroutine, gather, cycle and loop that completes. *)
Section Completed.

Variable P : world -> world -> Prop.
Hypothesis P_refl : forall w, P w w.
Hypothesis P_trans : forall w1 w2 w3, P w1 w2 -> P w2 w3 -> P w1 w3.
Hypothesis P_perform :
  forall net c w x w', perform net c w = (inr x, w') -> P w w'.
Hypothesis P_logged : forall w e, P w (logged w e).

Lemma run_completed {A} (net : web) (t : coro A) (w w' : world) (a : A) :
  run net t w = (ok a, w') -> P w w'.
Proof.
  revert w; induction t as [b | e | c k IH]; intro w; simpl.
  - intros [= _ <-]. apply P_refl.
  - discriminate.
  - destruct (perform net c w) as [[e | x] w1] eqn:Hc; [discriminate |].
    intros H. eapply P_trans; [eapply P_perform; exact Hc | eapply IH; exact H].
Qed.

Lemma resume_completed {A} (net : web) (t : coro A) (w w' : world)
  (p : progress A) :
  resume net t w = (p, w') -> (forall e, p <> Crashed e) -> P w w'.
Proof.
  revert w; induction t as [b | e | c k IH]; intro w; simpl.
  - intros [= _ <-] _. apply P_refl.
  - intros [= <- _] H. now elim (H e).
  - destruct (perform net c w) as [[e | x] w1] eqn:Hc.
    + intros [= <- _] H. now elim (H e).
    + destruct (suspends c).
      * intros [= _ <-] _. eapply P_perform; exact Hc.
      * intros H Hp. eapply P_trans; [eapply P_perform; exact Hc |].
        eapply IH; eassumption.
Qed.

Lemma drain_completed {A} (net : web) (tasks : list (coro A)) (w w' : world)
  (rs : list A) :
  drain net tasks w = (ok rs, w') -> P w w'.
Proof.
  revert w rs; induction tasks as [| t rest IH]; intros w rs; simpl.
  - intros [= _ <-]. apply P_refl.
  - destruct (run net t w) as [[e | a] w1] eqn:Ht; [discriminate |].
    destruct (drain net rest w1) as [[e | others] w2] eqn:Hrest; [discriminate |].
    intros [= _ <-].
    eapply P_trans; [eapply run_completed; exact Ht | eapply IH; exact Hrest].
Qed.

Lemma gather_completed {A} (net : web) (sched : list nat)
  (tasks : list (coro A)) (w w' : world) (rs : list A) :
  gather net sched tasks w = (ok rs, w') -> P w w'.
Proof.
  revert tasks w; induction sched as [| i sched IH]; intros tasks w; simpl.
  - apply drain_completed.
  - destruct (nth_error tasks i) as [t |]; [| apply IH].
    destruct (resume net t w) as [[a | t' | e] w1] eqn:Ht.
    + intros H. eapply P_trans; [| eapply IH; exact H].
      eapply resume_completed; [exact Ht | discriminate].
    + intros H. eapply P_trans; [| eapply IH; exact H].
      eapply resume_completed; [exact Ht | discriminate].
    + discriminate.
Qed.

Lemma cycle_completed (h : string -> string) (net : web) (sched : list nat)
  (w w' : world) :
  cycle h net sched w = (ok tt, w') -> P w w'.
Proof.
  unfold cycle, pbind, log_info, sleep, plift.
  destruct (run net (await Now) w) as [[e | start] w1] eqn:H1; [discriminate |].
  destruct (gather net sched (map (fetch_feed h) FEEDS) w1)
    as [[e | added] w2] eqn:H2; [discriminate |].
  destruct (run net (await Now) (logged w2 (CycleFinished (sum_nats added))))
    as [[e | stop] w3] eqn:H3; [discriminate |].
  destruct (diff stop start) as [e | elapsed]; [discriminate |].
  intros H. apply (f_equal snd) in H. cbn [snd] in H. rewrite <- H.
  eapply P_trans; [eapply run_completed; exact H1 |].
  eapply P_trans; [eapply gather_completed; exact H2 |].
  eapply P_trans; [apply P_logged |].
  eapply P_trans; [eapply run_completed; exact H3 | apply P_logged].
Qed.

Lemma poll_cycles_completed (h : string -> string) (cycles k : nat)
  (nets : nat -> web) (scheds : nat -> list nat) (w w' : world) :
  poll_cycles h cycles k nets scheds w = (ok tt, w') -> P w w'.
Proof.
  revert k w; induction cycles as [| n IH]; intros k w; simpl.
  - intros [= <-]. apply P_refl.
  - unfold pbind.
    destruct (cycle h (nets k) (scheds k) w) as [[e | []] w1] eqn:Hc;
      [discriminate |].
    intros H. eapply P_trans; [eapply cycle_completed; exact Hc |].
    eapply IH; exact H.
Qed.

Lemma poll_loop_completed (h : string -> string) (cycles : nat)
  (nets : nat -> web) (scheds : nat -> list nat) (w w' : world) :
  poll_loop h cycles nets scheds w = (ok tt, w') -> P w w'.
Proof.
  unfold poll_loop, pbind.
  destruct (run (nets O) init_db w) as [[e | []] w1] eqn:Hi; [discriminate |].
  intros H. eapply P_trans; [eapply run_completed; exact Hi |].
  eapply poll_cycles_completed; exact H.
Qed.

End Completed.

(** *** Storage failures *)

Lemma fair_weather_refl (w : world) : fair_weather w w.
Proof. now exists O. Qed.

Lemma fair_weather_trans (w1 w2 w3 : world) :
  fair_weather w1 w2 -> fair_weather w2 w3 -> fair_weather w1 w3.
Proof.
  intros [k1 H1] [k2 H2]. exists (k1 + k2)%nat.
  now rewrite H1, H2, repeat_app, app_assoc.
Qed.

Lemma io_fair (c c' : connection) :
  Db.io c = ok c' ->
  articles c' = articles c
  /\ exists k, io_faults c = (repeat false k ++ io_faults c')%list.
Proof.
  unfold Db.io. destruct c as [tbl [| [] rest]]; simpl; try discriminate;
    intros [= <-]; split; try reflexivity; [now exists O | now exists 1%nat].
Qed.

Lemma perform_fair (net : web) (c : call) (w : world) (x : reply c) (w' : world) :
  perform net c w = (inr x, w') -> fair_weather w w'.
Proof.
  unfold fair_weather.
  destruct c; simpl;
    try (destruct (Db.io (conn w)) as [e | c'] eqn:Hio; [discriminate |];
         destruct (io_fair _ _ Hio) as [_ [k Hk]]);
    try (destruct (Db.insert r c') as [e | c''] eqn:Hins; [discriminate |]);
    intros H; apply (f_equal snd) in H; cbn [snd] in H; subst w';
    try (now exists O); exists k; simpl; try exact Hk.
  - unfold Db.create_table. destruct (articles c'); simpl; exact Hk.
  - unfold Db.insert in Hins.
    destruct (articles c'); [| discriminate].
    destruct (Db.has_id (r_id r) l); [discriminate |].
    destruct (r_title r); [| discriminate]. injection Hins as <-. exact Hk.
Qed.

Lemma logged_fair (w : world) (e : event) : fair_weather w (logged w e).
Proof. now exists O. Qed.

(** A list comprehension stops at the first element whose await raises. *)
Lemma each_stops {A B} (net : web) (f : A -> coro B) (before after : list A)
  (x : A) (w w1 w2 : world) (ys : list B) (e : exn) :
  run net (each f before) w = (ok ys, w1) ->
  run net (f x) w1 = (raise e, w2) ->
  run net (each f (before ++ x :: after)) w = (raise e, w2).
Proof.
  revert w ys; induction before as [| b before IH]; intros w ys; simpl.
  - intros [= _ <-] Hx. rewrite run_bind. unfold raise in Hx. now rewrite Hx.
  - intros H Hx. rewrite run_bind in H |- *.
    destruct (run net (f b) w) as [[e' | y] w'] eqn:Hb; [discriminate |].
    rewrite run_bind in H |- *.
    destruct (run net (each f before) w') as [[e' | ys'] w''] eqn:Hrest;
      [discriminate |].
    injection H as _ <-. now rewrite (IH w' ys' Hrest Hx).
Qed.

Lemma fetch_feed_run (h : string -> string) (net : web) (url : string)
  (w : world) :
  run net (fetch_feed h url) w =
  match net url with
  | inl e => (inl e, logged w (Requested url))
  | inr parsed =>
      match run net (each (store_entry h url) (entries parsed))
                (logged w (Requested url)) with
      | (inl e, w') => (inl e, w')
      | (inr added, w') => (ok (sum_bools added), w')
      end
  end.
Proof.
  unfold fetch_feed. rewrite run_bind, (run_await net (Parse url)). simpl.
  destruct (net url) as [e | parsed]; [reflexivity |].
  rewrite run_bind.
  destruct (run net (each (store_entry h url) (entries parsed)) _)
    as [[e | added] w']; reflexivity.
Qed.

(** C5, as amended.  A storage error is not caught anywhere.  When
    store_entry raises on an item, fetch_feed raises at that item: the world
    is left as the failing call left it, the items after it are not processed.
    No coroutine, gather, cycle or run of poll_loop completes if a storage
    call failed in it: completion means that every storage call made
    succeeded. *)
Theorem storage_error_propagates (h : string -> string) :
  (forall net url parsed before item after w w1 w2 flags e,
      net url = ok parsed ->
      entries parsed = (before ++ item :: after)%list ->
      run net (each (store_entry h url) before) (logged w (Requested url))
      = (ok flags, w1) ->
      run net (store_entry h url item) w1 = (raise e, w2) ->
      run net (fetch_feed h url) w = (raise e, w2))
  /\ (forall net feed item w b w',
         run net (store_entry h feed item) w = (ok b, w') -> fair_weather w w')
  /\ (forall net sched urls w added w',
         gather net sched (map (fetch_feed h) urls) w = (ok added, w') ->
         fair_weather w w')
  /\ (forall cycles nets scheds w w',
         poll_loop h cycles nets scheds w = (ok tt, w') -> fair_weather w w').
Proof.
  split; [| split; [| split]].
  - intros net url parsed before item after w w1 w2 flags e Hnet Hsplit Hbefore Hitem.
    rewrite fetch_feed_run, Hnet. unfold ok. rewrite Hsplit.
    now rewrite (each_stops net _ before after item _ w1 w2 flags e Hbefore Hitem).
  - intros net feed item w b w'.
    apply (run_completed fair_weather fair_weather_refl fair_weather_trans
             perform_fair).
  - intros net sched urls w added w'.
    apply (gather_completed fair_weather fair_weather_refl fair_weather_trans
             perform_fair).
  - intros cycles nets scheds w w'.
    apply (poll_loop_completed fair_weather fair_weather_refl fair_weather_trans
             perform_fair logged_fair).
Qed.

(* ------------------------------------------------------------------ *)
(** ** A source whose fetch failed softly *)

Lemma same_store_refl (w : world) : same_store w w.
Proof. repeat split. Qed.

Lemma same_store_sym (w1 w2 : world) : same_store w1 w2 -> same_store w2 w1.
Proof. intros (H1 & H2 & H3). repeat split; auto. Qed.

Lemma same_store_trans (w1 w2 w3 : world) :
  same_store w1 w2 -> same_store w2 w3 -> same_store w1 w3.
Proof.
  intros (H1 & H2 & H3) (K1 & K2 & K3). repeat split; congruence.
Qed.

Lemma same_store_logged (w : world) (e : event) : same_store w (logged w e).
Proof. repeat split. Qed.

(** No call looks at the journal. *)
Lemma perform_same_store (net : web) (c : call) (w1 w2 : world) :
  same_store w1 w2 ->
  fst (perform net c w1) = fst (perform net c w2)
  /\ same_store (snd (perform net c w1)) (snd (perform net c w2)).
Proof.
  destruct w1 as [c1 ck1 tk1 j1], w2 as [c2 ck2 tk2 j2].
  intros (H1 & H2 & H3); simpl in H1, H2, H3; subst c2 ck2 tk2.
  destruct c; simpl; try (split; [reflexivity | repeat split]);
    destruct (Db.io c1) as [e | c']; simpl; try (split; [reflexivity | repeat split]).
  destruct (Db.insert r c') as [e | c'']; simpl; split; try reflexivity;
    repeat split.
Qed.

Lemma run_same_store {A} (net : web) (t : coro A) (w1 w2 : world) :
  same_store w1 w2 ->
  fst (run net t w1) = fst (run net t w2)
  /\ same_store (snd (run net t w1)) (snd (run net t w2)).
Proof.
  revert w1 w2; induction t as [a | e | c k IH]; intros w1 w2 Hs; simpl;
    [auto | auto |].
  destruct (perform_same_store net c w1 w2 Hs) as [Hr Hw].
  destruct (perform net c w1) as [[e1 | x1] w1'],
           (perform net c w2) as [[e2 | x2] w2']; simpl in Hr, Hw;
    try discriminate.
  - injection Hr as <-. auto.
  - injection Hr as <-. now apply IH.
Qed.

Lemma resume_same_store {A} (net : web) (t : coro A) (w1 w2 : world) :
  same_store w1 w2 ->
  fst (resume net t w1) = fst (resume net t w2)
  /\ same_store (snd (resume net t w1)) (snd (resume net t w2)).
Proof.
  revert w1 w2; induction t as [a | e | c k IH]; intros w1 w2 Hs; simpl;
    [auto | auto |].
  destruct (perform_same_store net c w1 w2 Hs) as [Hr Hw].
  destruct (perform net c w1) as [[e1 | x1] w1'],
           (perform net c w2) as [[e2 | x2] w2']; simpl in Hr, Hw;
    try discriminate.
  - injection Hr as <-. auto.
  - injection Hr as <-. destruct (suspends c); [auto | now apply IH].
Qed.

Lemma drain_same_store {A} (net : web) (tasks : list (coro A)) (w1 w2 : world) :
  same_store w1 w2 ->
  fst (drain net tasks w1) = fst (drain net tasks w2)
  /\ same_store (snd (drain net tasks w1)) (snd (drain net tasks w2)).
Proof.
  revert w1 w2; induction tasks as [| t rest IH]; intros w1 w2 Hs; simpl;
    [auto |].
  destruct (run_same_store net t w1 w2 Hs) as [Hr Hw].
  destruct (run net t w1) as [[e1 | a1] w1'],
           (run net t w2) as [[e2 | a2] w2']; simpl in Hr, Hw;
    try discriminate.
  - injection Hr as <-. auto.
  - injection Hr as <-. destruct (IH w1' w2' Hw) as [Hr' Hw'].
    destruct (drain net rest w1') as [[e1 | r1] w1''],
             (drain net rest w2') as [[e2 | r2] w2'']; simpl in Hr', Hw';
      try discriminate; injection Hr' as <-; auto.
Qed.

(** *** Lists of tasks *)

Lemma set_nth_length {A} (i : nat) (x : A) (l : list A) :
  List.length (set_nth i x l) = List.length l.
Proof.
  revert i; induction l as [| y l IH]; intros [| i]; simpl; auto.
Qed.

Lemma set_nth_app1 {A} (i : nat) (x : A) (l1 l2 : list A) :
  (i < List.length l1)%nat -> set_nth i x (l1 ++ l2) = (set_nth i x l1 ++ l2)%list.
Proof.
  revert i; induction l1 as [| y l1 IH]; intros [| i] Hi; simpl in *;
    try lia; [reflexivity |].
  now rewrite IH by lia.
Qed.

Lemma set_nth_app2 {A} (i : nat) (x : A) (l1 l2 : list A) :
  (List.length l1 <= i)%nat ->
  set_nth i x (l1 ++ l2) = (l1 ++ set_nth (i - List.length l1) x l2)%list.
Proof.
  revert i; induction l1 as [| y l1 IH]; intros i Hi; simpl in *.
  - now rewrite Nat.sub_0_r.
  - destruct i as [| i]; [lia |]. simpl. now rewrite IH by lia.
Qed.

Lemma with_result_at_cons {A} (i : nat) (a b : A) (r : result (list A)) :
  with_result_at (S i) a
    (match r with inl e => inl e | inr rs => inr (b :: rs) end)
  = match with_result_at i a r with inl e => inl e | inr rs => inr (b :: rs) end.
Proof. destruct r; reflexivity. Qed.

Lemma nth_error_middle {A} (pre post : list A) (t : A) :
  nth_error (pre ++ t :: post) (List.length pre) = Some t.
Proof. induction pre; simpl; auto. Qed.

Lemma nth_error_after {A} (pre post : list A) (t : A) (m : nat) :
  nth_error (pre ++ t :: post) (List.length pre + S m) = nth_error post m.
Proof. induction pre; simpl; auto. Qed.

Lemma nth_error_beyond {A} (pre post : list A) (m : nat) :
  nth_error (pre ++ post) (List.length pre + m) = nth_error post m.
Proof. induction pre; simpl; auto. Qed.

Lemma set_nth_middle {A} (pre post : list A) (t x : A) :
  set_nth (List.length pre) x (pre ++ t :: post) = (pre ++ x :: post)%list.
Proof. induction pre; simpl; [reflexivity | now f_equal]. Qed.

Lemma set_nth_after {A} (pre post : list A) (t x : A) (m : nat) :
  set_nth (List.length pre + S m) x (pre ++ t :: post)
  = (pre ++ t :: set_nth m x post)%list.
Proof. induction pre; simpl; [reflexivity | now f_equal]. Qed.

Lemma set_nth_beyond {A} (pre post : list A) (x : A) (m : nat) :
  set_nth (List.length pre + m) x (pre ++ post) = (pre ++ set_nth m x post)%list.
Proof. induction pre; simpl; [reflexivity | now f_equal]. Qed.

Section Idle.

Variable net : web.

Lemma idle_ret : idle net (Ret O).
Proof. intros w. exists w. repeat split. Qed.

Lemma idle_fetch_feed (h : string -> string) (url : string) :
  soft_failure net url -> idle net (fetch_feed h url).
Proof.
  unfold soft_failure. intros Hsoft w. exists (logged w (Requested url)).
  unfold fetch_feed. simpl. rewrite Hsoft. simpl. repeat split.
Qed.

Lemma drain_skip (pre post : list (coro nat)) (t : coro nat) (w1 w2 : world) :
  idle net t -> same_store w1 w2 ->
  fst (drain net (pre ++ t :: post) w1)
  = with_result_at (List.length pre) O (fst (drain net (pre ++ post) w2))
  /\ same_store (snd (drain net (pre ++ t :: post) w1))
                (snd (drain net (pre ++ post) w2)).
Proof.
  intros Hidle. revert w1 w2; induction pre as [| p pre IH]; intros w1 w2 Hs.
  - simpl. destruct (Hidle w1) as (w1' & _ & Hrun & Hs1). rewrite Hrun.
    assert (Hs' : same_store w1' w2)
      by (eapply same_store_trans; [apply same_store_sym |]; eassumption).
    destruct (drain_same_store net post w1' w2 Hs') as [Hr Hw].
    destruct (drain net post w1') as [[e1 | r1] w1''],
             (drain net post w2) as [[e2 | r2] w2']; simpl in *;
      try discriminate; injection Hr as <-; auto.
  - simpl. destruct (run_same_store net p w1 w2 Hs) as [Hr Hw].
    destruct (run net p w1) as [[e1 | a1] w1'],
             (run net p w2) as [[e2 | a2] w2']; simpl in Hr, Hw;
      try discriminate; injection Hr as <-; [auto |].
    destruct (IH w1' w2' Hw) as [Hr' Hw'].
    destruct (drain net (pre ++ t :: post) w1') as [[e1 | r1] w1''],
             (drain net (pre ++ post) w2') as [[e2 | r2] w2''];
      simpl in *; try discriminate; try injection Hr' as <-; auto.
Qed.

(** A task that is idle takes nothing from the others: whatever the
    schedule, the gather ends as it does without that task, with a 0 at its
    place among the results. *)
Lemma gather_skip (sched : list nat) (pre post : list (coro nat))
  (t : coro nat) (w1 w2 : world) :
  idle net t -> same_store w1 w2 ->
  fst (gather net sched (pre ++ t :: post) w1)
  = with_result_at (List.length pre) O
      (fst (gather net (skip_turns (List.length pre) sched) (pre ++ post) w2))
  /\ same_store (snd (gather net sched (pre ++ t :: post) w1))
                (snd (gather net (skip_turns (List.length pre) sched)
                             (pre ++ post) w2)).
Proof.
  revert pre post t w1 w2; induction sched as [| j sched IH];
    intros pre post t w1 w2 Hidle Hs.
  - apply drain_skip; assumption.
  - cbn [skip_turns gather].
    destruct (Nat.ltb_spec j (List.length pre)) as [Hlt | Hge].
    + (* a turn of an earlier task *)
      cbn [gather]. rewrite !nth_error_app1 by exact Hlt.
      destruct (nth_error pre j) as [tj |] eqn:Hj;
        [| apply nth_error_None in Hj; lia].
      destruct (resume_same_store net tj w1 w2 Hs) as [Hr Hw].
      destruct (resume net tj w1) as [p1 w1'], (resume net tj w2) as [p2 w2'].
      simpl in Hr, Hw. subst p2.
      destruct p1 as [a | t' | e]; [| | simpl; auto];
        rewrite !set_nth_app1 by exact Hlt;
        match goal with
        | |- context [set_nth j ?x pre] =>
            rewrite <- (set_nth_length j x pre); now apply IH
        end.
    + destruct (Nat.eqb_spec j (List.length pre)) as [-> | Hne].
      * (* the turn of the idle task *)
        rewrite nth_error_middle.
        destruct (Hidle w1) as (w1' & Hres & _ & Hs1). rewrite Hres.
        rewrite set_nth_middle. apply IH; [apply idle_ret |].
        eapply same_store_trans; [apply same_store_sym |]; eassumption.
      * (* a turn of a later task *)
        assert (Hm : exists m, j = (List.length pre + S m)%nat)
          by (exists (j - List.length pre - 1)%nat; lia).
        destruct Hm as [m ->]. cbn [gather].
        replace (List.length pre + S m - 1)%nat with (List.length pre + m)%nat
          by lia.
        rewrite nth_error_after, nth_error_beyond.
        destruct (nth_error post m) as [tj |]; [| now apply IH].
        destruct (resume_same_store net tj w1 w2 Hs) as [Hr Hw].
        destruct (resume net tj w1) as [p1 w1'], (resume net tj w2) as [p2 w2'].
        simpl in Hr, Hw. subst p2.
        destruct p1 as [a | t' | e]; [| | simpl; auto];
          rewrite set_nth_after, set_nth_beyond; now apply IH.
Qed.

End Idle.

(* ------------------------------------------------------------------ *)
(** ** Every cycle requests every source *)

Lemma requests_app (url : string) (j1 j2 : list event) :
  requests url (j1 ++ j2) = (requests url j1 + requests url j2)%nat.
Proof.
  induction j1 as [| [u | n | us] j1 IH]; simpl; auto. rewrite IH. lia.
Qed.

Lemma offline_bind {A B} (m : coro A) (f : A -> coro B) :
  offline m -> (forall a, offline (f a)) -> offline (bind m f).
Proof.
  induction m as [a | e | c k IH]; simpl; auto.
  intros [Hc Hk] Hf. split; [exact Hc | intro x; apply IH; auto].
Qed.

Lemma offline_lift {A} (r : result A) : offline (lift r).
Proof. destruct r; exact I. Qed.

Lemma offline_each {A B} (f : A -> coro B) (xs : list A) :
  (forall x, offline (f x)) -> offline (each f xs).
Proof.
  intros Hf. induction xs as [| x xs IH]; simpl; [exact I |].
  apply offline_bind; [apply Hf |]. intros y.
  apply offline_bind; [exact IH | intros ys; exact I].
Qed.

Lemma offline_store_entry (h : string -> string) (feed : string)
  (entry : RawEntry) :
  offline (store_entry h feed entry).
Proof.
  destruct entry as [e | t s p u]; [| exact I].
  unfold store_entry, parse_datetime, await. cbv zeta.
  repeat first
    [ exact I
    | apply offline_lift
    | apply offline_bind
    | split
    | intro
    | match goal with
      | |- offline (match ?x with _ => _ end) => destruct x
      | |- offline (if ?x then _ else _) => destruct x
      end
    | progress simpl ].
Qed.

Lemma perform_journal (net : web) (c : call) (w : world) :
  match c with Parse _ => False | _ => True end ->
  journal (snd (perform net c w)) = journal w.
Proof.
  destruct c; simpl; try contradiction; intros _; try reflexivity;
    destruct (Db.io (conn w)); try reflexivity.
  destruct (Db.insert r c); reflexivity.
Qed.

Lemma run_offline {A} (net : web) (t : coro A) (w : world) :
  offline t -> journal (snd (run net t w)) = journal w.
Proof.
  revert w; induction t as [a | e | c k IH]; intros w; simpl; auto.
  intros [Hc Hk]. pose proof (perform_journal net c w Hc) as Hj.
  destruct (perform net c w) as [[e | x] w']; simpl in *; [exact Hj |].
  now rewrite IH.
Qed.

Lemma resume_offline {A} (net : web) (t : coro A) (w : world) :
  offline t ->
  journal (snd (resume net t w)) = journal w
  /\ forall t', fst (resume net t w) = Suspended t' -> offline t'.
Proof.
  revert w; induction t as [a | e | c k IH]; intros w; simpl.
  - intros _. split; [reflexivity | discriminate].
  - intros _. split; [reflexivity | discriminate].
  - intros [Hc Hk]. pose proof (perform_journal net c w Hc) as Hj.
    destruct (perform net c w) as [[e | x] w']; simpl in *.
    + split; [exact Hj | discriminate].
    + destruct (suspends c); simpl.
      * split; [exact Hj |]. intros t' [= <-]. apply Hk.
      * destruct (IH x w' (Hk x)) as [Hj' Ht']. split; [congruence | exact Ht'].
Qed.

(** The first turn of [fetch_feed]: one request, and what is left of the task
    no longer calls feedparser. *)
Lemma resume_fetch_feed (h : string -> string) (net : web) (url : string)
  (w : world) :
  journal (snd (resume net (fetch_feed h url) w))
  = (journal w ++ [Requested url])%list
  /\ forall t', fst (resume net (fetch_feed h url) w) = Suspended t' -> offline t'.
Proof.
  unfold fetch_feed. simpl.
  destruct (net url) as [e | parsed]; simpl; [split; [reflexivity | discriminate] |].
  match goal with
  | |- context [resume net ?t ?w0] =>
      assert (Hoff : offline t);
      [| destruct (resume_offline net t w0 Hoff) as [Hj Ht'] ]
  end.
  { apply offline_bind; [| intros; exact I].
    apply offline_each. intro; apply offline_store_entry. }
  split; [rewrite Hj; reflexivity | exact Ht'].
Qed.

Lemma run_fetch_feed_journal (h : string -> string) (net : web) (url : string)
  (w : world) :
  journal (snd (run net (fetch_feed h url) w)) = (journal w ++ [Requested url])%list.
Proof.
  unfold fetch_feed. simpl.
  destruct (net url) as [e | parsed]; simpl; [reflexivity |].
  rewrite run_offline; [reflexivity |].
  apply offline_bind; [| intros; exact I].
  apply offline_each. intro; apply offline_store_entry.
Qed.

Section Requests.

Variable h : string -> string.
Variable net : web.
Variable url : string.

Lemma requests_one (u : string) (j : list event) :
  requests url (j ++ [Requested u])
  = (requests url j + (if String.eqb u url then 1 else 0))%nat.
Proof. rewrite requests_app. simpl. lia. Qed.

Lemma drain_requests (states : list (option string)) (tasks : list (coro nat))
  (w w' : world) (rs : list nat) :
  Forall2 (task_state h) states tasks ->
  drain net tasks w = (ok rs, w') ->
  requests url (journal w') = (requests url (journal w) + pending url states)%nat.
Proof.
  intros Hst. revert w rs; induction Hst as [| st t states tasks Ht Hrest IH];
    intros w rs; simpl.
  - intros [= _ <-]. lia.
  - pose proof (fun Hoff => run_offline net t w Hoff) as Hquiet.
    pose proof (run_fetch_feed_journal h net) as Hfresh.
    destruct (run net t w) as [[e | a] w1] eqn:Hrun; [discriminate |].
    destruct (drain net tasks w1) as [[e | others] w2] eqn:Hd; [discriminate |].
    intros [= _ <-]. rewrite (IH _ _ Hd).
    destruct Ht as [u | t Hoff].
    + specialize (Hfresh u w). rewrite Hrun in Hfresh. simpl in Hfresh.
      rewrite Hfresh, requests_one. lia.
    + specialize (Hquiet Hoff). simpl in Hquiet. now rewrite Hquiet.
Qed.

Lemma task_state_set (states : list (option string)) (tasks : list (coro nat))
  (i : nat) (t : coro nat) :
  Forall2 (task_state h) states tasks -> offline t ->
  Forall2 (task_state h) (set_nth i None states) (set_nth i t tasks).
Proof.
  intros Hst Hoff. revert i; induction Hst as [| st t0 states tasks Ht Hrest IH];
    intros [| i]; simpl; constructor; auto. now constructor.
Qed.

Lemma pending_set (states : list (option string)) (tasks : list (coro nat))
  (i : nat) (t : coro nat) :
  Forall2 (task_state h) states tasks ->
  nth_error tasks i = Some t ->
  exists st,
    task_state h st t
    /\ pending url states
       = (pending url (set_nth i None states)
          + match st with
            | Some u => if String.eqb u url then 1 else 0
            | None => 0
            end)%nat.
Proof.
  intros Hst. revert i; induction Hst as [| st t0 states tasks Ht Hrest IH];
    intros [| i]; simpl; try discriminate.
  - intros [= <-]. exists st. split; [exact Ht |]. destruct st; lia.
  - intros Hi. destruct (IH i Hi) as (st' & Hst' & Hp). exists st'.
    split; [exact Hst' |]. destruct st; lia.
Qed.

(** A gather that completes has requested every source that had not been
    requested yet, once, whatever the schedule. *)
Lemma gather_requests (sched : list nat) (states : list (option string))
  (tasks : list (coro nat)) (w w' : world) (rs : list nat) :
  Forall2 (task_state h) states tasks ->
  gather net sched tasks w = (ok rs, w') ->
  requests url (journal w') = (requests url (journal w) + pending url states)%nat.
Proof.
  revert states tasks w; induction sched as [| i sched IH];
    intros states tasks w Hst; simpl.
  - now apply drain_requests.
  - destruct (nth_error tasks i) as [t |] eqn:Hi; [| now apply IH].
    destruct (pending_set states tasks i t Hst Hi) as (st & Ht & Hp).
    assert (Hturn :
      requests url (journal (snd (resume net t w)))
      = (requests url (journal w)
         + match st with
           | Some u => if String.eqb u url then 1 else 0
           | None => 0
           end)%nat
      /\ forall t', fst (resume net t w) = Suspended t' -> offline t').
    { destruct Ht as [u | t Hoff].
      - destruct (resume_fetch_feed h net u w) as [Hj Hs].
        split; [now rewrite Hj, requests_one | exact Hs].
      - destruct (resume_offline net t w Hoff) as [Hj Hs].
        split; [rewrite Hj; lia | exact Hs]. }
    destruct Hturn as [Hj Hs].
    destruct (resume net t w) as [[a | t' | e] w1]; simpl in Hj, Hs;
      [| | discriminate]; intros Hg.
    + rewrite (IH (set_nth i None states) _ _
                  (task_state_set _ _ i (Ret a) Hst I) Hg). lia.
    + rewrite (IH (set_nth i None states) _ _
                  (task_state_set _ _ i t' Hst (Hs t' eq_refl)) Hg). lia.
Qed.

End Requests.

Lemma fresh_tasks (h : string -> string) (urls : list string) :
  Forall2 (task_state h) (map Some urls) (map (fetch_feed h) urls).
Proof. induction urls; simpl; constructor; auto. constructor. Qed.

Lemma cycle_requests (h : string -> string) (net : web) (sched : list nat)
  (url : string) (w w' : world) :
  cycle h net sched w = (ok tt, w') ->
  requests url (journal w')
  = (requests url (journal w) + pending url (map Some FEEDS))%nat.
Proof.
  unfold cycle, pbind, log_info, sleep, plift.
  change (run net (await Now) w) with (ok (now_of w), tick w).
  unfold ok. cbv beta iota.
  destruct (gather net sched (map (fetch_feed h) FEEDS) (tick w))
    as [[e | added] w2] eqn:Hg; [discriminate |].
  change (run net (await Now) (logged w2 (CycleFinished (sum_nats added))))
    with (ok (now_of (logged w2 (CycleFinished (sum_nats added)))),
          tick (logged w2 (CycleFinished (sum_nats added)))).
  unfold ok. cbv beta iota.
  match goal with
  | |- context [diff ?a ?b] => destruct (diff a b) as [e | elapsed]
  end; [discriminate |].
  intros H. apply (f_equal snd) in H. cbn [snd] in H. rewrite <- H.
  pose proof (gather_requests h net url sched _ _ _ _ _ (fresh_tasks h FEEDS) Hg)
    as Hreq.
  change (journal (tick w)) with (journal w) in Hreq.
  unfold logged, tick. cbn [journal]. rewrite !requests_app, Hreq.
  cbn [requests]. lia.
Qed.

Lemma poll_cycles_requests (h : string -> string) (cycles k : nat)
  (nets : nat -> web) (scheds : nat -> list nat) (url : string) (w w' : world) :
  poll_cycles h cycles k nets scheds w = (ok tt, w') ->
  requests url (journal w')
  = (requests url (journal w) + cycles * pending url (map Some FEEDS))%nat.
Proof.
  revert k w; induction cycles as [| n IH]; intros k w; cbn [poll_cycles].
  - intros [= <-]. lia.
  - unfold pbind.
    destruct (cycle h (nets k) (scheds k) w) as [[e | []] w1] eqn:Hc;
      [discriminate |].
    intros H. rewrite (IH _ _ H), (cycle_requests _ _ _ url _ _ Hc).
    rewrite Nat.mul_succ_l. lia.
Qed.

Lemma pending_FEEDS (url : string) :
  In url FEEDS -> pending url (map Some FEEDS) = 1%nat.
Proof.
  intros Hin. repeat (destruct Hin as [<- | Hin]; [reflexivity |]).
  contradiction.
Qed.

(** A cycle raises only what its gather raises. *)
Lemma cycle_crash (h : string -> string) (net : web) (sched : list nat)
  (w : world) (e : exn) :
  fst (cycle h net sched w) = raise e ->
  fst (gather net sched (map (fetch_feed h) FEEDS) (tick w)) = raise e.
Proof.
  unfold cycle, pbind, log_info, sleep, plift.
  change (run net (await Now) w) with (ok (now_of w), tick w).
  unfold ok. cbv beta iota.
  destruct (gather net sched (map (fetch_feed h) FEEDS) (tick w))
    as [[e' | added] w2].
  - cbv beta iota. cbn [fst]. unfold raise. now intros [= ->].
  - cbv beta iota.
    change (run net (await Now) (logged w2 (CycleFinished (sum_nats added))))
      with (ok (now_of (logged w2 (CycleFinished (sum_nats added)))),
            tick (logged w2 (CycleFinished (sum_nats added)))).
    unfold ok, diff. cbn [tzinfo now_of]. cbv beta iota.
    cbn [fst]. discriminate.
Qed.

(* ------------------------------------------------------------------ *)
(** ** A source whose fetch raises *)

Lemma doomed_fetch_feed (h : string -> string) (net : web) (url : string)
  (e : exn) :
  net url = raise e -> doomed net (fetch_feed h url).
Proof.
  intros Hnet w. exists e, (logged w (Requested url)).
  unfold fetch_feed. simpl. rewrite Hnet. split; reflexivity.
Qed.

Lemma nth_error_set_nth_other {A} (i j : nat) (x : A) (l : list A) :
  i <> j -> nth_error (set_nth j x l) i = nth_error l i.
Proof.
  revert i j; induction l as [| y l IH]; intros [| i] [| j] Hne; simpl;
    try reflexivity; try congruence.
  apply IH. congruence.
Qed.

Lemma drain_doomed (net : web) (tasks : list (coro nat)) (i : nat)
  (t : coro nat) (w : world) :
  nth_error tasks i = Some t -> doomed net t ->
  exists e w', drain net tasks w = (raise e, w').
Proof.
  intros Hi Hdoom. revert i w Hi; induction tasks as [| t0 rest IH];
    intros [| i] w Hi; simpl in Hi; try discriminate.
  - injection Hi as ->. destruct (Hdoom w) as (e & w' & _ & Hrun).
    exists e, w'. simpl. now rewrite Hrun.
  - simpl. destruct (run net t0 w) as [[e | a] w1]; [now exists e, w1 |].
    destruct (IH i w1 Hi) as (e & w' & Hd). exists e, w'. now rewrite Hd.
Qed.

(** Whatever the schedule, a gather with a task that is bound to raise
    raises. *)
Lemma gather_doomed (net : web) (sched : list nat) (tasks : list (coro nat))
  (i : nat) (t : coro nat) (w : world) :
  nth_error tasks i = Some t -> doomed net t ->
  exists e w', gather net sched tasks w = (raise e, w').
Proof.
  intros Hi Hdoom. revert tasks w Hi; induction sched as [| j sched IH];
    intros tasks w Hi; simpl.
  - now apply (drain_doomed net tasks i t).
  - destruct (nth_error tasks j) as [tj |] eqn:Hj; [| now apply IH].
    destruct (Nat.eq_dec i j) as [<- | Hne].
    + rewrite Hi in Hj. injection Hj as <-.
      destruct (Hdoom w) as (e & w' & Hres & _). rewrite Hres. now exists e, w'.
    + destruct (resume net tj w) as [[a | t' | e] w1];
        [| | now exists e, w1];
        apply IH; now rewrite nth_error_set_nth_other.
Qed.

Lemma poll_loop_doomed (h : string -> string) (cycles : nat)
  (nets : nat -> web) (scheds : nat -> list nat) (w : world)
  (url : string) (e : exn) :
  In url FEEDS -> nets O url = raise e ->
  exists e', fst (poll_loop h (S cycles) nets scheds w) = raise e'.
Proof.
  intros Hin Hnet. unfold poll_loop, pbind.
  destruct (run (nets O) init_db w) as [[e0 | []] w0]; [now exists e0 |].
  cbn [poll_cycles]. unfold pbind, cycle at 1. unfold pbind.
  change (run (nets O) (await Now) w0) with (ok (now_of w0), tick w0).
  unfold ok. cbv beta iota.
  destruct (In_nth_error _ _ Hin) as [i Hi].
  destruct (gather_doomed (nets O) (scheds O) (map (fetch_feed h) FEEDS) i
              (fetch_feed h url) (tick w0))
    as (e' & w' & Hg).
  - now apply map_nth_error.
  - now apply (doomed_fetch_feed h (nets O) url e).
  - rewrite Hg. now exists e'.
Qed.

(** C6, as amended.  A fetch failure that feedparser reports in its result
    (bozo set, no entries) is isolated: whatever the schedule, the gather over
    the sources ends as the gather over the other sources does, same store,
    same results with a 0 for the failed source, and it raises only if that
    one does; a cycle raises only what its gather raises; and every cycle that
    poll_loop completes has requested every source of FEEDS once more, the
    failed ones too.  A fetch whose exception leaves feedparser is not
    isolated: whatever the schedule, poll_loop ends with an exception in its
    first cycle. *)
Theorem soft_fetch_failure_is_isolated (h : string -> string) :
  (forall net sched pre url post w,
      soft_failure net url ->
      fst (gather net sched (map (fetch_feed h) (pre ++ url :: post)) w)
      = with_result_at (List.length pre) O
          (fst (gather net (skip_turns (List.length pre) sched)
                       (map (fetch_feed h) (pre ++ post)) w))
      /\ same_store
           (snd (gather net sched (map (fetch_feed h) (pre ++ url :: post)) w))
           (snd (gather net (skip_turns (List.length pre) sched)
                        (map (fetch_feed h) (pre ++ post)) w)))
  /\ (forall net sched w e,
         fst (cycle h net sched w) = raise e ->
         fst (gather net sched (map (fetch_feed h) FEEDS) (tick w)) = raise e)
  /\ (forall cycles nets scheds w w' url,
         In url FEEDS ->
         poll_loop h cycles nets scheds w = (ok tt, w') ->
         requests url (journal w') = (requests url (journal w) + cycles)%nat)
  /\ (forall cycles nets scheds w url e,
         In url FEEDS -> nets O url = raise e ->
         exists e', fst (poll_loop h (S cycles) nets scheds w) = raise e').
Proof.
  split; [| split; [| split]].
  - intros net sched pre url post w Hsoft.
    rewrite !map_app. cbn [map].
    rewrite <- (length_map (fetch_feed h) pre).
    apply gather_skip; [now apply idle_fetch_feed | apply same_store_refl].
  - intros net sched w e. apply cycle_crash.
  - intros cycles nets scheds w w' url Hin. unfold poll_loop, pbind.
    pose proof (run_offline (nets O) init_db w) as Hinit.
    destruct (run (nets O) init_db w) as [[e | []] w1]; [discriminate |].
    intros H. rewrite (poll_cycles_requests _ _ _ _ _ url _ _ H).
    rewrite (pending_FEEDS url Hin). simpl in Hinit.
    rewrite Hinit; [lia |]. repeat split.
  - intros cycles nets scheds w url e. apply poll_loop_doomed.
Qed.

(** Witness of C6: the world feed fails softly in both cycles and is
    requested in both; its task takes nothing from the gather of the others;
    and a world feed whose fetch raises ends the loop. *)
Lemma soft_fetch_failure_is_isolated_witness :
  requests world_feed
    (journal (snd (poll_loop sample_digest 2 (fun _ => bozo_net)
                             (fun _ => first_turns) new_world)))
  = 2%nat
  /\ fst (gather bozo_net first_turns
                 (map (fetch_feed sample_digest)
                      (["http://rss.cnn.com/rss/cnn_topstories.rss"]
                       ++ world_feed :: tl (tl FEEDS)))
                 new_world)
     = with_result_at 1 O
         (fst (gather bozo_net (skip_turns 1 first_turns)
                      (map (fetch_feed sample_digest)
                           (["http://rss.cnn.com/rss/cnn_topstories.rss"]
                            ++ tl (tl FEEDS)))
                      new_world))
  /\ exists e,
       fst (poll_loop sample_digest 1 (fun _ => broken_net)
                      (fun _ => first_turns) new_world) = raise e.
Proof.
  split; [| split].
  - apply (proj1 (proj2 (proj2 (soft_fetch_failure_is_isolated sample_digest)))
             2%nat (fun _ => bozo_net) (fun _ => first_turns) new_world _
             world_feed).
    + right. left. reflexivity.
    + vm_compute. reflexivity.
  - apply (proj1 (soft_fetch_failure_is_isolated sample_digest) bozo_net
             first_turns ["http://rss.cnn.com/rss/cnn_topstories.rss"]
             world_feed (tl (tl FEEDS)) new_world).
    reflexivity.
  - apply (proj2 (proj2 (proj2 (soft_fetch_failure_is_isolated sample_digest)))
             O (fun _ => broken_net) (fun _ => first_turns) new_world world_feed
             ConnectionError).
    + right. left. reflexivity.
    + reflexivity.
Defined.

(** Counterexample to C6 as stated: when the exception of a fetch leaves
    feedparser, nothing catches it.  The first cycle is not finished, the
    loop ends with the exception, and the source is not requested again. *)
Lemma fetch_exception_ends_run_loop :
  let out := poll_loop sample_digest 2 (fun _ => broken_net)
                       (fun _ => first_turns) new_world in
  fst out = raise ConnectionError
  /\ cycles_finished (journal (snd out)) = O
  /\ requests world_feed (journal (snd out)) = 1%nat.
Proof. vm_compute. repeat split. Qed.

(** Witness of C5: the seventh storage call, the INSERT of the second item,
    fails and fetch_feed raises; and a loop that completes two cycles met
    fair weather. *)
Lemma storage_error_propagates_witness :
  fst (run busy_net (fetch_feed sample_digest world_feed)
           (mk_world (mk_connection (Some []) (repeat false 6 ++ [true])%list)
                     (fun _ => sample_now) O []))
  = raise OperationalError
  /\ fair_weather new_world
       (snd (poll_loop sample_digest 2 (fun _ => busy_net)
                       (fun _ => first_turns) new_world)).
Proof.
  split.
  - erewrite (proj1 (storage_error_propagates sample_digest) busy_net world_feed
                _ [with_link boundary_item] updated_item
                [with_link bare_item]);
      reflexivity.
  - apply (proj2 (proj2 (proj2 (storage_error_propagates sample_digest)))
             2%nat (fun _ => busy_net) (fun _ => first_turns) new_world).
    vm_compute. reflexivity.
Defined.

(** Counterexample to C5 as stated: the INSERT of the second item of the
    world feed fails.  The third item of that feed, which is stored when the
    weather is fair, is never processed, no cycle is finished, and the loop
    ends with the error. *)
Lemma storage_error_ends_run_loop :
  let out := poll_loop sample_digest 2 (fun _ => busy_net)
                       (fun _ => first_turns) stormy_world in
  let fair := poll_loop sample_digest 2 (fun _ => busy_net)
                        (fun _ => first_turns) new_world in
  fst out = raise OperationalError
  /\ cycles_finished (journal (snd out)) = O
  /\ Db.rows_with_id (article_id sample_digest (link bare_item)) (conn (snd out))
     = []
  /\ List.length (Db.rows_with_id (article_id sample_digest (link bare_item))
                                  (conn (snd fair))) = 1%nat.
Proof. vm_compute. repeat split. Qed.

(* ------------------------------------------------------------------ *)
(** ** What holds at every moment *)

(** Anything that every call maintains, whether it succeeds or raises, holds
    after every coroutine, gather, cycle and loop, however they end. *)
Section Always.

Variable Q : world -> Prop.
Hypothesis Q_perform : forall net c w, Q w -> Q (snd (perform net c w)).
Hypothesis Q_logged : forall w e, Q w -> Q (logged w e).

Lemma run_always {A} (net : web) (t : coro A) (w : world) :
  Q w -> Q (snd (run net t w)).
Proof.
  revert w; induction t as [a | e | c k IH]; intros w Hw; simpl; auto.
  pose proof (Q_perform net c w Hw) as Hc.
  destruct (perform net c w) as [[e | x] w1]; simpl in *; auto.
Qed.

Lemma resume_always {A} (net : web) (t : coro A) (w : world) :
  Q w -> Q (snd (resume net t w)).
Proof.
  revert w; induction t as [a | e | c k IH]; intros w Hw; simpl; auto.
  pose proof (Q_perform net c w Hw) as Hc.
  destruct (perform net c w) as [[e | x] w1]; simpl in *; auto.
  destruct (suspends c); simpl; auto.
Qed.

Lemma drain_always {A} (net : web) (tasks : list (coro A)) (w : world) :
  Q w -> Q (snd (drain net tasks w)).
Proof.
  revert w; induction tasks as [| t rest IH]; intros w Hw; simpl; auto.
  pose proof (run_always net t w Hw) as Ht.
  destruct (run net t w) as [[e | a] w1]; simpl in *; auto.
  pose proof (IH w1 Ht) as Hrest.
  destruct (drain net rest w1) as [[e | others] w2]; simpl in *; auto.
Qed.

Lemma gather_always {A} (net : web) (sched : list nat) (tasks : list (coro A))
  (w : world) :
  Q w -> Q (snd (gather net sched tasks w)).
Proof.
  revert tasks w; induction sched as [| i sched IH]; intros tasks w Hw; simpl.
  - now apply drain_always.
  - destruct (nth_error tasks i) as [t |]; [| now apply IH].
    pose proof (resume_always net t w Hw) as Ht.
    destruct (resume net t w) as [[a | t' | e] w1]; simpl in *; auto.
Qed.

Lemma cycle_always (h : string -> string) (net : web) (sched : list nat)
  (w : world) :
  Q w -> Q (snd (cycle h net sched w)).
Proof.
  intros Hw. unfold cycle, pbind, log_info, sleep, plift.
  pose proof (run_always net (await Now) w Hw) as H1.
  destruct (run net (await Now) w) as [[e | start] w1]; [exact H1 |].
  pose proof (gather_always net sched (map (fetch_feed h) FEEDS) w1 H1) as H2.
  destruct (gather net sched (map (fetch_feed h) FEEDS) w1) as [[e | added] w2];
    [exact H2 |].
  cbn [snd] in H2.
  pose proof (run_always net (await Now) _
                (Q_logged w2 (CycleFinished (sum_nats added)) H2)) as H3.
  destruct (run net (await Now) (logged w2 (CycleFinished (sum_nats added))))
    as [[e | stop] w3]; [exact H3 |].
  cbn [snd] in H3.
  destruct (diff stop start) as [e | elapsed]; [exact H3 |].
  cbn [snd]. now apply Q_logged.
Qed.

Lemma poll_cycles_always (h : string -> string) (cycles k : nat)
  (nets : nat -> web) (scheds : nat -> list nat) (w : world) :
  Q w -> Q (snd (poll_cycles h cycles k nets scheds w)).
Proof.
  revert k w; induction cycles as [| n IH]; intros k w Hw; cbn [poll_cycles].
  - exact Hw.
  - unfold pbind. pose proof (cycle_always h (nets k) (scheds k) w Hw) as Hc.
    destruct (cycle h (nets k) (scheds k) w) as [[e | []] w1]; [exact Hc |].
    now apply IH.
Qed.

Lemma poll_loop_always (h : string -> string) (cycles : nat)
  (nets : nat -> web) (scheds : nat -> list nat) (w : world) :
  Q w -> Q (snd (poll_loop h cycles nets scheds w)).
Proof.
  intros Hw. unfold poll_loop, pbind.
  pose proof (run_always (nets O) init_db w Hw) as Hi.
  destruct (run (nets O) init_db w) as [[e | []] w1]; [exact Hi |].
  now apply poll_cycles_always.
Qed.

End Always.

(** *** The primary key *)

Lemma has_id_In (aid : string) (rows : list row) :
  Db.has_id aid rows = false -> ~ In aid (map r_id rows).
Proof.
  unfold Db.has_id. induction rows as [| r rows IH]; simpl; [tauto |].
  destruct (String.eqb_spec (r_id r) aid) as [-> | Hne]; simpl;
    [discriminate |].
  intros H [Heq | Hin]; [congruence | now apply IH].
Qed.

Lemma keyed_io (w : world) (c' : connection) :
  Db.io (conn w) = ok c' -> keyed w -> keyed (with_conn w c').
Proof.
  intros Hio. unfold keyed. simpl. now rewrite (io_articles _ _ Hio).
Qed.

Lemma perform_keyed (net : web) (c : call) (w : world) :
  keyed w -> keyed (snd (perform net c w)).
Proof.
  intros Hw. destruct c; simpl; try exact Hw;
    destruct (Db.io (conn w)) as [e | c'] eqn:Hio; simpl; try exact Hw;
    pose proof (keyed_io w c' Hio Hw) as Hk; try exact Hk;
    unfold keyed in Hk |- *; simpl in Hk |- *.
  - unfold Db.create_table.
    destruct (articles c') as [rows |] eqn:Ha; simpl;
      [now rewrite Ha | constructor].
  - unfold Db.insert.
    destruct (articles c') as [rows |] eqn:Ha; simpl; [| now rewrite Ha].
    destruct (Db.has_id (r_id r) rows) eqn:Hnew; simpl; [now rewrite Ha |].
    destruct (r_title r); simpl; [| now rewrite Ha].
    rewrite map_app. simpl. apply NoDup_app; [exact Hk | | ].
    + repeat constructor. simpl. tauto.
    + intros x Hx [<- | []]. now apply (has_id_In _ _ Hnew).
Qed.

(** When two feeds carry the same link and their tasks take turns, both find
    the link absent; the second INSERT then violates the primary key, and the
    IntegrityError ends the loop. *)
Example same_link_in_two_feeds :
  let out := poll_loop sample_digest 1 (fun _ => echo_net)
                       (fun _ => alternating) new_world in
  fst out = raise IntegrityError
  /\ List.length (Db.rows_with_id (article_id sample_digest (link us_item))
                                  (conn (snd out))) = 1%nat.
Proof. vm_compute. split; reflexivity. Qed.

(* ------------------------------------------------------------------ *)
(** ** The count of new articles *)

Lemma tallies_bind {A B} (f : A -> nat) (g : B -> nat) (k : nat)
  (m : coro A) (kont : A -> coro B) :
  tallies f k m -> (forall a, tallies g (f a) (kont a)) ->
  tallies g k (bind m kont).
Proof.
  revert k; induction m as [a | e | c km IH]; intros k Hm Hk; simpl in *.
  - rewrite <- Hm. apply Hk.
  - exact I.
  - intros x. apply IH; [apply Hm | exact Hk].
Qed.

Lemma tallies_shift {A} (f : A -> nat) (n k : nat) (t : coro A) :
  tallies f k t -> tallies (fun a => (n + f a)%nat) (n + k)%nat t.
Proof.
  revert k; induction t as [a | e | c kt IH]; intros k Ht; simpl in *.
  - now rewrite Ht.
  - exact I.
  - intros x. specialize (Ht x). specialize (IH x _ Ht).
    destruct c; try exact IH. now rewrite Nat.add_succ_r in IH.
Qed.

Lemma sum_bools_cons (b : bool) (bs : list bool) :
  sum_bools (b :: bs) = (as_int b + sum_bools bs)%nat.
Proof. destruct b; reflexivity. Qed.

Lemma parse_datetime_tallies (e : Entry) (k : nat) :
  tallies (fun _ => k) k (parse_datetime e).
Proof.
  unfold parse_datetime.
  destruct (published_parsed e) as [ts |];
    [| destruct (updated_parsed e) as [ts |]];
    try (destruct (datetime_new (first_six ts) (Some utc)); simpl; auto).
  simpl. reflexivity.
Qed.

Lemma store_entry_tallies (h : string -> string) (feed : string)
  (entry : RawEntry) :
  tallies as_int 0 (store_entry h feed entry).
Proof.
  destruct entry as [e | t s p u]; [| exact I].
  unfold store_entry. cbv zeta. simpl. intros cur [one |]; simpl.
  - reflexivity.
  - apply (tallies_bind (fun _ => O)); [apply parse_datetime_tallies |].
    intros published_dt. simpl. intros now.
    destruct (sub now (timedelta_hours MAX_AGE_HOURS)) as [err | cutoff];
      simpl; [exact I |].
    destruct (lt published_dt cutoff) as [err | []]; simpl;
      [exact I | reflexivity |].
    intros _ _. reflexivity.
Qed.

Lemma each_tallies (h : string -> string) (feed : string)
  (es : list RawEntry) (acc : nat) :
  tallies (fun flags => (acc + sum_bools flags)%nat) acc
          (each (store_entry h feed) es).
Proof.
  revert acc; induction es as [| e es IH]; intros acc; cbn [each].
  - unfold sum_bools. simpl. lia.
  - apply (tallies_bind (fun b => (acc + as_int b)%nat)).
    + pose proof (tallies_shift as_int acc 0 _ (store_entry_tallies h feed e))
        as H.
      now rewrite Nat.add_0_r in H.
    + intros b.
      apply (tallies_bind (fun flags => (acc + as_int b + sum_bools flags)%nat));
        [apply IH |].
      intros flags. simpl. rewrite sum_bools_cons. lia.
Qed.

Lemma fetch_feed_tallies (h : string -> string) (url : string) :
  tallies (fun n => n) 0 (fetch_feed h url).
Proof.
  unfold fetch_feed. simpl. intros parsed.
  apply (tallies_bind (fun flags => (0 + sum_bools flags)%nat));
    [apply each_tallies |].
  intros flags. reflexivity.
Qed.

(** A call that succeeds changes the number of rows only if it is an INSERT,
    and then by one. *)
Lemma perform_row_count (net : web) (c : call) (w w' : world) (x : reply c) :
  perform net c w = (ok x, w') ->
  row_count w' = (row_count w + match c with ExecInsert _ => 1 | _ => 0 end)%nat.
Proof.
  unfold row_count.
  destruct c; simpl;
    try (intros H; apply (f_equal snd) in H; cbn [snd] in H; rewrite <- H;
         simpl; lia);
    destruct (Db.io (conn w)) as [e | c'] eqn:Hio; try discriminate;
    pose proof (io_articles _ _ Hio) as Ha.
  - intros H; apply (f_equal snd) in H; cbn [snd] in H; rewrite <- H. simpl.
    unfold Db.create_table. rewrite <- Ha.
    destruct (articles c') eqn:Hc; simpl; rewrite ?Hc; lia.
  - intros H; apply (f_equal snd) in H; cbn [snd] in H; rewrite <- H. simpl.
    rewrite Ha. lia.
  - intros H; apply (f_equal snd) in H; cbn [snd] in H; rewrite <- H. simpl.
    rewrite Ha. lia.
  - unfold Db.insert. rewrite <- Ha.
    destruct (articles c') as [rows |]; [| discriminate].
    destruct (Db.has_id (r_id r) rows); [discriminate |].
    destruct (r_title r); [| discriminate].
    intros H; apply (f_equal snd) in H; cbn [snd] in H; rewrite <- H. simpl.
    rewrite length_app. simpl. lia.
  - intros H; apply (f_equal snd) in H; cbn [snd] in H; rewrite <- H. simpl.
    rewrite Ha. lia.
Qed.

Lemma run_tallies {A} (net : web) (count : A -> nat) (t : coro A) (k : nat)
  (w w' : world) (a : A) :
  tallies count k t -> run net t w = (ok a, w') ->
  (row_count w' + k = row_count w + count a)%nat.
Proof.
  revert k w; induction t as [b | e | c kt IH]; intros k w Ht; simpl.
  - intros [= -> ->]. simpl in Ht. lia.
  - discriminate.
  - destruct (perform net c w) as [[e | x] w1] eqn:Hp; [discriminate |].
    intros Hrun. pose proof (perform_row_count net c w w1 x Hp) as Hc.
    specialize (IH x _ _ (Ht x) Hrun). destruct c; lia.
Qed.

(** One turn of a task leaves a task that still counts right. *)
Lemma resume_tallies {A} (net : web) (count : A -> nat) (t : coro A) (k : nat)
  (w w' : world) :
  tallies count k t ->
  match resume net t w with
  | (Finished a, w') => (row_count w' + k = row_count w + count a)%nat
  | (Suspended t', w') =>
      exists k', tallies count k' t'
                 /\ (row_count w' + k = row_count w + k')%nat
  | (Crashed _, _) => True
  end.
Proof.
  revert k w; induction t as [b | e | c kt IH]; intros k w Ht; simpl.
  - simpl in Ht. lia.
  - exact I.
  - destruct (perform net c w) as [[e | x] w1] eqn:Hp; [exact I |].
    pose proof (perform_row_count net c w w1 x Hp) as Hc.
    simpl in Ht. specialize (Ht x).
    destruct (suspends c) eqn:Hs.
    + eexists. split; [exact Ht |]. destruct c; lia.
    + specialize (IH x _ w1 Ht).
      destruct (resume net (kt x) w1) as [[a | t' | e] w2]; [| | exact I].
      * destruct c; lia.
      * destruct IH as (k' & Hk' & Hn). exists k'. split; [exact Hk' |].
        destruct c; lia.
Qed.

Lemma tallied_turn {A} (P : nat -> coro A -> Prop) (ks : list nat)
  (tasks : list (coro A)) (i : nat) (t : coro A) :
  Forall2 P ks tasks -> nth_error tasks i = Some t ->
  exists k,
    P k t
    /\ forall k' t', P k' t' ->
         Forall2 P (set_nth i k' ks) (set_nth i t' tasks)
         /\ (sum_nats (set_nth i k' ks) + k = sum_nats ks + k')%nat.
Proof.
  intros H; revert i; induction H as [| k0 t0 ks tasks H0 H IH]; intros i.
  - destruct i; discriminate.
  - destruct i as [| i]; simpl.
    + intros [= <-]. exists k0. split; [exact H0 |].
      intros k' t' H'. split; [now constructor | lia].
    + intros Hi. destruct (IH i Hi) as (k & Hk & Hset). exists k.
      split; [exact Hk |]. intros k' t' H'.
      destruct (Hset k' t' H') as [Hall Hsum]. split; [now constructor | lia].
Qed.

Lemma drain_tallies {A} (net : web) (count : A -> nat) (ks : list nat)
  (tasks : list (coro A)) (w w' : world) (rs : list A) :
  Forall2 (tallies count) ks tasks ->
  drain net tasks w = (ok rs, w') ->
  (row_count w' + sum_nats ks = row_count w + sum_nats (map count rs))%nat.
Proof.
  intros H; revert w rs; induction H as [| k t ks tasks Ht H IH];
    intros w rs; simpl.
  - intros [= <- <-]. reflexivity.
  - destruct (run net t w) as [[e | a] w1] eqn:Hrun; [discriminate |].
    destruct (drain net tasks w1) as [[e | others] w2] eqn:Hrest;
      [discriminate |].
    intros [= <- <-]. simpl.
    pose proof (run_tallies net count t k w w1 a Ht Hrun).
    pose proof (IH w1 others Hrest). lia.
Qed.

Lemma gather_tallies {A} (net : web) (count : A -> nat) (sched : list nat)
  (ks : list nat) (tasks : list (coro A)) (w w' : world) (rs : list A) :
  Forall2 (tallies count) ks tasks ->
  gather net sched tasks w = (ok rs, w') ->
  (row_count w' + sum_nats ks = row_count w + sum_nats (map count rs))%nat.
Proof.
  revert ks tasks w; induction sched as [| i sched IH]; intros ks tasks w H;
    simpl.
  - now apply drain_tallies.
  - destruct (nth_error tasks i) as [t |] eqn:Hi; [| now apply IH].
    destruct (tallied_turn _ ks tasks i t H Hi) as (k & Hk & Hset).
    pose proof (resume_tallies net count t k w w Hk) as Hturn.
    destruct (resume net t w) as [[a | t' | e] w1]; [| | discriminate].
    + destruct (Hset (count a) (Ret a) eq_refl) as [Hall Hsum].
      intros Hg. pose proof (IH _ _ _ Hall Hg). lia.
    + destruct Hturn as (k' & Hk' & Hn).
      destruct (Hset k' t' Hk') as [Hall Hsum].
      intros Hg. pose proof (IH _ _ _ Hall Hg). lia.
Qed.

Lemma fresh_tallies (h : string -> string) (urls : list string) :
  Forall2 (tallies (fun n => n)) (map (fun _ => O) urls)
          (map (fetch_feed h) urls).
Proof.
  induction urls as [| url urls IH]; simpl; constructor;
    [apply fetch_feed_tallies | exact IH].
Qed.

Lemma sum_nats_zeros {A} (l : list A) : sum_nats (map (fun _ => O) l) = O.
Proof. induction l; simpl; auto. Qed.

(** The results of the gathered fetches add up to the rows that came into
    the table meanwhile, whatever the order of the turns. *)
Lemma gather_row_count (h : string -> string) (net : web) (sched : list nat)
  (urls : list string) (w w' : world) (added : list nat) :
  gather net sched (map (fetch_feed h) urls) w = (ok added, w') ->
  row_count w' = (row_count w + sum_nats added)%nat.
Proof.
  intros Hg.
  pose proof (gather_tallies net (fun n => n) sched _ _ w w' added
                (fresh_tallies h urls) Hg) as H.
  rewrite sum_nats_zeros, map_id in H. lia.
Qed.

Lemma articles_logged_app (j1 j2 : list event) :
  articles_logged (j1 ++ j2) = (articles_logged j1 + articles_logged j2)%nat.
Proof.
  induction j1 as [| [u | n | us] j1 IH]; simpl; auto. rewrite IH. lia.
Qed.

Lemma perform_articles_logged (n : nat) (net : web) (c : call) (w : world) :
  articles_logged (journal w) = n ->
  articles_logged (journal (snd (perform net c w))) = n.
Proof.
  intros Hw. destruct c; simpl; try exact Hw.
  - rewrite articles_logged_app. simpl. lia.
  - destruct (Db.io (conn w)); exact Hw.
  - destruct (Db.io (conn w)); exact Hw.
  - destruct (Db.io (conn w)); exact Hw.
  - destruct (Db.io (conn w)) as [e | c']; [exact Hw |].
    destruct (Db.insert r c'); exact Hw.
  - destruct (Db.io (conn w)); exact Hw.
Qed.

Lemma cycle_row_count (h : string -> string) (net : web) (sched : list nat)
  (w w' : world) :
  cycle h net sched w = (ok tt, w') ->
  (row_count w' + articles_logged (journal w)
   = row_count w + articles_logged (journal w'))%nat.
Proof.
  unfold cycle, pbind, log_info, sleep, plift.
  change (run net (await Now) w) with (ok (now_of w), tick w).
  unfold ok at 1; cbv beta iota.
  destruct (gather net sched (map (fetch_feed h) FEEDS) (tick w))
    as [[e | added] w2] eqn:Hg; [discriminate |].
  pose proof (gather_row_count h net sched FEEDS _ _ _ Hg) as Hrows.
  pose proof (gather_always _ (perform_articles_logged _) net sched
                (map (fetch_feed h) FEEDS) (tick w) eq_refl) as Hlog.
  rewrite Hg in Hlog. cbn [snd] in Hlog.
  change (run net (await Now) (logged w2 (CycleFinished (sum_nats added))))
    with (ok (now_of (logged w2 (CycleFinished (sum_nats added)))),
          tick (logged w2 (CycleFinished (sum_nats added)))).
  unfold ok; cbv beta iota.
  match goal with |- context [diff ?a ?b] => destruct (diff a b) as [e | elapsed] end;
    [discriminate |].
  intros H. apply (f_equal snd) in H. cbn [snd] in H. rewrite <- H.
  unfold row_count in *. unfold logged, tick in *. cbn [conn journal] in *.
  rewrite !articles_logged_app. cbn [articles_logged]. lia.
Qed.

Lemma poll_cycles_row_count (h : string -> string) (cycles k : nat)
  (nets : nat -> web) (scheds : nat -> list nat) (w w' : world) :
  poll_cycles h cycles k nets scheds w = (ok tt, w') ->
  (row_count w' + articles_logged (journal w)
   = row_count w + articles_logged (journal w'))%nat.
Proof.
  revert k w; induction cycles as [| n IH]; intros k w; cbn [poll_cycles].
  - unfold pret. intros [= <-]. lia.
  - unfold pbind.
    destruct (cycle h (nets k) (scheds k) w) as [[e | []] w1] eqn:Hc;
      [discriminate |].
    intros Hrest. pose proof (cycle_row_count _ _ _ _ _ Hc).
    pose proof (IH _ _ Hrest). lia.
Qed.

Lemma init_db_tallies : tallies (fun _ : unit => O) 0 init_db.
Proof. unfold init_db. simpl. intros _ _. reflexivity. Qed.

(** X3.  The counts in the log are exact.  When [poll_loop] has completed
    its cycles, the [new_articles] numbers of its "Cycle finished" lines add
    up to the number of rows that came into the table, however the fetches
    of each cycle took turns. *)
Theorem logged_counts_are_exact (h : string -> string) (cycles : nat)
  (nets : nat -> web) (scheds : nat -> list nat) (w w' : world) :
  poll_loop h cycles nets scheds w = (ok tt, w') ->
  (row_count w' + articles_logged (journal w)
   = row_count w + articles_logged (journal w'))%nat.
Proof.
  unfold poll_loop, pbind.
  destruct (run (nets O) init_db w) as [[e | []] w1] eqn:Hi; [discriminate |].
  intros Hloop.
  pose proof (run_tallies _ _ _ _ _ _ _ init_db_tallies Hi) as Hrows.
  pose proof (run_always _ (perform_articles_logged _) (nets O) init_db w
                eq_refl) as Hlog.
  rewrite Hi in Hlog. cbn [snd] in Hlog. cbv beta in Hrows.
  pose proof (poll_cycles_row_count _ _ _ _ _ _ _ Hloop). lia.
Qed.

Lemma logged_counts_are_exact_witness :
  let w' := snd (poll_loop sample_digest 2 (fun _ => busy_net)
                           (fun _ => first_turns) new_world) in
  (row_count w' + articles_logged (journal new_world)
   = row_count new_world + articles_logged (journal w'))%nat.
Proof.
  assert (H : poll_loop sample_digest 2 (fun _ => busy_net)
                        (fun _ => first_turns) new_world
              = (ok tt, snd (poll_loop sample_digest 2 (fun _ => busy_net)
                               (fun _ => first_turns) new_world)))
    by (vm_compute; reflexivity).
  exact (logged_counts_are_exact sample_digest 2 (fun _ => busy_net)
           (fun _ => first_turns) new_world _ H).
Defined.

(* ------------------------------------------------------------------ *)
(** ** One item, in any weather *)

Lemma io_raises (c : connection) (e : exn) :
  Db.io c = inl e -> e = OperationalError.
Proof.
  unfold Db.io. destruct (io_faults c) as [| [] rest]; try discriminate.
  now intros [= <-].
Qed.

Lemma perform_select_any (net : web) (aid : string) (w w' : world)
  (r : result cursor) :
  perform net (ExecSelectId aid) w = (r, w') ->
  articles (conn w') = articles (conn w)
  /\ match r with
     | inl e => e = OperationalError
     | inr cur =>
         exists rows,
           holds w rows
           /\ Db.fetchone cur = if Db.has_id aid rows then Some 1 else None
     end.
Proof.
  simpl. destruct (Db.io (conn w)) as [e | c'] eqn:Hio.
  - intros [= <- <-]. split; [reflexivity | exact (io_raises _ _ Hio)].
  - pose proof (io_articles _ _ Hio) as Ha. unfold Db.select_id, holds.
    destruct (articles c') as [rows |] eqn:Hc; intros [= <- <-]; simpl;
      (split; [congruence |]); [| reflexivity].
    exists rows. split; [congruence | apply fetchone_select].
Qed.

Lemma perform_round_trip (w w' : world) (r : result unit) :
  match Db.io (conn w) with
  | inl e => (raise e, with_conn w (Db.after_io (conn w)))
  | inr c' => (ok tt, with_conn w c')
  end = (r, w') ->
  articles (conn w') = articles (conn w)
  /\ (r = ok tt \/ r = raise OperationalError).
Proof.
  destruct (Db.io (conn w)) as [e | c'] eqn:Hio; intros [= <- <-].
  - split; [reflexivity |]. right. now rewrite (io_raises _ _ Hio).
  - split; [exact (io_articles _ _ Hio) | now left].
Qed.

Lemma perform_fetchone_any (net : web) (cur : cursor) (w w' : world)
  (r : result (option Z)) :
  perform net (Fetchone cur) w = (r, w') ->
  articles (conn w') = articles (conn w)
  /\ (r = ok (Db.fetchone cur) \/ r = raise OperationalError).
Proof.
  simpl. destruct (Db.io (conn w)) as [e | c'] eqn:Hio; intros [= <- <-].
  - split; [reflexivity |]. right. now rewrite (io_raises _ _ Hio).
  - split; [exact (io_articles _ _ Hio) | now left].
Qed.

Lemma perform_commit_any (net : web) (w w' : world) (r : result unit) :
  perform net Commit w = (r, w') ->
  articles (conn w') = articles (conn w)
  /\ (r = ok tt \/ r = raise OperationalError).
Proof. apply perform_round_trip. Qed.

(** An INSERT of a new id with a title either fails on I/O and writes
    nothing, or appends the row. *)
Lemma perform_insert_any (net : web) (r : row) (w w' : world)
  (rows : list row) (res : result unit) :
  holds w rows -> Db.has_id (r_id r) rows = false -> r_title r <> None ->
  perform net (ExecInsert r) w = (res, w') ->
  (res = raise OperationalError /\ holds w' rows)
  \/ (res = ok tt /\ holds w' (rows ++ [r])).
Proof.
  unfold holds. intros Hrows Hnew Htitle. simpl.
  destruct (Db.io (conn w)) as [e | c'] eqn:Hio.
  - intros [= <- <-]. left. split; [now rewrite (io_raises _ _ Hio) | exact Hrows].
  - pose proof (io_articles _ _ Hio) as Ha. unfold Db.insert.
    rewrite Ha, Hrows, Hnew.
    destruct (r_title r); [| contradiction].
    intros [= <- <-]. right. split; reflexivity.
Qed.

Lemma parse_datetime_raises (net : web) (e : Entry) (w w' : world) (x : exn) :
  run net (parse_datetime e) w = (inl x, w') -> x = ValueError.
Proof.
  rewrite parse_datetime_run. unfold datetime_new.
  destruct (published_parsed e) as [ts |];
    [| destruct (updated_parsed e) as [ts |]]; try discriminate;
    destruct (valid_civil (first_six ts)); try discriminate;
    now intros [= <- _].
Qed.

(** Only a reading of the clock moves the clock on. *)
Lemma perform_clock (net : web) (c : call) (w : world) :
  clock (snd (perform net c w)) = clock w
  /\ ticks (snd (perform net c w))
     = (ticks w + match c with Now => 1 | _ => 0 end)%nat.
Proof.
  destruct c; simpl; try (split; [reflexivity | lia]);
    destruct (Db.io (conn w)) as [e | c']; simpl;
    try (split; [reflexivity | lia]).
  destruct (Db.insert r c'); simpl; split; (reflexivity || lia).
Qed.

(** What a call of [store_entry] can end in, whatever the I/O weather: True
    after exactly one row was appended for a link that was not stored, the
    item being at most MAX_AGE_HOURS older than the clock reading taken for
    it; False with the table as it was; or an exception that is not an
    IntegrityError. *)
Lemma store_entry_outcome (h : string -> string) (net : web) (feed : string)
  (e : Entry) (w : world) :
  match run net (store_entry h feed e) w with
  | (inr true, w') =>
      exists rows d n,
        holds w rows
        /\ Db.has_id (article_id h (link e)) rows = false
        /\ holds w' (rows ++ [stored_row h feed e d])
        /\ tzinfo d = Some utc
        /\ (ticks w <= n < ticks w')%nat
        /\ clock w n - timedelta_hours MAX_AGE_HOURS <= micros d
  | (inr false, w') => articles (conn w') = articles (conn w)
  | (inl err, w') => err <> IntegrityError
  end.
Proof.
  unfold store_entry. cbv zeta.
  rewrite run_bind, (run_await net (ExecSelectId _)).
  pose proof (perform_clock net (ExecSelectId (article_id h (link e))) w)
    as [Hc1 Ht1].
  destruct (perform net (ExecSelectId (article_id h (link e))) w)
    as [[err | cur] w1] eqn:Hsel;
    destruct (perform_select_any _ _ _ _ _ Hsel) as [Ha1 Hcur];
    [now subst err |].
  destruct Hcur as (rows & Hrows & Hone). cbn [snd] in Hc1, Ht1.
  rewrite run_bind, (run_await net (Fetchone _)).
  pose proof (perform_clock net (Fetchone cur) w1) as [Hc2 Ht2].
  destruct (perform net (Fetchone cur) w1) as [found w2] eqn:Hfetch.
  destruct (perform_fetchone_any _ _ _ _ _ Hfetch) as [Ha2 [-> | ->]];
    [| discriminate].
  cbn [snd] in Hc2, Ht2.
  unfold ok; cbv beta iota. rewrite Hone.
  destruct (Db.has_id (article_id h (link e)) rows) eqn:Hdup;
    [simpl; congruence |].
  rewrite run_bind.
  destruct (run net (parse_datetime e) w2) as [[x | pub] w3] eqn:Hparse;
    [rewrite (parse_datetime_raises _ _ _ _ _ Hparse); discriminate |].
  destruct (parse_datetime_aware _ _ _ _ _ Hparse) as (Htz & Hconn & Hc3).
  assert (Ht3 : (ticks w2 <= ticks w3)%nat).
  { rewrite parse_datetime_run in Hparse.
    destruct (published_parsed e); [| destruct (updated_parsed e)];
      apply (f_equal snd) in Hparse; cbn [snd] in Hparse; rewrite <- Hparse;
      simpl; lia. }
  rewrite run_bind. change (run net (await Now) w3) with (ok (now_of w3), tick w3).
  unfold ok; cbv beta iota. rewrite run_bind, run_lift.
  destruct (sub (now_of w3) (timedelta_hours MAX_AGE_HOURS)) as [x | cutoff] eqn:Hsub.
  { unfold sub in Hsub. destruct (in_range _); [discriminate |].
    injection Hsub as <-. discriminate. }
  assert (Hcut : tzinfo cutoff = Some utc
                 /\ micros cutoff
                    = clock w (ticks w3) - timedelta_hours MAX_AGE_HOURS).
  { unfold sub in Hsub. destruct (in_range _); [| discriminate].
    injection Hsub as <-. simpl. split; [reflexivity |]. congruence. }
  destruct Hcut as [Hcut Hmicros].
  rewrite run_bind, run_lift. unfold lt. rewrite Htz, Hcut.
  unfold ok; cbv beta iota.
  assert (Hrows3 : holds (tick w3) rows).
  { unfold holds in *. simpl. rewrite Hconn. congruence. }
  destruct (micros pub <? micros cutoff) eqn:Hold.
  { simpl. rewrite Hconn. congruence. }
  rewrite run_bind, (run_await net (ExecInsert _)).
  fold (stored_row h feed e pub).
  pose proof (perform_clock net (ExecInsert (stored_row h feed e pub)) (tick w3))
    as [_ Ht4].
  destruct (perform net (ExecInsert (stored_row h feed e pub)) (tick w3))
    as [res w4] eqn:Hins.
  destruct (perform_insert_any net (stored_row h feed e pub) _ _ rows res
              Hrows3 Hdup ltac:(discriminate) Hins) as [[-> Hrows4] | [-> Hrows4]];
    [discriminate |].
  unfold ok; cbv beta iota. cbn [snd] in Ht4.
  rewrite run_bind, (run_await net Commit).
  pose proof (perform_clock net Commit w4) as [_ Ht5].
  destruct (perform net Commit w4) as [res w5] eqn:Hcommit.
  destruct (perform_commit_any _ _ _ _ Hcommit) as [Ha5 [-> | ->]];
    [| discriminate].
  unfold ok; cbv beta iota. simpl. cbn [snd] in Ht5. simpl in Ht4.
  exists rows, pub, (ticks w3). split; [exact Hrows |].
  split; [exact Hdup |]. split; [unfold holds in *; congruence |].
  split; [exact Htz |]. split; [lia |].
  apply Z.ltb_ge in Hold. lia.
Qed.

(** X4.  The answer of [store_entry] tells what happened to the table, in
    any I/O weather.  True: the link was not stored and exactly one row was
    appended, carrying the link's fingerprint, the link, the feed url, a
    title and a summary that are not NULL, and the ISO text of an aware
    timestamp at most MAX_AGE_HOURS older than a clock reading taken during
    the call.  False: the table is as it was. *)
Theorem store_entry_answer (h : string -> string) (net : web) (feed : string)
  (e : Entry) (w w' : world) (stored : bool) :
  run net (store_entry h feed e) w = (ok stored, w') ->
  if stored then
    exists rows d n,
      holds w rows
      /\ Db.has_id (article_id h (link e)) rows = false
      /\ holds w' (rows ++ [mk_row (article_id h (link e))
                                   (Some (get_default (title e) ""))
                                   (link e)
                                   (isoformat "T" d)
                                   (Some (get_default (summary e) ""))
                                   feed])
      /\ tzinfo d = Some utc
      /\ (ticks w <= n < ticks w')%nat
      /\ clock w n - timedelta_hours MAX_AGE_HOURS <= micros d
  else articles (conn w') = articles (conn w).
Proof.
  intros Hrun. pose proof (store_entry_outcome h net feed e w) as H.
  unfold ok in Hrun. rewrite Hrun in H. destruct stored; exact H.
Qed.

Lemma store_entry_answer_witness :
  exists rows d n,
    holds sample_world rows
    /\ Db.has_id (article_id sample_digest (link boundary_item)) rows = false
    /\ holds (snd (run quiet_net (store_entry sample_digest world_feed boundary_item)
                       sample_world))
             (rows ++ [mk_row (article_id sample_digest (link boundary_item))
                              (Some (get_default (title boundary_item) ""))
                              (link boundary_item)
                              (isoformat "T" d)
                              (Some (get_default (summary boundary_item) ""))
                              world_feed])
    /\ tzinfo d = Some utc
    /\ (ticks sample_world <= n
        < ticks (snd (run quiet_net
                          (store_entry sample_digest world_feed boundary_item)
                          sample_world)))%nat
    /\ clock sample_world n - timedelta_hours MAX_AGE_HOURS <= micros d.
Proof.
  assert (H : run quiet_net (store_entry sample_digest world_feed boundary_item)
                  sample_world
              = (ok true,
                 snd (run quiet_net
                          (store_entry sample_digest world_feed boundary_item)
                          sample_world)))
    by (vm_compute; reflexivity).
  exact (store_entry_answer sample_digest quiet_net world_feed boundary_item
           sample_world _ true H).
Defined.

(* ------------------------------------------------------------------ *)
(** ** Fetches that run one after the other *)

Lemma each_store_entry_no_integrity (h : string -> string) (net : web)
  (feed : string) (es : list RawEntry) (w : world) :
  fst (run net (each (store_entry h feed) es) w) <> raise IntegrityError.
Proof.
  revert w; induction es as [| entry es IH]; intros w; cbn [each].
  - simpl. discriminate.
  - rewrite run_bind.
    assert (He : match run net (store_entry h feed entry) w with
                 | (inl err, _) => err <> IntegrityError
                 | _ => True
                 end).
    { destruct entry as [e | t s p u]; [| simpl; discriminate].
      pose proof (store_entry_outcome h net feed e w) as He.
      destruct (run net (store_entry h feed e) w) as [[err | b] w1];
        [exact He | exact I]. }
    destruct (run net (store_entry h feed entry) w) as [[err | b] w1].
    + simpl. unfold raise. congruence.
    + rewrite run_bind. specialize (IH w1).
      destruct (run net (each (store_entry h feed) es) w1) as [[err | bs] w2];
        simpl in *; [exact IH | discriminate].
Qed.

Lemma fetch_feed_no_integrity (h : string -> string) (net : web)
  (url : string) (w : world) :
  net url <> raise IntegrityError ->
  fst (run net (fetch_feed h url) w) <> raise IntegrityError.
Proof.
  intros Hnet. rewrite fetch_feed_run.
  destruct (net url) as [err | parsed].
  { simpl. unfold raise in *. intros [= ->]. now apply Hnet. }
  pose proof (each_store_entry_no_integrity h net url (entries parsed)
                (logged w (Requested url))) as H.
  destruct (run net (each (store_entry h url) (entries parsed))
                (logged w (Requested url))) as [[err | bs] w1];
    simpl in *; [| discriminate].
  unfold raise in *. intros [= ->]. now apply H.
Qed.

Lemma drain_no_integrity (h : string -> string) (net : web)
  (urls : list string) (w : world) :
  (forall url, net url <> raise IntegrityError) ->
  fst (drain net (map (fetch_feed h) urls) w) <> raise IntegrityError.
Proof.
  intros Hnet. revert w; induction urls as [| url urls IH]; intros w;
    cbn [map drain].
  - discriminate.
  - pose proof (fetch_feed_no_integrity h net url w (Hnet url)) as H.
    destruct (run net (fetch_feed h url) w) as [[err | n] w1].
    { cbn [fst] in *. unfold raise in *. intros [= ->]. now apply H. }
    specialize (IH w1).
    destruct (drain net (map (fetch_feed h) urls) w1) as [[err | ns] w2];
      cbn [fst] in *; [exact IH | discriminate].
Qed.

Lemma cycle_no_integrity (h : string -> string) (net : web) (w : world) :
  (forall url, net url <> raise IntegrityError) ->
  fst (cycle h net [] w) <> raise IntegrityError.
Proof.
  intros Hnet. unfold cycle, pbind, log_info, sleep, plift.
  change (run net (await Now) w) with (ok (now_of w), tick w).
  unfold ok at 1; cbv beta iota. cbn [gather].
  pose proof (drain_no_integrity h net FEEDS (tick w) Hnet) as H.
  destruct (drain net (map (fetch_feed h) FEEDS) (tick w))
    as [[e | added] w2].
  { cbn [fst] in *. unfold raise in *. intros [= ->]. now apply H. }
  change (run net (await Now) (logged w2 (CycleFinished (sum_nats added))))
    with (ok (now_of (logged w2 (CycleFinished (sum_nats added)))),
          tick (logged w2 (CycleFinished (sum_nats added)))).
  unfold ok; cbv beta iota. unfold diff, now_of. cbn [tzinfo fst].
  discriminate.
Qed.

Lemma poll_cycles_no_integrity (h : string -> string) (cycles k : nat)
  (nets : nat -> web) (w : world) :
  (forall k url, nets k url <> raise IntegrityError) ->
  fst (poll_cycles h cycles k nets (fun _ => []) w) <> raise IntegrityError.
Proof.
  intros Hnet. revert k w; induction cycles as [| n IH]; intros k w;
    cbn [poll_cycles].
  - discriminate.
  - unfold pbind. pose proof (cycle_no_integrity h (nets k) w (Hnet k)) as H.
    destruct (cycle h (nets k) [] w) as [[e | []] w1]; [exact H | apply IH].
Qed.

(** X5.  The primary key is violated only by fetches that take turns.  When
    the fetches of every cycle run one after the other, [poll_loop] never
    ends with an IntegrityError, in any I/O weather and whatever the feeds
    carry: each INSERT follows, with no other write in between, a SELECT
    that did not find the id. *)
Theorem sequential_fetches_respect_key (h : string -> string) (cycles : nat)
  (nets : nat -> web) (w : world) :
  (forall k url, nets k url <> raise IntegrityError) ->
  fst (poll_loop h cycles nets (fun _ => []) w) <> raise IntegrityError.
Proof.
  intros Hnet. unfold poll_loop, pbind.
  destruct (run (nets O) init_db w) as [[e | []] w1] eqn:Hi.
  - unfold init_db in Hi. rewrite run_bind, (run_await _ ExecCreate) in Hi.
    simpl in Hi. destruct (Db.io (conn w)) as [e1 | c1] eqn:Hio1.
    + injection Hi as <- _. rewrite (io_raises _ _ Hio1). discriminate.
    + simpl in Hi. destruct (Db.io (Db.create_table c1)) as [e2 | c2] eqn:Hio2;
        [| discriminate].
      injection Hi as <- _. rewrite (io_raises _ _ Hio2). discriminate.
  - now apply poll_cycles_no_integrity.
Qed.

Lemma sequential_fetches_respect_key_witness :
  fst (poll_loop sample_digest 1 (fun _ => echo_net) (fun _ => []) new_world)
  <> raise IntegrityError.
Proof.
  apply (sequential_fetches_respect_key sample_digest 1 (fun _ => echo_net)
           new_world).
  intros k url. unfold echo_net.
  destruct (String.eqb url world_feed); [discriminate |].
  destruct (String.eqb url us_feed); discriminate.
Defined.

(* ------------------------------------------------------------------ *)
(** ** init_db *)

(** X6.  [init_db] creates the table only if it is missing: when it
    completes, the table exists and holds exactly the rows it held before,
    none if it is new; this in any I/O weather.  Calling it again changes
    nothing. *)
Theorem init_db_keeps_rows (net : web) (w w' : world) :
  run net init_db w = (ok tt, w') ->
  holds w' (table_rows w) /\ table_rows w' = table_rows w.
Proof.
  unfold init_db. rewrite run_bind, (run_await net ExecCreate). simpl.
  destruct (Db.io (conn w)) as [e1 | c1] eqn:Hio1; [discriminate |].
  unfold ok; cbv beta iota. simpl.
  destruct (Db.io (Db.create_table c1)) as [e2 | c2] eqn:Hio2;
    [discriminate |].
  intros [= <-]. pose proof (io_articles _ _ Hio1) as H1.
  pose proof (io_articles _ _ Hio2) as H2.
  unfold holds, table_rows. simpl. rewrite H2. unfold Db.create_table.
  rewrite <- H1. destruct (articles c1) as [rows |] eqn:Hc; simpl;
    rewrite ?Hc; split; reflexivity.
Qed.

Lemma init_db_keeps_rows_witness :
  holds (snd (run quiet_net init_db acme_world)) (table_rows acme_world)
  /\ table_rows (snd (run quiet_net init_db acme_world))
     = table_rows acme_world.
Proof.
  apply (init_db_keeps_rows quiet_net acme_world). reflexivity.
Defined.

(* ------------------------------------------------------------------ *)
(** ** One block for every topic *)

Lemma keys_append_to (k : string) (art : article)
  (bs : list (string * list article)) :
  map fst (append_to k art bs) = map fst bs.
Proof.
  unfold append_to. rewrite map_map. apply map_ext.
  intros [t lst]. simpl. now destruct (String.eqb t k).
Qed.

Section KeyFacts.

Variable str_lower : string -> string.

Lemma keys_place (tickers : list (string * list string)) (art : article)
  (bs : list (string * list article)) :
  map fst (place str_lower tickers art bs) = map fst bs.
Proof.
  unfold place. revert bs; induction tickers as [| [k al] rest IH]; intros bs;
    simpl; [reflexivity |].
  rewrite IH. destruct (mentions str_lower al (match_text str_lower art)); [| reflexivity].
  apply keys_append_to.
Qed.

Lemma keys_buckets_of (tickers : list (string * list string))
  (arts : list article) :
  map fst (buckets_of str_lower tickers arts) = map fst tickers.
Proof.
  unfold buckets_of.
  assert (H : forall bs,
             map fst (fold_left (fun acc art => place str_lower tickers art acc) arts bs)
             = map fst bs).
  { induction arts as [| art arts IH]; intros bs; simpl; [reflexivity |].
    rewrite IH. apply keys_place. }
  rewrite H, map_map. reflexivity.
Qed.

(** Two dicts with the same keys in the same order and the same value under
    every key are the same. *)
Lemma buckets_ext (l l' : list (string * list article)) :
  map fst l = map fst l' -> NoDup (map fst l) ->
  (forall k, In k (map fst l) -> bucket k l = bucket k l') ->
  l = l'.
Proof.
  revert l'; induction l as [| [k v] l IH]; intros [| [k' v'] l'];
    simpl; try discriminate; [reflexivity |].
  intros [= <- Hkeys] Hnd Hlook. inversion Hnd as [| ? ? Hnotin Hnd']; subst.
  pose proof (Hlook k (or_introl eq_refl)) as Hk.
  rewrite String.eqb_refl in Hk. injection Hk as <-.
  f_equal. apply IH; [exact Hkeys | exact Hnd' |].
  intros t Ht. specialize (Hlook t (or_intror Ht)).
  destruct (String.eqb_spec k t) as [-> | Hne]; [contradiction | exact Hlook].
Qed.

Lemma bucket_map (tickers : list (string * list string)) (k : string)
  (aliases : list string) (f : list string -> list article) :
  NoDup (map fst tickers) -> In (k, aliases) tickers ->
  bucket k (map (fun ta => (fst ta, f (snd ta))) tickers) = Some (f aliases).
Proof.
  induction tickers as [| [k' al'] rest IH]; [contradiction |].
  simpl. intros Hnd Hin. inversion Hnd as [| ? ? Hnotin Hnd']; subst.
  destruct Hin as [[= -> ->] | Hin].
  - now rewrite String.eqb_refl.
  - destruct (String.eqb_spec k' k) as [-> | Hne]; [| now apply IH].
    exfalso. apply Hnotin. apply in_map_iff. now exists (k, aliases).
Qed.

(** The bucketing loop, topic by topic: every topic of the table has its
    bucket, in the order of the table, and the bucket lists the articles
    that mention the topic. *)
Lemma buckets_of_matching (tickers : list (string * list string))
  (arts : list article) :
  NoDup (map fst tickers) ->
  buckets_of str_lower tickers arts
  = map (fun ta => (fst ta, matching str_lower (snd ta) arts)) tickers.
Proof.
  intros Hnd. apply buckets_ext.
  - rewrite keys_buckets_of, map_map. reflexivity.
  - now rewrite keys_buckets_of.
  - intros k Hk. rewrite keys_buckets_of in Hk.
    apply in_map_iff in Hk. destruct Hk as ([t aliases] & <- & Hin). simpl.
    rewrite (bucket_is_filter _ _ _ _ _ Hnd Hin).
    symmetry.
    apply (bucket_map tickers t aliases (fun al => matching str_lower al arts) Hnd Hin).
Qed.

End KeyFacts.

Section ReadingFacts.

Variable str_lower : string -> string.
Variable dt_parse : string -> result datetime.

(** X7.  The user message has one block for every topic of TICKERS, in the
    order of TICKERS and separated by the "###" line, whether or not the
    topic has articles: the block of a topic is built from the articles
    read that mention it, and a topic that none mentions gets the block
    that says so. *)
Theorem user_message_covers_every_topic (c : connection) (now : datetime)
  (msg : string) :
  main str_lower dt_parse c now = ok msg ->
  exists since arts,
    sub now (timedelta_hours LOOKBACK_HOURS) = ok since
    /\ fetch_recent_articles dt_parse c since = ok arts
    /\ msg = Str.join block_sep
               (map (fun ta => build_user_msg (fst ta) (matching str_lower (snd ta) arts))
                    TICKERS)
    /\ forall t aliases,
         In (t, aliases) TICKERS -> matching str_lower aliases arts = [] ->
         build_user_msg t (matching str_lower aliases arts) = no_news t.
Proof.
  unfold main.
  destruct (sub now (timedelta_hours LOOKBACK_HOURS)) as [e | since];
    [discriminate |].
  destruct (fetch_recent_articles dt_parse c since) as [e | arts] eqn:Hread;
    [discriminate |].
  cbv zeta. intros [= <-]. exists since, arts.
  split; [reflexivity |]. split; [exact Hread |]. split.
  - rewrite (buckets_of_matching str_lower TICKERS arts TICKERS_keys), map_map.
    reflexivity.
  - intros t aliases _ ->. reflexivity.
Qed.

(** A list comprehension over rows that all parse gives one article a row;
    one row that does not parse makes it raise. *)
Lemma to_articles_ok_iff (rows : list row) :
  (exists arts, to_articles dt_parse rows = ok arts)
  <-> Forall (fun r => exists d, dt_parse (r_published r) = ok d) rows.
Proof.
  induction rows as [| r rows IH]; simpl.
  - split; [constructor | intros _; now eexists].
  - split.
    + intros [arts H].
      destruct (dt_parse (r_published r)) as [e | d] eqn:Hd; [discriminate |].
      destruct (to_articles dt_parse rows) as [e | rest] eqn:Hrest;
        [discriminate |].
      constructor; [now exists d | apply IH; now exists rest].
    + intros H. inversion H as [| ? ? [d Hd] Hrest]; subst.
      apply IH in Hrest. destruct Hrest as [rest Hrest].
      rewrite Hd, Hrest. now eexists.
Qed.

Lemma to_articles_length (rows : list row) (arts : list article) :
  to_articles dt_parse rows = ok arts -> List.length arts = List.length rows.
Proof.
  intros H. destruct (to_articles_fields dt_parse _ _ H) as [Hid _].
  apply (f_equal (@List.length string)) in Hid. now rewrite !length_map in Hid.
Qed.

(** X8.  When the table exists and the query goes through,
    [fetch_recent_articles] returns exactly when the [published] text of
    every selected row is one that dateutil parses, and then with one
    article a selected row: a single selected row with an unreadable
    timestamp makes the whole read raise, while rows that the WHERE clause
    leaves out are never parsed. *)
Theorem read_needs_every_timestamp (c : connection) (since : datetime)
  (rows : list row) :
  articles c = Some rows -> hd false (io_faults c) = false ->
  ((exists arts, fetch_recent_articles dt_parse c since = ok arts)
   <-> Forall (fun r => exists d, dt_parse (r_published r) = ok d)
              (rows_since rows since))
  /\ forall arts,
       fetch_recent_articles dt_parse c since = ok arts ->
       List.length arts = List.length (rows_since rows since).
Proof.
  intros Hrows Hio.
  assert (H : fetch_recent_articles dt_parse c since
              = to_articles dt_parse (rows_since rows since)).
  { unfold fetch_recent_articles, Db.io.
    destruct (io_faults c) as [| [] rest]; simpl in *; try discriminate;
      now rewrite Hrows. }
  rewrite H. split; [apply to_articles_ok_iff | apply to_articles_length].
Qed.

End ReadingFacts.

Lemma read_needs_every_timestamp_witness :
  ((exists arts,
       fetch_recent_articles strict_parse mixed_store midnight_cutoff = ok arts)
   <-> Forall (fun r => exists d, strict_parse (r_published r) = ok d)
              (rows_since [ mk_row "old" (Some "Old") "https://x/old"
                                   "yesterday" None "feed";
                            acme_row "1" ] midnight_cutoff))
  /\ forall arts,
       fetch_recent_articles strict_parse mixed_store midnight_cutoff = ok arts ->
       List.length arts
       = List.length (rows_since [ mk_row "old" (Some "Old") "https://x/old"
                                          "yesterday" None "feed";
                                   acme_row "1" ] midnight_cutoff).
Proof.
  apply (read_needs_every_timestamp strict_parse mixed_store midnight_cutoff);
    reflexivity.
Defined.

Lemma user_message_covers_every_topic_witness :
  exists since arts,
    sub sample_instant (timedelta_hours LOOKBACK_HOURS) = ok since
    /\ fetch_recent_articles sample_parse acme_store since = ok arts
    /\ acme_message
       = Str.join block_sep
           (map (fun ta => build_user_msg (fst ta) (matching Str.lower (snd ta) arts))
                TICKERS)
    /\ forall t aliases,
         In (t, aliases) TICKERS -> matching Str.lower aliases arts = [] ->
         build_user_msg t (matching Str.lower aliases arts) = no_news t.
Proof.
  assert (H : main Str.lower sample_parse acme_store sample_instant = ok acme_message)
    by (vm_compute; reflexivity).
  exact (user_message_covers_every_topic Str.lower sample_parse acme_store
           sample_instant acme_message H).
Defined.

(* ------------------------------------------------------------------ *)
(** ** Aliases that add nothing *)

Lemma contains_trans (a b t : string) :
  Str.contains a b = true -> Str.contains b t = true ->
  Str.contains a t = true.
Proof.
  rewrite !contains_iff. intros (p & q & ->) (p' & q' & ->).
  exists (p' ++ p), (q ++ q'). now rewrite !append_assoc.
Qed.

Section AliasFacts.

Variable str_lower : string -> string.

Lemma mentions_app (l1 l2 : list string) (text : string) :
  mentions str_lower (l1 ++ l2)%list text = mentions str_lower l1 text || mentions str_lower l2 text.
Proof. unfold mentions. apply existsb_app. Qed.

Lemma mentions_redundant (l1 l2 : list string) (a b text : string) :
  In a (l1 ++ l2)%list ->
  Str.contains (str_lower a) (str_lower b) = true ->
  mentions str_lower (l1 ++ b :: l2)%list text = mentions str_lower (l1 ++ l2)%list text.
Proof.
  intros Hin Hab. rewrite !mentions_app.
  change (mentions str_lower (b :: l2) text)
    with (Str.contains (str_lower b) text || mentions str_lower l2 text).
  destruct (Str.contains (str_lower b) text) eqn:Hb; [| reflexivity].
  assert (H : mentions str_lower (l1 ++ l2)%list text = true).
  { unfold mentions. apply existsb_exists. exists a.
    split; [exact Hin | exact (contains_trans _ _ _ Hab Hb)]. }
  rewrite mentions_app in H. rewrite H.
  destruct (mentions str_lower l1 text); reflexivity.
Qed.

(** X9.  An alias whose lower-cased text contains the lower-cased text of
    another alias of the same topic adds nothing: with or without it every
    bucket is the same, for every list of articles. *)
Theorem longer_alias_is_redundant (pre post : list (string * list string))
  (t a b : string) (l1 l2 : list string) (arts : list article) :
  NoDup (map fst (pre ++ (t, (l1 ++ b :: l2)%list) :: post)%list) ->
  In a (l1 ++ l2)%list ->
  Str.contains (str_lower a) (str_lower b) = true ->
  buckets_of str_lower (pre ++ (t, (l1 ++ b :: l2)%list) :: post)%list arts
  = buckets_of str_lower (pre ++ (t, (l1 ++ l2)%list) :: post)%list arts.
Proof.
  intros Hnd Hin Hab.
  assert (Hkeys : map fst (pre ++ (t, (l1 ++ l2)%list) :: post)%list
                  = map fst (pre ++ (t, (l1 ++ b :: l2)%list) :: post)%list)
    by (rewrite !map_app; reflexivity).
  rewrite !buckets_of_matching by (rewrite ?Hkeys; exact Hnd).
  rewrite !map_app. cbn [map fst snd]. do 3 f_equal.
  unfold matching. apply filter_ext. intros art.
  now apply (mentions_redundant l1 l2 a b).
Qed.

End AliasFacts.

Lemma longer_alias_is_redundant_witness :
  buckets_of Str.lower [("BAESY", ["BAE"; "BAE Systems"]); ("AAPL", ["Apple"])]
             [bae_article; two_topic_article]
  = buckets_of Str.lower [("BAESY", ["BAE"]); ("AAPL", ["Apple"])]
               [bae_article; two_topic_article].
Proof.
  apply (longer_alias_is_redundant Str.lower [] [("AAPL", ["Apple"])] "BAESY" "BAE"
           "BAE Systems" ["BAE"] [] [bae_article; two_topic_article]).
  - apply distinct_NoDup. reflexivity.
  - left. reflexivity.
  - reflexivity.
Defined.

(* ------------------------------------------------------------------ *)
(** ** The pace of the loop *)

Lemma perform_clock_on (ck : nat -> Z) (n : nat) (net : web) (c : call)
  (w : world) :
  clock w = ck /\ (n <= ticks w)%nat ->
  clock (snd (perform net c w)) = ck /\ (n <= ticks (snd (perform net c w)))%nat.
Proof.
  intros [Hck Hn]. destruct (perform_clock net c w) as [H1 H2].
  rewrite H1, H2. split; [exact Hck | lia].
Qed.

(** X10.  A completed cycle ends with its "Cycle finished" line and one
    sleep.  The sleep is never negative, and the cycle and its sleep take
    POLL_INTERVAL together, from the clock reading at the start of the
    cycle to the one after the gather, unless the cycle alone took longer:
    then the sleep is zero. *)
Theorem cycle_and_sleep_take_the_interval (h : string -> string) (net : web)
  (sched : list nat) (w w' : world) :
  cycle h net sched w = (ok tt, w') ->
  exists j n s,
    journal w' = (j ++ [CycleFinished n; Slept s])%list
    /\ (ticks w < ticks w' - 1)%nat
    /\ let elapsed := clock w (ticks w' - 1) - clock w (ticks w) in
       0 <= s
       /\ POLL_INTERVAL * US_PER_SECOND <= elapsed + s
       /\ (elapsed <= POLL_INTERVAL * US_PER_SECOND ->
           elapsed + s = POLL_INTERVAL * US_PER_SECOND)
       /\ (POLL_INTERVAL * US_PER_SECOND <= elapsed -> s = 0).
Proof.
  unfold cycle, pbind, log_info, sleep, plift.
  change (run net (await Now) w) with (ok (now_of w), tick w).
  unfold ok at 1; cbv beta iota.
  pose proof (gather_always _ (perform_clock_on (clock w) (S (ticks w))) net
                sched (map (fetch_feed h) FEEDS) (tick w)
                (conj eq_refl (le_n _))) as Hck.
  destruct (gather net sched (map (fetch_feed h) FEEDS) (tick w))
    as [[e | added] w2]; [discriminate |].
  cbn [snd] in Hck. destruct Hck as [Hck Hticks].
  change (run net (await Now) (logged w2 (CycleFinished (sum_nats added))))
    with (ok (now_of (logged w2 (CycleFinished (sum_nats added)))),
          tick (logged w2 (CycleFinished (sum_nats added)))).
  unfold ok; cbv beta iota. unfold diff, now_of. cbn [tzinfo micros].
  unfold ok; cbv beta iota.
  intros H. apply (f_equal snd) in H. cbn [snd] in H. rewrite <- H.
  unfold logged, tick. cbn [journal ticks clock conn].
  exists (journal w2), (sum_nats added). eexists.
  split; [rewrite <- app_assoc; reflexivity |].
  split; [lia |].
  replace (S (ticks w2) - 1)%nat with (ticks w2) by lia.
  rewrite Hck. cbv zeta. lia.
Qed.

Lemma cycle_and_sleep_take_the_interval_witness :
  exists j n s,
    journal (snd (cycle sample_digest busy_net first_turns sample_world))
    = (j ++ [CycleFinished n; Slept s])%list
    /\ (ticks sample_world
        < ticks (snd (cycle sample_digest busy_net first_turns sample_world)) - 1)%nat
    /\ let elapsed :=
         clock sample_world
               (ticks (snd (cycle sample_digest busy_net first_turns sample_world)) - 1)
         - clock sample_world (ticks sample_world) in
       0 <= s
       /\ POLL_INTERVAL * US_PER_SECOND <= elapsed + s
       /\ (elapsed <= POLL_INTERVAL * US_PER_SECOND ->
           elapsed + s = POLL_INTERVAL * US_PER_SECOND)
       /\ (POLL_INTERVAL * US_PER_SECOND <= elapsed -> s = 0).
Proof.
  assert (H : cycle sample_digest busy_net first_turns sample_world
              = (ok tt, snd (cycle sample_digest busy_net first_turns sample_world)))
    by (vm_compute; reflexivity).
  exact (cycle_and_sleep_take_the_interval sample_digest busy_net first_turns
           sample_world _ H).
Defined.

(* ------------------------------------------------------------------ *)
(** ** What the rows look like *)

Lemma inserts_bind {A B} (P : row -> Prop) (m : coro A) (f : A -> coro B) :
  inserts P m -> (forall a, inserts P (f a)) -> inserts P (bind m f).
Proof.
  induction m as [a | e | c k IH]; simpl; intros Hm Hf; auto.
  destruct Hm as [Hc Hk]. split; [exact Hc |].
  intros x Hx. apply IH; [now apply Hk | exact Hf].
Qed.

Lemma inserts_lift {A} (P : row -> Prop) (r : result A) : inserts P (lift r).
Proof. destruct r; exact I. Qed.

Lemma inserts_each {A B} (P : row -> Prop) (f : A -> coro B) (xs : list A) :
  (forall x, inserts P (f x)) -> inserts P (each f xs).
Proof.
  intros Hf. induction xs as [| x xs IH]; cbn [each]; [exact I |].
  apply inserts_bind; [apply Hf |]. intros y.
  apply inserts_bind; [exact IH |]. intros ys. exact I.
Qed.

Lemma perform_answers (net : web) (c : call) (w w' : world) (x : reply c) :
  perform net c w = (ok x, w') -> answers c x.
Proof.
  destruct c; simpl; try exact (fun _ => I). now intros [= <- _].
Qed.

Section Rows.

Variable P : row -> Prop.

Lemma perform_every_row (net : web) (c : call) (w : world) :
  match c with ExecInsert r => P r | _ => True end ->
  every_row P w -> every_row P (snd (perform net c w)).
Proof.
  unfold every_row. intros Hc Hw.
  destruct c; simpl; try exact Hw;
    destruct (Db.io (conn w)) as [e | c'] eqn:Hio; simpl; try exact Hw;
    pose proof (io_articles _ _ Hio) as Ha; rewrite <- Ha in Hw;
    try exact Hw.
  - unfold Db.create_table.
    destruct (articles c') as [rows |] eqn:Hrows; simpl;
      [now rewrite Hrows | constructor].
  - unfold Db.insert.
    destruct (articles c') as [rows |] eqn:Hrows; simpl; [| now rewrite Hrows].
    destruct (Db.has_id (r_id r) rows); simpl; [now rewrite Hrows |].
    destruct (r_title r); simpl; [| now rewrite Hrows].
    apply Forall_app. split; [exact Hw | now constructor].
Qed.

Lemma run_every_row {A} (net : web) (t : coro A) (w : world) :
  inserts P t -> every_row P w -> every_row P (snd (run net t w)).
Proof.
  revert w; induction t as [a | e | c k IH]; intros w Ht Hw; simpl; auto.
  destruct Ht as [Hc Hk].
  pose proof (perform_every_row net c w Hc Hw) as Hw1.
  destruct (perform net c w) as [[e | x] w1] eqn:Hp; [exact Hw1 |].
  apply IH; [apply Hk; exact (perform_answers _ _ _ _ _ Hp) | exact Hw1].
Qed.

Lemma resume_every_row {A} (net : web) (t : coro A) (w : world) :
  inserts P t -> every_row P w ->
  every_row P (snd (resume net t w))
  /\ match fst (resume net t w) with
     | Suspended t' => inserts P t'
     | _ => True
     end.
Proof.
  revert w; induction t as [a | e | c k IH]; intros w Ht Hw; simpl; auto.
  destruct Ht as [Hc Hk].
  pose proof (perform_every_row net c w Hc Hw) as Hw1.
  destruct (perform net c w) as [[e | x] w1] eqn:Hp; [now split |].
  pose proof (Hk x (perform_answers _ _ _ _ _ Hp)) as Hx.
  destruct (suspends c); [now split | now apply IH].
Qed.

Lemma drain_every_row {A} (net : web) (tasks : list (coro A)) (w : world) :
  Forall (inserts P) tasks -> every_row P w ->
  every_row P (snd (drain net tasks w)).
Proof.
  intros Ht; revert w; induction Ht as [| t rest Ht Hrest IH]; intros w Hw;
    simpl; [exact Hw |].
  pose proof (run_every_row net t w Ht Hw) as H1.
  destruct (run net t w) as [[e | a] w1]; [exact H1 |].
  specialize (IH w1 H1).
  destruct (drain net rest w1) as [[e | others] w2]; exact IH.
Qed.

Lemma Forall_set_nth {A} (Q : A -> Prop) (i : nat) (x : A) (l : list A) :
  Q x -> Forall Q l -> Forall Q (set_nth i x l).
Proof.
  intros Hx Hl; revert i; induction Hl as [| y l Hy Hl IH]; intros [| i];
    simpl; constructor; auto.
Qed.

Lemma gather_every_row {A} (net : web) (sched : list nat)
  (tasks : list (coro A)) (w : world) :
  Forall (inserts P) tasks -> every_row P w ->
  every_row P (snd (gather net sched tasks w)).
Proof.
  revert tasks w; induction sched as [| i sched IH]; intros tasks w Ht Hw;
    simpl.
  - now apply drain_every_row.
  - destruct (nth_error tasks i) as [t |] eqn:Hi; [| now apply IH].
    assert (Hti : inserts P t).
    { rewrite Forall_forall in Ht. apply Ht. exact (nth_error_In _ _ Hi). }
    destruct (resume_every_row net t w Hti Hw) as [Hw1 Ht'].
    destruct (resume net t w) as [[a | t' | e] w1]; simpl in Hw1, Ht'.
    + apply IH; [| exact Hw1]. now apply Forall_set_nth.
    + apply IH; [| exact Hw1]. now apply Forall_set_nth.
    + exact Hw1.
Qed.

End Rows.

Lemma parse_datetime_inserts (P : row -> Prop) (e : Entry) :
  inserts P (parse_datetime e).
Proof.
  unfold parse_datetime.
  destruct (published_parsed e) as [ts |]; [apply inserts_lift |].
  destruct (updated_parsed e) as [ts |]; [apply inserts_lift |].
  simpl. split; [exact I | intros; exact I].
Qed.

(** The datetimes that [store_entry] compares are aware when the clock is:
    a naive one would make the comparison raise. *)
Lemma lt_aware (a b : datetime) (r : bool) :
  lt a b = ok r -> tzinfo b = Some utc -> tzinfo a = Some utc.
Proof.
  unfold lt. intros H Hb. rewrite Hb in H.
  destruct (tzinfo a) as [[] |]; [reflexivity | discriminate].
Qed.

Lemma store_entry_inserts (h : string -> string) (feed : string)
  (entry : RawEntry) :
  In feed FEEDS -> inserts (scraped h) (store_entry h feed entry).
Proof.
  intros Hfeed. destruct entry as [e | t s p u]; [| exact I].
  unfold store_entry. cbv zeta.
  apply inserts_bind; [simpl; split; [exact I | intros; exact I] |].
  intros cur. apply inserts_bind; [simpl; split; [exact I | intros; exact I] |].
  intros [one |]; [exact I |].
  apply inserts_bind; [apply parse_datetime_inserts |]. intros published_dt.
  simpl. split; [exact I |]. intros now Hnow.
  destruct (sub now (timedelta_hours MAX_AGE_HOURS)) as [x | cutoff] eqn:Hsub;
    simpl; [exact I |].
  assert (Hcut : tzinfo cutoff = Some utc).
  { unfold sub in Hsub. destruct (in_range _); [| discriminate].
    injection Hsub as <-. exact Hnow. }
  destruct (lt published_dt cutoff) as [x | too_old] eqn:Hlt; simpl; [exact I |].
  pose proof (lt_aware _ _ _ Hlt Hcut) as Htz.
  destruct too_old; simpl; [exact I |].
  split; [| intros; split; [exact I | intros; exact I]].
  unfold scraped. simpl.
  split; [reflexivity |]. split; [discriminate |]. split; [discriminate |].
  split; [exact Hfeed |]. now exists published_dt.
Qed.

Lemma fetch_feed_inserts (h : string -> string) (url : string) :
  In url FEEDS -> inserts (scraped h) (fetch_feed h url).
Proof.
  intros Hurl. unfold fetch_feed.
  apply inserts_bind; [simpl; split; [exact I | intros; exact I] |].
  intros parsed. apply inserts_bind; [| intros; exact I].
  apply inserts_each. intros e. now apply store_entry_inserts.
Qed.

Lemma cycle_every_row (h : string -> string) (net : web) (sched : list nat)
  (w : world) :
  every_row (scraped h) w -> every_row (scraped h) (snd (cycle h net sched w)).
Proof.
  intros Hw. unfold cycle, pbind, log_info, sleep, plift.
  change (run net (await Now) w) with (ok (now_of w), tick w).
  unfold ok at 1; cbv beta iota.
  assert (Htasks : Forall (inserts (scraped h)) (map (fetch_feed h) FEEDS)).
  { apply Forall_forall. intros t Ht. apply in_map_iff in Ht.
    destruct Ht as (url & <- & Hurl). now apply fetch_feed_inserts. }
  pose proof (gather_every_row (scraped h) net sched _ (tick w) Htasks Hw) as H2.
  destruct (gather net sched (map (fetch_feed h) FEEDS) (tick w))
    as [[e | added] w2]; [exact H2 |].
  change (run net (await Now) (logged w2 (CycleFinished (sum_nats added))))
    with (ok (now_of (logged w2 (CycleFinished (sum_nats added)))),
          tick (logged w2 (CycleFinished (sum_nats added)))).
  unfold ok; cbv beta iota.
  match goal with
  | |- context [diff ?a ?b] => destruct (diff a b) as [e | elapsed]
  end; exact H2.
Qed.

Lemma poll_cycles_every_row (h : string -> string) (cycles k : nat)
  (nets : nat -> web) (scheds : nat -> list nat) (w : world) :
  every_row (scraped h) w ->
  every_row (scraped h) (snd (poll_cycles h cycles k nets scheds w)).
Proof.
  revert k w; induction cycles as [| n IH]; intros k w Hw; cbn [poll_cycles].
  - exact Hw.
  - unfold pbind. pose proof (cycle_every_row h (nets k) (scheds k) w Hw) as Hc.
    destruct (cycle h (nets k) (scheds k) w) as [[e | []] w1]; [exact Hc |].
    now apply IH.
Qed.

Lemma poll_loop_every_row (h : string -> string) (cycles : nat)
  (nets : nat -> web) (scheds : nat -> list nat) (w : world) :
  every_row (scraped h) w ->
  every_row (scraped h) (snd (poll_loop h cycles nets scheds w)).
Proof.
  intros Hw. unfold poll_loop, pbind.
  assert (Hinit : inserts (scraped h) init_db).
  { unfold init_db. simpl. split; [exact I |]. intros _ _.
    split; [exact I | intros; exact I]. }
  pose proof (run_every_row (scraped h) (nets O) init_db w Hinit Hw) as Hi.
  destruct (run (nets O) init_db w) as [[e | []] w1]; [exact Hi |].
  now apply poll_cycles_every_row.
Qed.

(** X11.  Every row of the table is one that [store_entry] built, however
    [poll_loop] is left: its id is the fingerprint of its link, its title
    and summary are not NULL, its feed is one of FEEDS and its timestamp is
    the ISO text, with a T, of an aware datetime.  With the primary key it
    follows that no link is stored twice. *)
Theorem rows_are_well_formed (h : string -> string) (cycles : nat)
  (nets : nat -> web) (scheds : nat -> list nat) (w : world) :
  every_row (scraped h) w -> keyed w ->
  every_row (scraped h) (snd (poll_loop h cycles nets scheds w))
  /\ forall rows,
       holds (snd (poll_loop h cycles nets scheds w)) rows ->
       NoDup (map r_link rows).
Proof.
  intros Hw Hk.
  pose proof (poll_loop_every_row h cycles nets scheds w Hw) as Hrows.
  pose proof (poll_loop_always keyed perform_keyed (fun w0 e H => H)
                h cycles nets scheds w Hk) as Hkey.
  split; [exact Hrows |].
  intros rows Hholds. unfold every_row, keyed, holds in *.
  rewrite Hholds in Hrows, Hkey.
  apply (NoDup_map_inv (article_id h)).
  rewrite map_map.
  replace (map (fun r => article_id h (r_link r)) rows) with (map r_id rows);
    [exact Hkey |].
  apply map_ext_in. intros r Hr. rewrite Forall_forall in Hrows.
  exact (proj1 (Hrows r Hr)).
Qed.

Lemma rows_are_well_formed_witness :
  every_row (scraped sample_digest)
            (snd (poll_loop sample_digest 2 (fun _ => busy_net)
                            (fun _ => first_turns) new_world))
  /\ forall rows,
       holds (snd (poll_loop sample_digest 2 (fun _ => busy_net)
                             (fun _ => first_turns) new_world)) rows ->
       NoDup (map r_link rows).
Proof.
  apply (rows_are_well_formed sample_digest 2 (fun _ => busy_net)
           (fun _ => first_turns) new_world); exact I.
Defined.

(* ------------------------------------------------------------------ *)
(** ** A timestamp that is no calendar time *)

(** X12.  A new item whose [published_parsed] is not a calendar time that
    [datetime] accepts makes [store_entry] raise ValueError: nothing is
    written, the clock is not read, and [updated_parsed] is not tried
    instead, whatever it holds. *)
Theorem invalid_published_time_raises (h : string -> string) (net : web)
  (feed : string) (e : Entry) (w : world) (rows : list row)
  (ts : struct_time) :
  holds w rows -> calm w ->
  Db.has_id (article_id h (link e)) rows = false ->
  published_parsed e = Some ts ->
  valid_civil (first_six ts) = false ->
  run net (store_entry h feed e) w = (raise ValueError, w).
Proof.
  intros Hrows Hcalm Hnew Hts Hbad.
  rewrite (store_entry_run h net feed e w rows Hrows Hcalm), Hnew.
  rewrite parse_datetime_run, Hts. unfold datetime_new. rewrite Hbad.
  reflexivity.
Qed.

Lemma invalid_published_time_raises_witness :
  run quiet_net (store_entry sample_digest world_feed leap_item) sample_world
  = (raise ValueError, sample_world).
Proof.
  apply (invalid_published_time_raises sample_digest quiet_net world_feed
           leap_item sample_world [] (at_time 2025 1 1 23 59 60));
    reflexivity.
Defined.

(* ------------------------------------------------------------------ *)
(** ** When the loop keeps running *)

Lemma healthy_holds (w : world) :
  healthy w -> holds w (table_rows w).
Proof.
  intros (_ & Ht & _). unfold holds, table_rows.
  destruct (articles (conn w)); [reflexivity | contradiction].
Qed.

Lemma frame_refl (own : string -> Prop) (w : world) : frame own w w.
Proof. intros aid _. reflexivity. Qed.

Lemma frame_trans (own : string -> Prop) (w1 w2 w3 : world) :
  frame own w1 w2 -> frame own w2 w3 -> frame own w1 w3.
Proof. intros H12 H23 aid Hn. now rewrite (H23 aid Hn), (H12 aid Hn). Qed.

(** One call of a sound task in a healthy world. *)
Lemma step_sound {A} (net : web) (kept : list string) (own : string -> Prop)
  (known : list string) (c : call) (k : reply c -> coro A) (w : world) :
  sound net kept own known (Vis c k) ->
  healthy w -> present kept w -> Forall own known -> absent known w ->
  exists x w1,
    perform net c w = (ok x, w1)
    /\ sound net kept own (after c x known) (k x)
    /\ healthy w1 /\ present kept w1
    /\ Forall own (after c x known) /\ absent (after c x known) w1
    /\ frame own w w1.
Proof.
  intros [Hdemand Hk] Hw Hkept Hown Habs.
  pose proof (healthy_holds w Hw) as Hrows.
  destruct Hw as (Hcalm & Htable & Hclock).
  destruct c; simpl in Hdemand.
  - (* Now *)
    assert (Hl : learns net kept Now (now_of w)).
    { split; [reflexivity | apply Hclock]. }
    destruct (Hk _ Hl) as [_ Hs].
    exists (now_of w), (tick w). repeat split; auto.
  - (* Parse *)
    destruct Hdemand as [parsed Hnet].
    destruct (Hk parsed Hnet) as [_ Hs].
    exists parsed, (logged w (Requested url)). simpl. rewrite Hnet.
    repeat split; auto.
  - (* CREATE TABLE IF NOT EXISTS *)
    destruct (Hk tt I) as [_ Hs]. exists tt, w. split.
    + cbn [perform]. rewrite (io_calm _ Hcalm). unfold ok. cbv beta iota.
      unfold Db.create_table.
      destruct (articles (conn w)) eqn:Ha; [| contradiction].
      now rewrite with_conn_self.
    + repeat split; auto.
  - (* SELECT *)
    set (cur := map (fun _ : row => 1)
                    (filter (fun r => String.eqb (r_id r) aid) (table_rows w))).
    assert (Hcur : cur = [] -> stored aid w = false).
    { intros Hnil. unfold stored.
      pose proof (fetchone_select aid (table_rows w)) as Hf. fold cur in Hf.
      rewrite Hnil in Hf. simpl in Hf.
      destruct (Db.has_id aid (table_rows w)); [discriminate | reflexivity]. }
    assert (Hl : learns net kept (ExecSelectId aid) cur).
    { intros Hnil Hin. specialize (Hkept aid Hin). rewrite (Hcur Hnil) in Hkept.
      discriminate. }
    destruct (Hk cur Hl) as [Hclaim Hs].
    exists cur, w. split; [exact (perform_select_calm net aid w _ Hrows Hcalm) |].
    split; [exact Hs |]. split; [now repeat split |]. split; [exact Hkept |].
    simpl in *. destruct cur as [| one rest].
    + split; [constructor; auto |]. split; [| apply frame_refl].
      intros y [<- | Hy]; auto.
    + split; [exact Hown |]. split; [exact Habs | apply frame_refl].
  - (* fetchone *)
    destruct (Hk (Db.fetchone cur) eq_refl) as [_ Hs].
    exists (Db.fetchone cur), w.
    split; [exact (perform_fetchone_calm net cur w Hcalm) |].
    repeat split; auto.
  - (* INSERT *)
    destruct Hdemand as [Hin Htitle]. destruct (Hk tt I) as [_ Hs].
    exists tt, (append_row w r).
    assert (Hstored : forall y,
               stored y (append_row w r)
               = stored y w || String.eqb (r_id r) y).
    { intros y. unfold stored, table_rows, append_row. simpl.
      unfold holds in Hrows. rewrite Hrows. simpl.
      rewrite has_id_app. unfold Db.has_id at 2. simpl.
      now rewrite orb_false_r. }
    split; [exact (perform_insert_calm net r w _ Hrows Hcalm (Habs _ Hin) Htitle) |].
    split; [exact Hs |].
    split.
    { split; [exact Hcalm |]. split; [| exact Hclock].
      unfold append_row. simpl. unfold holds in Hrows. rewrite Hrows.
      discriminate. }
    split.
    { intros y Hy. rewrite Hstored, (Hkept y Hy). reflexivity. }
    split.
    { simpl. rewrite Forall_forall in *. intros y Hy.
      apply filter_In in Hy. now apply Hown. }
    split.
    { intros y Hy. simpl in Hy. apply filter_In in Hy. destruct Hy as [Hy Hne].
      rewrite Hstored, (Habs y Hy). simpl.
      rewrite String.eqb_sym. now apply negb_true_iff. }
    intros y Hy. rewrite Hstored.
    destruct (String.eqb_spec (r_id r) y) as [<- | Hne];
      [| now rewrite orb_false_r].
    exfalso. apply Hy. rewrite Forall_forall in Hown. now apply Hown.
  - (* commit *)
    destruct (Hk tt I) as [_ Hs]. exists tt, w.
    split; [exact (perform_commit_calm net w Hcalm) |].
    repeat split; auto.
Qed.

Lemma run_sound {A} (net : web) (kept : list string) (own : string -> Prop)
  (t : coro A) (known : list string) (w : world) :
  sound net kept own known t ->
  healthy w -> present kept w -> Forall own known -> absent known w ->
  exists a w',
    run net t w = (ok a, w')
    /\ healthy w' /\ present kept w' /\ frame own w w'.
Proof.
  revert known w; induction t as [a | e | c k IH];
    intros known w Hs Hw Hkept Hown Habs.
  - exists a, w. split; [reflexivity |]. split; [exact Hw |].
    split; [exact Hkept | apply frame_refl].
  - contradiction.
  - destruct (step_sound net kept own known c k w Hs Hw Hkept Hown Habs)
      as (x & w1 & Hp & Hs1 & Hw1 & Hkept1 & Hown1 & Habs1 & Hf1).
    destruct (IH x _ w1 Hs1 Hw1 Hkept1 Hown1 Habs1)
      as (a & w' & Hrun & Hw' & Hkept' & Hf').
    exists a, w'. simpl. unfold ok in Hp. rewrite Hp.
    split; [exact Hrun |]. split; [exact Hw' |]. split; [exact Hkept' |].
    exact (frame_trans _ _ _ _ Hf1 Hf').
Qed.

(** One turn of a sound task does not crash, and leaves a sound task. *)
Lemma resume_sound {A} (net : web) (kept : list string) (own : string -> Prop)
  (t : coro A) (known : list string) (w : world) :
  sound net kept own known t ->
  healthy w -> present kept w -> Forall own known -> absent known w ->
  exists p w',
    resume net t w = (p, w')
    /\ healthy w' /\ present kept w' /\ frame own w w'
    /\ match p with
       | Finished _ => True
       | Suspended t' =>
           exists known',
             sound net kept own known' t'
             /\ Forall own known' /\ absent known' w'
       | Crashed _ => False
       end.
Proof.
  revert known w; induction t as [a | e | c k IH];
    intros known w Hs Hw Hkept Hown Habs.
  - exists (Finished a), w. split; [reflexivity |]. split; [exact Hw |].
    split; [exact Hkept |]. split; [apply frame_refl | exact I].
  - contradiction.
  - destruct (step_sound net kept own known c k w Hs Hw Hkept Hown Habs)
      as (x & w1 & Hp & Hs1 & Hw1 & Hkept1 & Hown1 & Habs1 & Hf1).
    simpl. unfold ok in Hp. rewrite Hp. destruct (suspends c).
    + exists (Suspended (k x)), w1. split; [reflexivity |].
      split; [exact Hw1 |]. split; [exact Hkept1 |]. split; [exact Hf1 |].
      now exists (after c x known).
    + destruct (IH x _ w1 Hs1 Hw1 Hkept1 Hown1 Habs1)
        as (p & w' & Hres & Hw' & Hkept' & Hf' & Hp').
      exists p, w'. split; [exact Hres |]. split; [exact Hw' |].
      split; [exact Hkept' |].
      split; [exact (frame_trans _ _ _ _ Hf1 Hf') | exact Hp'].
Qed.

Lemma sound_bind {A B} (net : web) (kept : list string) (own : string -> Prop)
  (m : coro A) (f : A -> coro B) (known : list string) :
  sound net kept own known m ->
  (forall a known', sound net kept own known' (f a)) ->
  sound net kept own known (bind m f).
Proof.
  revert known; induction m as [a | e | c k IH]; intros known Hm Hf; simpl.
  - apply Hf.
  - contradiction.
  - destruct Hm as [Hd Hk]. split; [exact Hd |].
    intros x Hx. destruct (Hk x Hx) as [Hc Hs]. split; [exact Hc |].
    now apply IH.
Qed.

Lemma sound_each {A B} (net : web) (kept : list string) (own : string -> Prop)
  (f : A -> coro B) (xs : list A) :
  (forall x, In x xs -> forall known, sound net kept own known (f x)) ->
  forall known, sound net kept own known (each f xs).
Proof.
  induction xs as [| x xs IH]; intros Hf known; cbn [each]; [exact I |].
  apply sound_bind; [apply Hf; now left |]. intros y known'.
  apply sound_bind; [apply IH; intros; apply Hf; now right |].
  intros ys known''. exact I.
Qed.

Lemma sound_store_entry (h : string -> string) (net : web)
  (kept : list string) (own : string -> Prop) (feed : string) (e : Entry)
  (known : list string) :
  datable e ->
  (~ In (article_id h (link e)) kept -> own (article_id h (link e))) ->
  sound net kept own known (store_entry h feed e).
Proof.
  intros Hvalid Hmine. unfold store_entry. cbv zeta. simpl.
  split; [exact I |]. intros cur Hcur.
  split; [intros Hnil; now apply Hmine, Hcur |].
  split; [exact I |]. intros found ->. split; [exact I |].
  destruct cur as [| one rest]; simpl; [| exact I].
  assert (Hparse : forall k : datetime -> coro bool,
             (forall d, tzinfo d = Some utc ->
                        sound net kept own
                              (article_id h (link e) :: known) (k d)) ->
             sound net kept own (article_id h (link e) :: known)
                   (bind (parse_datetime e) k)).
  { intros k Hk. unfold parse_datetime, datable in *.
    destruct (published_parsed e) as [ts |] eqn:Hp.
    - unfold datetime_new. rewrite Hvalid. simpl.
      now apply Hk.
    - destruct (updated_parsed e) as [ts |] eqn:Hu.
      + unfold datetime_new. rewrite Hvalid. simpl.
        now apply Hk.
      + simpl. split; [exact I |]. intros now [Htz _]. split; [exact I |].
        now apply Hk. }
  apply Hparse. intros published_dt Htz. simpl.
  split; [exact I |]. intros now [Hnow Hrange]. split; [exact I |].
  unfold sub. rewrite Hrange. simpl.
  unfold lt. simpl. rewrite Htz, Hnow. simpl.
  destruct (micros published_dt <?
            micros now - timedelta_hours MAX_AGE_HOURS); simpl; [exact I |].
  split; [split; [now left | discriminate] |].
  intros _ _. split; [exact I |]. split; [exact I |].
  intros _ _. split; exact I.
Qed.

Lemma sound_fetch_feed (h : string -> string) (net : web)
  (kept : list string) (url : string) :
  readable net url ->
  sound net kept (own_of h net kept url) [] (fetch_feed h url).
Proof.
  intros (parsed & Hnet & Hvalid). unfold fetch_feed. simpl.
  split; [now exists parsed |]. intros x Hx. split; [exact I |].
  assert (x = parsed) by (simpl in Hx; unfold ok in *; congruence). subst x.
  apply sound_bind; [| intros; exact I].
  apply sound_each. intros entry He known.
  rewrite Forall_forall in Hvalid. pose proof (Hvalid entry He) as Huse.
  destruct entry as [e | t s p u]; [| contradiction].
  apply sound_store_entry; [exact Huse |].
  intros Hnew. split; [| exact Hnew]. now exists parsed, e.
Qed.

Lemma Forall2_transport {S T} (P Q : S -> T -> Prop) (specs : list S)
  (tasks : list T) :
  Forall2 P specs tasks ->
  (forall s t, In s specs -> P s t -> Q s t) ->
  Forall2 Q specs tasks.
Proof.
  intros H; induction H as [| s t specs tasks Hst H IH]; intros HPQ;
    constructor.
  - apply HPQ; [now left | exact Hst].
  - apply IH. intros s2 t2 Hin. apply HPQ. now right.
Qed.

Lemma turn_kept {S T} (R : world -> S * list string -> T -> Prop)
  (w w1 : world) (specs : list (S * list string)) (tasks : list T)
  (i : nat) (s s' : S * list string) (t t' : T) :
  Forall2 (R w) specs tasks -> NoDup (map fst specs) ->
  nth_error specs i = Some s -> nth_error tasks i = Some t ->
  fst s' = fst s -> R w1 s' t' ->
  (forall s2 t2, In s2 specs -> fst s2 <> fst s -> R w s2 t2 -> R w1 s2 t2) ->
  Forall2 (R w1) (set_nth i s' specs) (set_nth i t' tasks)
  /\ map fst (set_nth i s' specs) = map fst specs.
Proof.
  intros H; revert i; induction H as [| s0 t0 specs tasks H0 H IH];
    intros i Hnd Hs Ht Hfst Hnew Hother.
  - destruct i; discriminate.
  - simpl in Hnd. inversion Hnd as [| ? ? Hnotin Hnd']; subst.
    destruct i as [| i]; simpl in *.
    + injection Hs as <-. injection Ht as <-. split; [| now rewrite Hfst].
      constructor; [exact Hnew |].
      apply (Forall2_transport _ _ _ _ H). intros s2 t2 Hin.
      apply Hother; [now right |].
      intros Heq. apply Hnotin. rewrite <- Heq. now apply in_map.
    + destruct (IH i Hnd' Hs Ht Hfst Hnew) as [Hall Hkeys].
      { intros s2 t2 Hin. apply Hother. now right. }
      split; [| now rewrite Hkeys].
      constructor; [| exact Hall].
      apply Hother; [now left | | exact H0].
      intros Heq. apply Hnotin. rewrite Heq.
      apply in_map. exact (nth_error_In _ _ Hs).
Qed.

Lemma nth_error_Forall2 {S T} (R : S -> T -> Prop) (specs : list S)
  (tasks : list T) (i : nat) (t : T) :
  Forall2 R specs tasks -> nth_error tasks i = Some t ->
  exists s, nth_error specs i = Some s /\ R s t.
Proof.
  intros H; revert i; induction H as [| s0 t0 specs tasks H0 H IH];
    intros [| i]; simpl; try discriminate.
  - intros [= <-]. now exists s0.
  - apply IH.
Qed.

Section Course.

Variable h : string -> string.
Variable net : web.
Variable kept : list string.
Variable urls : list string.
Hypothesis urls_unshared : unshared h net urls kept.

(** What another task writes does not touch the ids of this one. *)
Lemma on_course_frame (url : string) (w w1 : world)
  (spec : string * list string) (t : coro nat) :
  In url urls -> In (fst spec) urls -> fst spec <> url ->
  frame (own_of h net kept url) w w1 ->
  on_course h net kept w spec t -> on_course h net kept w1 spec t.
Proof.
  intros Hurl Hspec Hne Hframe (Hs & Hown & Habs).
  split; [exact Hs |]. split; [exact Hown |].
  intros aid Hin. rewrite Hframe; [now apply Habs |].
  intros [Hc Hnew]. rewrite Forall_forall in Hown.
  destruct (Hown aid Hin) as [Hc' _].
  apply Hnew. exact (urls_unshared _ _ aid Hspec Hurl Hne Hc' Hc).
Qed.

Lemma drain_sound (specs : list (string * list string))
  (tasks : list (coro nat)) (w : world) :
  Forall2 (on_course h net kept w) specs tasks ->
  NoDup (map fst specs) -> incl (map fst specs) urls ->
  healthy w -> present kept w ->
  exists added w',
    drain net tasks w = (ok added, w') /\ healthy w' /\ present kept w'.
Proof.
  revert tasks w.
  induction specs as [| s specs IH]; intros tasks w H Hnd Hincl Hw Hkept;
    inversion H as [| ? t ? rest Hs Hrest]; subst.
  - exists [], w. auto.
  - simpl in Hnd, Hincl. inversion Hnd as [| ? ? Hnotin Hnd']; subst.
    destruct Hs as (Hsound & Hown & Habs).
    destruct (run_sound net kept _ t _ w Hsound Hw Hkept Hown Habs)
      as (a & w1 & Hrun & Hw1 & Hkept1 & Hf).
    assert (Hrest1 : Forall2 (on_course h net kept w1) specs rest).
    { apply (Forall2_transport _ _ _ _ Hrest). intros s2 t2 Hin.
      apply (on_course_frame (fst s) w w1); auto.
      - apply Hincl. now left.
      - apply Hincl. right. now apply in_map.
      - intros Heq. apply Hnotin. rewrite <- Heq. now apply in_map. }
    destruct (IH rest w1 Hrest1 Hnd') as (others & w2 & Hdrain & Hw2 & Hkept2);
      auto.
    { intros x Hx. apply Hincl. now right. }
    exists (a :: others), w2. simpl. unfold ok in *. rewrite Hrun, Hdrain.
    auto.
Qed.

Lemma gather_sound (sched : list nat) (specs : list (string * list string))
  (tasks : list (coro nat)) (w : world) :
  Forall2 (on_course h net kept w) specs tasks ->
  NoDup (map fst specs) -> incl (map fst specs) urls ->
  healthy w -> present kept w ->
  exists added w',
    gather net sched tasks w = (ok added, w') /\ healthy w' /\ present kept w'.
Proof.
  revert specs tasks w; induction sched as [| i sched IH];
    intros specs tasks w H Hnd Hincl Hw Hkept; simpl.
  - now apply (drain_sound specs).
  - destruct (nth_error tasks i) as [t |] eqn:Hi; [| now apply (IH specs)].
    destruct (nth_error_Forall2 _ _ _ _ _ H Hi) as (s & Hsi & Hs).
    destruct Hs as (Hsound & Hown & Habs).
    destruct (resume_sound net kept _ t _ w Hsound Hw Hkept Hown Habs)
      as (p & w1 & Hres & Hw1 & Hkept1 & Hf & Hp).
    rewrite Hres.
    assert (Hurl : In (fst s) urls).
    { apply Hincl, in_map. exact (nth_error_In _ _ Hsi). }
    assert (Hothers : forall s2 t2,
               In s2 specs -> fst s2 <> fst s ->
               on_course h net kept w s2 t2 -> on_course h net kept w1 s2 t2).
    { intros s2 t2 Hin Hne. apply (on_course_frame (fst s)); auto.
      apply Hincl, in_map. exact Hin. }
    destruct p as [a | t' | e]; [| | contradiction].
    + destruct (turn_kept (on_course h net kept) w w1 specs tasks i s
                  (fst s, []) t (Ret a) H Hnd Hsi Hi eq_refl)
        as [Hall Hkeys]; [| exact Hothers |].
      { split; [exact I |]. split; [constructor | intros aid []]. }
      apply (IH _ _ _ Hall); auto; now rewrite Hkeys.
    + destruct Hp as (known' & Hsound' & Hown' & Habs').
      destruct (turn_kept (on_course h net kept) w w1 specs tasks i s
                  (fst s, known') t t' H Hnd Hsi Hi eq_refl)
        as [Hall Hkeys]; [| exact Hothers |].
      { split; [exact Hsound' |]. split; [exact Hown' | exact Habs']. }
      apply (IH _ _ _ Hall); auto; now rewrite Hkeys.
Qed.

End Course.

Lemma FEEDS_distinct : NoDup FEEDS.
Proof. apply distinct_NoDup. reflexivity. Qed.

Lemma healthy_tick (w : world) : healthy w -> healthy (tick w).
Proof. intros (Hc & Ht & Hk). now repeat split. Qed.

Lemma healthy_logged (w : world) (e : event) : healthy w -> healthy (logged w e).
Proof. intros (Hc & Ht & Hk). now repeat split. Qed.

(** A cycle in a healthy world, over feeds that can be fetched and share no
    new item, completes, whatever the order of the turns. *)
Lemma cycle_sound (h : string -> string) (net : web) (kept : list string)
  (sched : list nat) (w : world) :
  (forall url, In url FEEDS -> readable net url) ->
  unshared h net FEEDS kept ->
  healthy w -> present kept w ->
  exists w',
    cycle h net sched w = (ok tt, w') /\ healthy w' /\ present kept w'.
Proof.
  intros Hread Hun Hw Hkept. unfold cycle, pbind, log_info, sleep, plift.
  change (run net (await Now) w) with (ok (now_of w), tick w).
  unfold ok at 1; cbv beta iota.
  assert (Hstart : Forall2 (on_course h net kept (tick w))
                           (map (fun url => (url, [])) FEEDS)
                           (map (fetch_feed h) FEEDS)).
  { revert Hread. generalize FEEDS as urls.
    induction urls as [| url urls IH]; intros Hread; simpl; constructor.
    - split; [apply sound_fetch_feed, Hread; now left |].
      split; [constructor | intros aid []].
    - apply IH. intros u Hu. apply Hread. now right. }
  assert (Hkeys : map fst (map (fun url : string => (url, @nil string)) FEEDS)
                  = FEEDS).
  { rewrite map_map. apply map_id. }
  destruct (gather_sound h net kept FEEDS Hun sched _ _ (tick w) Hstart)
    as (added & w2 & Hg & Hw2 & Hkept2).
  { rewrite Hkeys. exact FEEDS_distinct. }
  { rewrite Hkeys. apply incl_refl. }
  { now apply healthy_tick. }
  { exact Hkept. }
  unfold ok in Hg. rewrite Hg.
  change (run net (await Now) (logged w2 (CycleFinished (sum_nats added))))
    with (ok (now_of (logged w2 (CycleFinished (sum_nats added)))),
          tick (logged w2 (CycleFinished (sum_nats added)))).
  unfold ok; cbv beta iota. unfold diff, now_of. cbn [tzinfo micros].
  unfold ok; cbv beta iota.
  eexists. split; [reflexivity |]. split.
  - now apply healthy_logged, healthy_tick, healthy_logged.
  - exact Hkept2.
Qed.

Lemma poll_cycles_sound (h : string -> string) (kept : list string)
  (cycles k : nat) (nets : nat -> web) (scheds : nat -> list nat) (w : world) :
  (forall k url, In url FEEDS -> readable (nets k) url) ->
  (forall k, unshared h (nets k) FEEDS kept) ->
  healthy w -> present kept w ->
  exists w',
    poll_cycles h cycles k nets scheds w = (ok tt, w') /\ healthy w'.
Proof.
  intros Hread Hun. revert k w; induction cycles as [| n IH];
    intros k w Hw Hkept; cbn [poll_cycles].
  - exists w. split; [reflexivity | exact Hw].
  - destruct (cycle_sound h (nets k) kept (scheds k) w (Hread k) (Hun k)
                Hw Hkept) as (w1 & Hc & Hw1 & Hkept1).
    unfold pbind. unfold ok in Hc. rewrite Hc. now apply IH.
Qed.

Lemma has_id_of_In (aid : string) (rows : list row) :
  In aid (map r_id rows) -> Db.has_id aid rows = true.
Proof.
  intros Hin. apply in_map_iff in Hin. destruct Hin as (r & <- & Hr).
  unfold Db.has_id. apply existsb_exists. exists r.
  split; [exact Hr | apply String.eqb_refl].
Qed.

(** X13.  When the loop keeps running.  If no storage call fails, the clock
    never reads the first MAX_AGE_HOURS of year 1, every feed of FEEDS can
    be fetched in every cycle and carries only entries that have a link and
    whose timestamp, the one that parse_datetime reads, is a calendar time,
    and an item that two feeds carry in the same cycle was in the table
    before the loop started, then [poll_loop] completes every cycle,
    whatever the order in which the fetches take their turns. *)
Theorem healthy_loop_keeps_running (h : string -> string) (cycles : nat)
  (nets : nat -> web) (scheds : nat -> list nat) (w : world) :
  calm w ->
  (forall n, in_range (clock w n - timedelta_hours MAX_AGE_HOURS) = true) ->
  (forall k url, In url FEEDS -> readable (nets k) url) ->
  (forall k, unshared h (nets k) FEEDS (map r_id (table_rows w))) ->
  exists w', poll_loop h cycles nets scheds w = (ok tt, w') /\ healthy w'.
Proof.
  intros Hcalm Hclock Hread Hun. unfold poll_loop, pbind.
  set (w1 := with_conn w (mk_connection (Some (table_rows w)) [])).
  assert (Hinit : run (nets O) init_db w = (ok tt, w1)).
  { unfold init_db. rewrite run_bind, (run_await _ ExecCreate).
    cbn [perform]. rewrite (io_calm _ Hcalm). unfold ok; cbv beta iota.
    rewrite (run_await _ Commit). cbn [perform].
    assert (Hconn : Db.create_table (conn w)
                    = mk_connection (Some (table_rows w)) []).
    { unfold Db.create_table, table_rows. unfold calm in Hcalm.
      destruct (conn w) as [tbl faults]. simpl in *. subst faults.
      now destruct tbl. }
    unfold with_conn at 1. cbn [conn]. rewrite Hconn.
    rewrite io_calm by reflexivity. reflexivity. }
  unfold ok in Hinit. rewrite Hinit.
  apply (poll_cycles_sound h (map r_id (table_rows w))); auto.
  - repeat split; [discriminate | exact Hclock].
  - intros aid Hin. unfold stored. now apply has_id_of_In.
Qed.

Lemma busy_net_carries (url aid : string) :
  carries sample_digest busy_net url aid ->
  (url = world_feed
   /\ In aid [ "sha:https://x/a"; "sha:https://x/u"; "sha:https://x/bare" ])
  \/ (url = us_feed /\ aid = "sha:https://x/us").
Proof.
  intros (parsed & e & Hnet & Hin & ->). revert Hnet. unfold busy_net.
  destruct (String.eqb_spec url world_feed) as [-> | _].
  - intros [= <-]. left. split; [reflexivity |]. simpl in Hin.
    destruct Hin as [[= <-] | [[= <-] | [[= <-] | []]]]; simpl; auto.
  - destruct (String.eqb_spec url us_feed) as [-> | _]; intros [= <-].
    + right. split; [reflexivity |]. simpl in Hin.
      destruct Hin as [[= <-] | []]. reflexivity.
    + destruct Hin.
Qed.

Lemma healthy_loop_keeps_running_witness :
  exists w',
    poll_loop sample_digest 2 (fun _ => busy_net) (fun _ => first_turns)
              new_world = (ok tt, w')
    /\ healthy w'.
Proof.
  apply (healthy_loop_keeps_running sample_digest 2 (fun _ => busy_net)
           (fun _ => first_turns) new_world).
  - reflexivity.
  - intros n. reflexivity.
  - intros _ url _. unfold readable, busy_net.
    destruct (String.eqb url world_feed);
      [| destruct (String.eqb url us_feed)];
      eexists; (split; [reflexivity |]); repeat constructor.
  - intros _ url1 url2 aid _ _ Hne H1 H2. exfalso.
    apply busy_net_carries in H1. apply busy_net_carries in H2.
    destruct H1 as [[-> H1] | [-> H1]]; destruct H2 as [[-> H2] | [-> H2]];
      try congruence; simpl in *;
      repeat match goal with
             | H : _ \/ _ |- _ => destruct H
             | H : False |- _ => destruct H
             end; subst; discriminate.
Defined.

(** An entry without a link is not such an entry: [entry.link] raises
    AttributeError, which nothing catches, and the loop ends in its first
    cycle. *)
Example entry_without_link_ends_loop :
  let out := poll_loop sample_digest 2 (fun _ => linkless_net)
                       (fun _ => first_turns) new_world in
  fst out = raise AttributeError
  /\ cycles_finished (journal (snd out)) = O.
Proof. vm_compute. split; reflexivity. Qed.

(* ------------------------------------------------------------------ *)
(** ** Nothing to read *)

(** X14.  The analyzer on a store with nothing to read.  Without the table
    [articles], as before the first run of the scraper, [main] ends with an
    OperationalError and builds no message.  With the table, when the query
    goes through and selects no row (an empty table, or no row past the
    cutoff), [main] still builds the whole message: one block for every
    topic of TICKERS, each saying that there are no relevant articles. *)
Theorem nothing_recent_still_reports (str_lower : string -> string)
  (dt_parse : string -> result datetime)
  (c : connection) (now since : datetime) :
  sub now (timedelta_hours LOOKBACK_HOURS) = ok since ->
  (articles c = None -> main str_lower dt_parse c now = raise OperationalError)
  /\ (forall rows,
         articles c = Some rows -> hd false (io_faults c) = false ->
         rows_since rows since = [] ->
         main str_lower dt_parse c now
         = ok (Str.join block_sep (map (fun ta => no_news (fst ta)) TICKERS))).
Proof.
  intros Hsub. unfold main. unfold ok in Hsub. rewrite Hsub. split.
  - intros Hnone. unfold fetch_recent_articles.
    destruct (Db.io c) as [e | c'] eqn:Hio.
    + now rewrite (io_raises _ _ Hio).
    + now rewrite (io_articles _ _ Hio), Hnone.
  - intros rows Hrows Hio Hnil.
    assert (H : fetch_recent_articles dt_parse c since = ok []).
    { unfold fetch_recent_articles, Db.io.
      destruct (io_faults c) as [| [] rest]; simpl in *; try discriminate;
        now rewrite Hrows, Hnil. }
    unfold ok in H. rewrite H. reflexivity.
Qed.

Lemma nothing_recent_still_reports_witness :
  main Str.lower sample_parse empty_store sample_instant
  = ok (Str.join block_sep (map (fun ta => no_news (fst ta)) TICKERS)).
Proof.
  apply (proj2 (nothing_recent_still_reports Str.lower sample_parse empty_store
                  sample_instant midnight_cutoff eq_refl) []);
    reflexivity.
Defined.
